(** * neisan-mongo: transcoder, change-set differencer and find cursor

    A shallow embedding of [src/utils.ts] (the revision that exports
    [EJSONCompatible], [encode], [decode], [equal], [UpdateFilter] and
    [changes]) and of the [FindCursor] / [MongoCollection.updateOne] code of
    [src/neisan-mongo/model.ts], followed by the properties stated about
    them.

    Conventions of the embedding.
    - One type [Value] stands for every JavaScript value the code receives
      ([unknown] / [any] in the source): the in-memory documents and the
      wire documents alike.
    - JavaScript numbers are integers ([Z]); floating point, and with it
      the negative zero, is not modelled.  Functions, symbols, bigints,
      regular expressions and binary blobs are left out of [Value]: every
      statement below is about values built from [undefined], [null],
      booleans, integers, strings, object ids, dates, arrays, sets, maps
      and plain objects.
    - An object is the list of its own enumerable properties in enumeration
      order; a [Set] is the list of its members in insertion order; a [Map]
      is the list of its entries in insertion order.
    - A property read [a[k]] is the read of an own property, or of the
      [size] of a set or a map ([member]).  The built-in methods a value
      inherits and the accessor [__proto__] are not modelled; the
      statements that depend on a read or a write under [__proto__] exclude
      that key.
    - A thrown exception is the [Throw] outcome of the [result] monad. *)

From Stdlib Require Import ZArith Bool Ascii String.
From stdpp Require Import gmap strings list fin_maps.

Open Scope string_scope.
Open Scope list_scope.

(** ** JavaScript values *)

#[local] Unset Elimination Schemes.
Inductive Value : Type :=
| Undefined
| Null
| Bool (b : bool)
| Num (n : Z)
| Str (s : string)
| ObjectId (hex : string)
| Date (ms : Z)
| Arr (items : list Value)
| JSSet (members : list Value)
| JSMap (entries : list (Value * Value))
| Obj (props : list (string * Value)).
#[local] Set Elimination Schemes.

(** Induction over the nested occurrences. *)
Section Value_induction.
Variable P : Value -> Prop.
Hypothesis HUndefined : P Undefined.
Hypothesis HNull : P Null.
Hypothesis HBool : forall b, P (Bool b).
Hypothesis HNum : forall n, P (Num n).
Hypothesis HStr : forall s, P (Str s).
Hypothesis HObjectId : forall h, P (ObjectId h).
Hypothesis HDate : forall ms, P (Date ms).
Hypothesis HArr : forall l, Forall P l -> P (Arr l).
Hypothesis HJSSet : forall l, Forall P l -> P (JSSet l).
Hypothesis HJSMap :
  forall l, Forall (fun kv => P (fst kv) /\ P (snd kv)) l -> P (JSMap l).
Hypothesis HObj : forall l, Forall (fun kv => P (snd kv)) l -> P (Obj l).

Fixpoint Value_nested_ind (v : Value) : P v :=
  match v with
  | Undefined => HUndefined
  | Null => HNull
  | Bool b => HBool b
  | Num n => HNum n
  | Str s => HStr s
  | ObjectId h => HObjectId h
  | Date ms => HDate ms
  | Arr l =>
      HArr l ((fix go (l : list Value) : Forall P l :=
                 match l with
                 | [] => List.Forall_nil _
                 | x :: l' => List.Forall_cons _ x l' (Value_nested_ind x) (go l')
                 end) l)
  | JSSet l =>
      HJSSet l ((fix go (l : list Value) : Forall P l :=
                   match l with
                   | [] => List.Forall_nil _
                   | x :: l' => List.Forall_cons _ x l' (Value_nested_ind x) (go l')
                   end) l)
  | JSMap l =>
      HJSMap l ((fix go (l : list (Value * Value))
                   : Forall (fun kv => P (fst kv) /\ P (snd kv)) l :=
                   match l with
                   | [] => List.Forall_nil _
                   | (k, x) :: l' =>
                       List.Forall_cons _ (k, x) l'
                         (conj (Value_nested_ind k) (Value_nested_ind x)) (go l')
                   end) l)
  | Obj l =>
      HObj l ((fix go (l : list (string * Value))
                 : Forall (fun kv => P (snd kv)) l :=
                 match l with
                 | [] => List.Forall_nil _
                 | (k, x) :: l' =>
                     List.Forall_cons _ (k, x) l' (Value_nested_ind x) (go l')
                 end) l)
  end.
End Value_induction.

(** ** Exceptions *)

Inductive Error : Type :=
| AssertionError   (* node:assert *)
| TypeError.       (* thrown by the runtime, e.g. by [new Map] *)

Inductive result (A : Type) : Type :=
| Return (a : A)
| Throw (e : Error).
Arguments Return {A} a.
Arguments Throw {A} e.

Definition bind {A B} (r : result A) (k : A -> result B) : result B :=
  match r with
  | Return a => k a
  | Throw e => Throw e
  end.

Definition rmap {A B} (f : A -> B) (r : result A) : result B :=
  bind r (fun a => Return (f a)).

Notation "'do' x <- r ; k" := (bind r (fun x => k))
  (at level 10, x name, r at level 100, k at level 200).

(** [Array.prototype.map] with a callback that may throw: left to right,
    the first exception wins. *)
Definition mapM {A B} (f : A -> result B) : list A -> result (list B) :=
  fix go (l : list A) : result (list B) :=
    match l with
    | [] => Return []
    | x :: l' => do y <- f x; do ys <- go l'; Return (y :: ys)
    end.


(** ** Objects as property lists *)

Definition Props := list (string * Value).

Fixpoint get (k : string) (o : Props) : option Value :=
  match o with
  | [] => None
  | (k', v) :: o' => if String.eqb k k' then Some v else get k o'
  end.

(** [o[k]]: a missing property reads as [undefined]. *)
Definition prop (k : string) (o : Props) : Value :=
  match get k o with Some v => v | None => Undefined end.

(** [o[k] = v]: an existing property keeps its place. *)
Fixpoint put (k : string) (v : Value) (o : Props) : Props :=
  match o with
  | [] => [(k, v)]
  | (k', v') :: o' =>
      if String.eqb k k' then (k, v) :: o' else (k', v') :: put k v o'
  end.

Definition fromEntries (entries : Props) : Props :=
  fold_left (fun o kv => put (fst kv) (snd kv) o) entries [].

Definition keys (o : Props) : list string := map fst o.

Definition includes (k : string) (ks : list string) : bool :=
  existsb (String.eqb k) ks.

(** ** [EJSONCompatible]

    Of the cases of the source, [Value] has [undefined] (not compatible),
    the other primitives and [null], object ids and dates (compatible), and
    the remaining objects (not compatible).  It has no function or symbol
    (not compatible in the source) and no bigint, regular expression, typed
    array or buffer (compatible in the source). *)

Definition EJSONCompatible (item : Value) : bool :=
  match item with
  | Undefined => false
  | Null | Bool _ | Num _ | Str _ => true
  | ObjectId _ | Date _ => true
  | Arr _ | JSSet _ | JSMap _ | Obj _ => false
  end.

(** [mongo.BSON.EJSON.parse(mongo.BSON.EJSON.stringify(item))] on an
    EJSON-compatible item of [Value]: the driver's serialisation gives back
    strings, integers, booleans, [null], object ids and dates as they were.
    (The compatible items [Value] does not have are not given back as they
    were: the negative zero comes back as [0], a bigint as a number, a
    regular expression as a [BSONRegExp], a typed array or a buffer as a
    plain object.) *)
Definition EJSON_parse_stringify (item : Value) : Value := item.

(** ** [encode] *)

Definition SET_TAG : string := "_JSSet".
Definition MAP_TAG : string := "_JSMap".

(** [Array.from(map)] lists each entry as the two-element array
    [[key, value]], which [encode] then maps over as an array; the [JSMap]
    branch below is that composition written out on the pair. *)
Fixpoint encode (item : Value) : result Value :=
  if EJSONCompatible item then Return (EJSON_parse_stringify item)
  else
    match item with
    | Arr l => rmap Arr (mapM encode l)
    | JSSet l =>
        do encoded <- mapM encode l;
        Return (Obj [(SET_TAG, Arr encoded)])
    | JSMap l =>
        do encoded <-
          mapM (fun kv =>
                  do k <- encode (fst kv);
                  do v <- encode (snd kv);
                  Return (Arr [k; v])) l;
        Return (Obj [(MAP_TAG, Arr encoded)])
    | Obj l =>
        do entries <-
          mapM (fun kv => do v <- encode (snd kv); Return (fst kv, v)) l;
        Return (Obj (fromEntries entries))
    | _ => Throw AssertionError
    end.

(** ** [new Set] and [new Map]

    Membership in a [Set] and key lookup in a [Map] use SameValueZero:
    primitives by value, objects by identity.  Every object the code puts in
    a collection here is a different object (each member of a decoded array
    is built separately), so two object values are never the same key. *)

Definition isObject (v : Value) : bool :=
  match v with
  | ObjectId _ | Date _ | Arr _ | JSSet _ | JSMap _ | Obj _ => true
  | Undefined | Null | Bool _ | Num _ | Str _ => false
  end.

Definition sameValueZero (a b : Value) : bool :=
  match a, b with
  | Undefined, Undefined => true
  | Null, Null => true
  | Bool x, Bool y => Bool.eqb x y
  | Num x, Num y => Z.eqb x y
  | Str x, Str y => String.eqb x y
  | _, _ => false
  end.

Definition has (s : list Value) (v : Value) : bool :=
  existsb (sameValueZero v) s.

Definition set_add (s : list Value) (v : Value) : list Value :=
  if has s v then s else s ++ [v].

Definition new_Set (iterable : list Value) : Value :=
  JSSet (fold_left set_add iterable []).

Fixpoint map_set (k v : Value) (m : list (Value * Value)) : list (Value * Value) :=
  match m with
  | [] => [(k, v)]
  | (k', v') :: m' =>
      if sameValueZero k k' then (k', v) :: m' else (k', v') :: map_set k v m'
  end.

(** An entry handed to [new Map] must be an object; its properties [0] and
    [1] are the key and the value. *)
Definition entry_of (e : Value) : result (Value * Value) :=
  match e with
  | Arr l => Return (nth 0 l Undefined, nth 1 l Undefined)
  | Obj o => Return (prop "0" o, prop "1" o)
  | ObjectId _ | Date _ | JSSet _ | JSMap _ => Return (Undefined, Undefined)
  | Undefined | Null | Bool _ | Num _ | Str _ => Throw TypeError
  end.

Definition new_Map (iterable : list Value) : result Value :=
  do entries <- mapM entry_of iterable;
  Return (JSMap (fold_left (fun m kv => map_set (fst kv) (snd kv) m) entries [])).

(** ** [decode] *)

Fixpoint decode (item : Value) : result Value :=
  if EJSONCompatible item then Return item
  else
    match item with
    | Arr l => rmap Arr (mapM decode l)
    | Obj l =>
        (fix loop (l : Props) (entries : Props) {struct l} : result Value :=
           match l with
           | [] => Return (Obj (fromEntries entries))
           | (key, value) :: rest =>
               if String.eqb key SET_TAG then
                 match value with
                 | Arr vs => rmap new_Set (mapM decode vs)
                 | _ => Throw AssertionError
                 end
               else if String.eqb key MAP_TAG then
                 match value with
                 | Arr vs => do ds <- mapM decode vs; new_Map ds
                 | _ => Throw AssertionError
                 end
               else if EJSONCompatible value then
                 loop rest (entries ++ [(key, value)])
               else
                 do d <- decode value;
                 loop rest (entries ++ [(key, d)])
           end) l []
    | JSSet _ | JSMap _ => Return (Obj [])   (* no own enumerable property *)
    | _ => Throw AssertionError
    end.

(** ** [RecordLike] and [equal] *)

Definition RecordLike (item : Value) : bool :=
  match item with
  | ObjectId _ | Date _ | JSSet _ | JSMap _ | Obj _ => true
  | _ => false
  end.

(** The matching step of [assert.deepStrictEqual] on sets and maps: the
    candidate taken for [y] is the first remaining one that accepts it. *)
Fixpoint take_first {A} (accepts : A -> bool) (cands : list A) : option (list A) :=
  match cands with
  | [] => None
  | c :: cands' =>
      if accepts c then Some cands'
      else match take_first accepts cands' with
           | Some rest => Some (c :: rest)
           | None => None
           end
  end.

Fixpoint match_all {A B} (accepts : A -> B -> bool) (cands : list A) (ys : list B) : bool :=
  match ys with
  | [] => match cands with [] => true | _ => false end
  | y :: ys' =>
      match take_first (fun c => accepts c y) cands with
      | Some rest => match_all accepts rest ys'
      | None => false
      end
  end.

(** [equal(a, b)]: whether [assert.deepStrictEqual(a, b)] passes.  Arrays are
    compared position by position; objects by their own keys whatever their
    order; sets and maps by size and content whatever the insertion order. *)
Fixpoint equal (a b : Value) {struct a} : bool :=
  match a, b with
  | Undefined, Undefined => true
  | Null, Null => true
  | Bool x, Bool y => Bool.eqb x y
  | Num x, Num y => Z.eqb x y
  | Str x, Str y => String.eqb x y
  | ObjectId x, ObjectId y => String.eqb x y
  | Date x, Date y => Z.eqb x y
  | Arr l1, Arr l2 =>
      (fix go (l1 l2 : list Value) {struct l1} : bool :=
         match l1, l2 with
         | [], [] => true
         | x :: l1', y :: l2' => equal x y && go l1' l2'
         | _, _ => false
         end) l1 l2
  | JSSet l1, JSSet l2 =>
      Nat.eqb (length l1) (length l2)
      && forallb (fun x => isObject x || has l2 x) l1
      && match_all (fun (c : Value -> bool) y => c y)
           ((fix objects (l : list Value) : list (Value -> bool) :=
               match l with
               | [] => []
               | x :: l' => if isObject x then equal x :: objects l' else objects l'
               end) l1)
           (List.filter isObject l2)
  | JSMap l1, JSMap l2 =>
      Nat.eqb (length l1) (length l2)
      && (fix primitives (l : list (Value * Value)) : bool :=
            match l with
            | [] => true
            | (k, v) :: l' =>
                (if isObject k then true
                 else match find (fun kv => sameValueZero k (fst kv)) l2 with
                      | Some kv => equal v (snd kv)
                      | None => false
                      end)
                && primitives l'
            end) l1
      && match_all (fun (c : (Value -> bool) * (Value -> bool)) (kv : Value * Value) =>
                      fst c (fst kv) && snd c (snd kv))
           ((fix objects (l : list (Value * Value))
               : list ((Value -> bool) * (Value -> bool)) :=
               match l with
               | [] => []
               | (k, v) :: l' =>
                   if isObject k then (equal k, equal v) :: objects l' else objects l'
               end) l1)
           (List.filter (fun kv => isObject (fst kv)) l2)
  | Obj l1, Obj l2 =>
      Nat.eqb (length l1) (length l2)
      && (fix own (l : Props) : bool :=
            match l with
            | [] => true
            | (k, v) :: l' =>
                match get k l2 with
                | Some v' => equal v v'
                | None => false
                end && own l'
            end) l1
  | _, _ => false
  end.

(** ** [UpdateFilter]

    Of the operator fields of the class, [changes] writes [$push], [$set]
    and [$unset] only; the others stay [{}] and are dropped by [parse], so
    the record keeps these three.  Each is an object from field path to
    payload. *)

Record UpdateFilter : Type := mkUpdateFilter {
  op_push : gmap string Value;
  op_set : gmap string Value;
  op_unset : gmap string Value
}.

Definition new_UpdateFilter : UpdateFilter :=
  {| op_push := ∅; op_set := ∅; op_unset := ∅ |}.

Definition assign_push (p : string) (v : Value) (d : UpdateFilter) : UpdateFilter :=
  {| op_push := <[p := v]> (op_push d); op_set := op_set d; op_unset := op_unset d |}.
Definition assign_set (p : string) (v : Value) (d : UpdateFilter) : UpdateFilter :=
  {| op_push := op_push d; op_set := <[p := v]> (op_set d); op_unset := op_unset d |}.
Definition assign_unset (p : string) (v : Value) (d : UpdateFilter) : UpdateFilter :=
  {| op_push := op_push d; op_set := op_set d; op_unset := <[p := v]> (op_unset d) |}.

(** [Object.entries(this)], in declaration order of the three fields. *)
Definition operators (d : UpdateFilter) : list (string * gmap string Value) :=
  [("$push", op_push d); ("$set", op_set d); ("$unset", op_unset d)].

(** The getter [parse]: operators with at least one path, each without the
    path [_id]. *)
Definition parse (d : UpdateFilter) : list (string * gmap string Value) :=
  map (fun e => (fst e, delete "_id" (snd e)))
      (List.filter (fun e => negb (Nat.eqb (size (snd e)) 0)) (operators d)).

(** [Object.assign(diff[oper], values)]. *)
Definition Object_assign (oper : string) (values : gmap string Value)
    (d : UpdateFilter) : UpdateFilter :=
  if String.eqb oper "$push" then
    {| op_push := values ∪ op_push d; op_set := op_set d; op_unset := op_unset d |}
  else if String.eqb oper "$set" then
    {| op_push := op_push d; op_set := values ∪ op_set d; op_unset := op_unset d |}
  else if String.eqb oper "$unset" then
    {| op_push := op_push d; op_set := op_set d; op_unset := values ∪ op_unset d |}
  else d.

(** ** [changes] *)

Definition typeof (v : Value) : string :=
  match v with
  | Undefined => "undefined"
  | Bool _ => "boolean"
  | Num _ => "number"
  | Str _ => "string"
  | Null | ObjectId _ | Date _ | Arr _ | JSSet _ | JSMap _ | Obj _ => "object"
  end.

(** [Object.keys] / [Object.entries] on a record-like value: only a plain
    object has own enumerable properties. *)
Definition own (v : Value) : Props :=
  match v with Obj o => o | _ => [] end.

(** [a[k]] on a record-like value: an own property, or the [size] a set or
    a map inherits as an accessor.  The other names a value inherits are
    the built-in methods, which are functions, and the accessor
    [__proto__]; they read as [undefined] here.  ([changes], which reads
    [a[k]] for the place of [before], does with a function there what it
    does with [undefined]: neither is EJSON-compatible nor deep-equal to a
    value of [after], and the [typeof] of neither is that of an object.) *)
Definition member (k : string) (a : Value) : Value :=
  match a with
  | JSSet l | JSMap l =>
      if String.eqb k "size" then Num (Z.of_nat (length l)) else Undefined
  | _ => prop k (own a)
  end.

Definition at_ (l : list Value) (i : nat) : Value := nth i l Undefined.

Definition Array_from_Map (m : list (Value * Value)) : list Value :=
  map (fun kv => Arr [fst kv; snd kv]) m.

(** The index at which the loop
    [for (let i = 0; i < Math.max(a.length, b.length); i++)] finds
    [!equal(a.at(i), b.at(i))], if it does. *)
Definition first_difference (la lb : list Value) : option nat :=
  find (fun i => negb (equal (at_ la i) (at_ lb i)))
       (seq 0 (Nat.max (length la) (length lb))).

Definition push_payload (each : list Value) (position slice : nat) : Value :=
  Obj [("$each", Arr each);
       ("$position", Num (Z.of_nat position));
       ("$slice", Num (Z.of_nat slice))].

Definition path (prefix k : string) : string :=
  if String.eqb prefix "" then k else prefix +:+ "." +:+ k.

Definition assert_notEmpty (prefix : string) : result unit :=
  if String.eqb prefix "" then Throw AssertionError else Return tt.

(** The three branches for an ordered container [b] whose counterpart [a]
    is a container of the same kind: patch from the first differing index,
    or set the whole value when the loop finds none. *)
Definition positional (prefix key : string) (la lb : list Value) (b : Value)
    : result UpdateFilter :=
  match first_difference la lb with
  | Some i =>
      do each <- mapM encode (skipn i lb);
      Return (assign_push key (push_payload each i (length lb)) new_UpdateFilter)
  | None =>
      do e <- encode b;
      Return (assign_set prefix e new_UpdateFilter)
  end.

Definition isArray (v : Value) : bool :=
  match v with Arr _ => true | _ => false end.
Definition isSet (v : Value) : bool :=
  match v with JSSet _ => true | _ => false end.
Definition isMap (v : Value) : bool :=
  match v with JSMap _ => true | _ => false end.

Fixpoint changes (prefix : string) (a b : Value) {struct b} : result UpdateFilter :=
  let diff := new_UpdateFilter in
  match b with
  | Undefined =>
      do _ <- assert_notEmpty prefix;
      Return (assign_unset prefix (Str "") diff)
  | _ =>
      if EJSONCompatible a || EJSONCompatible b
         || isArray b || isSet b || isMap b
      then
        if equal a b then Return diff
        else
          do _ <- assert_notEmpty prefix;
          match b with
          | JSSet lb =>
              match a with
              | JSSet la => positional prefix (prefix +:+ "._JSSet") la lb b
              | _ => do e <- encode b; Return (assign_set prefix e diff)
              end
          | JSMap lb =>
              match a with
              | JSMap la =>
                  positional prefix (prefix +:+ "._JSMap")
                    (Array_from_Map la) (Array_from_Map lb) b
              | _ => do e <- encode b; Return (assign_set prefix e diff)
              end
          | Arr lb =>
              match a with
              | Arr la => positional prefix prefix la lb b
              | _ => do e <- mapM encode lb; Return (assign_set prefix (Arr e) diff)
              end
          | _ => do e <- encode b; Return (assign_set prefix e diff)
          end
      else if negb (String.eqb (typeof a) (typeof b)) then
        do _ <- assert_notEmpty prefix;
        do e <- encode b;
        Return (assign_set prefix e diff)
      else if negb (RecordLike a) then Throw AssertionError
      else if negb (RecordLike b) then Throw AssertionError
      else
        let aKeys := keys (own a) in
        let bKeys := keys (own b) in
        let diff :=
          fold_left (fun d k =>
                       if includes k bKeys then d
                       else assign_unset (path prefix k) (Str "") d)
                    aKeys diff in
        match b with
        | Obj lb =>
            (fix entries (bs : Props) (diff : UpdateFilter) {struct bs}
               : result UpdateFilter :=
               match bs with
               | [] => Return diff
               | (k, v) :: bs' =>
                   do vChanges <- changes (path prefix k) (member k a) v;
                   entries bs'
                     (fold_left (fun d e => Object_assign (fst e) (snd e) d)
                                (parse vChanges) diff)
               end) lb diff
        | _ => Return diff   (* [Object.entries(b)] is empty *)
        end
  end.

(** ** The find cursor ([FindCursor] of [model.ts])

    The cursor code shares two kinds of mutable objects: the options
    objects handed from cursor to cursor, and the driver's cursors.  Both
    live in a [World]; a reference is an index into it.  A computation is a
    function of the world that ends with a value, with an exception, or is
    still [Running] when the fuel of one of its loops is used up. *)

Record FindOptions : Type := mkFindOptions {
  o_limit : option nat;
  o_skip : option nat;
  o_populate : option (list string);
  o_sort : option Value;
  o_hint : option Value
}.

(** The driver's cursor: the documents it has not delivered yet. *)
Record DriverCursor : Type := mkDriverCursor {
  d_docs : list Value;
  d_closed : bool
}.

Record World : Type := mkWorld {
  heap_options : list FindOptions;
  heap_cursors : list DriverCursor
}.

Inductive Outcome (A : Type) : Type :=
| Finished (a : A)
| Raised (e : Error)
| Running.
Arguments Finished {A} a.
Arguments Raised {A} e.
Arguments Running {A}.

Definition M (A : Type) : Type := World -> Outcome (A * World).

Definition ret {A} (a : A) : M A := fun w => Finished (a, w).

Definition mbind {A B} (m : M A) (k : A -> M B) : M B :=
  fun w =>
    match m w with
    | Finished (a, w') => k a w'
    | Raised e => Raised e
    | Running => Running
    end.

Definition lift {A} (r : result A) : M A :=
  fun w => match r with Return a => Finished (a, w) | Throw e => Raised e end.

Notation "'let*' x := m 'in' k" := (mbind m (fun x => k))
  (at level 10, x name, m at level 100, k at level 200).

(** The store behind a collection: the documents [collection.find] streams
    for a query and its options, the model constructor, and the relation
    population of a model. *)
Record MongoCollection : Type := mkMongoCollection {
  store_find : Value -> option FindOptions -> list Value;
  model : Value -> Value;
  populate_key : string -> Value -> Value
}.

Inductive Search : Type :=
| NoSearch
| Filter (data : Value)
| Predicate (search : Value -> bool).

Record FindCursor : Type := mkFindCursor {
  collection : MongoCollection;
  cursor : nat;
  query : Value;
  search : Search;
  _limit : option nat;          (* [None] is [Infinity] *)
  _skip : nat;
  skipped : nat;
  yielded : nat;
  options : option nat;
  transform : option (Value -> Value);
  _populate : list string
}.

Inductive IteratorResult : Type :=
| Done
| Yield (value : Value).

Definition done (r : IteratorResult) : bool :=
  match r with Done => true | Yield _ => false end.

Definition read_options (r : option nat) (w : World) : option FindOptions :=
  match r with
  | Some i => heap_options w !! i
  | None => None
  end.

Definition alloc_options (o : FindOptions) : M nat :=
  fun w =>
    Finished (length (heap_options w),
              {| heap_options := heap_options w ++ [o];
                 heap_cursors := heap_cursors w |}).

(** [delete options.limit; delete options.skip; delete options.populate]. *)
Definition delete_paging (r : option nat) : M unit :=
  fun w =>
    match r with
    | Some i =>
        match heap_options w !! i with
        | Some o =>
            Finished (tt,
              {| heap_options :=
                   <[i := {| o_limit := None; o_skip := None; o_populate := None;
                             o_sort := o_sort o; o_hint := o_hint o |}]>
                     (heap_options w);
                 heap_cursors := heap_cursors w |})
        | None => Finished (tt, w)
        end
    | None => Finished (tt, w)
    end.

(** [collection.collection.find(query, options)]. *)
Definition driver_find (c : MongoCollection) (q : Value) (r : option nat) : M nat :=
  fun w =>
    Finished (length (heap_cursors w),
              {| heap_options := heap_options w;
                 heap_cursors :=
                   heap_cursors w ++
                   [{| d_docs := store_find c q (read_options r w);
                       d_closed := false |}] |}).

(** [cursor.next()] of the driver: the next document, or [null] at the end
    of the stream, when the driver closes the cursor. *)
Definition driver_next (h : nat) : M (option Value) :=
  fun w =>
    match heap_cursors w !! h with
    | Some d =>
        if d_closed d then Finished (None, w)
        else
          match d_docs d with
          | [] =>
              Finished (None,
                {| heap_options := heap_options w;
                   heap_cursors :=
                     <[h := {| d_docs := []; d_closed := true |}]> (heap_cursors w) |})
          | doc :: rest =>
              Finished (Some doc,
                {| heap_options := heap_options w;
                   heap_cursors :=
                     <[h := {| d_docs := rest; d_closed := false |}]> (heap_cursors w) |})
          end
    | None => Finished (None, w)
    end.

Definition driver_close (h : nat) : M unit :=
  fun w =>
    match heap_cursors w !! h with
    | Some d =>
        Finished (tt,
          {| heap_options := heap_options w;
             heap_cursors :=
               <[h := {| d_docs := d_docs d; d_closed := true |}]> (heap_cursors w) |})
    | None => Finished (tt, w)
    end.

Module Cursor.

(** The constructor. *)
Definition new (coll : MongoCollection) (s : Search) (opts : option nat)
    (tr : option (Value -> Value)) : M FindCursor :=
  let* q := lift (match s with Filter data => encode data | _ => Return (Obj []) end) in
  fun w =>
    let o := read_options opts w in
    let lim := o ≫= o_limit in
    let skp := default 0 (o ≫= o_skip) in
    let pop := default [] (o ≫= o_populate) in
    (let* _ := delete_paging opts in
     let* h := driver_find coll q opts in
     ret {| collection := coll; cursor := h; query := q; search := s;
            _limit := lim; _skip := skp; skipped := 0; yielded := 0;
            options := opts; transform := tr; _populate := pop |}) w.

Definition clone (c : FindCursor) : M FindCursor :=
  new (collection c) (search c) (options c) (transform c).

Definition close (c : FindCursor) : M unit := driver_close (cursor c).

(** [{ ...this.options, field }]: a new object. *)
Definition spread (r : option nat) (w : World) : FindOptions :=
  match read_options r w with
  | Some o => o
  | None => {| o_limit := None; o_skip := None; o_populate := None;
               o_sort := None; o_hint := None |}
  end.

Definition limit (n : nat) (c : FindCursor) : M FindCursor :=
  fun w =>
    let o := spread (options c) w in
    (let* r := alloc_options
                 {| o_limit := Some n; o_skip := o_skip o; o_populate := o_populate o;
                    o_sort := o_sort o; o_hint := o_hint o |} in
     new (collection c) (search c) (Some r) (transform c)) w.

Definition skip (n : nat) (c : FindCursor) : M FindCursor :=
  fun w =>
    let o := spread (options c) w in
    (let* r := alloc_options
                 {| o_limit := o_limit o; o_skip := Some n; o_populate := o_populate o;
                    o_sort := o_sort o; o_hint := o_hint o |} in
     new (collection c) (search c) (Some r) (transform c)) w.

Definition hint (h : Value) (c : FindCursor) : M FindCursor :=
  fun w =>
    let o := spread (options c) w in
    (let* r := alloc_options
                 {| o_limit := o_limit o; o_skip := o_skip o; o_populate := o_populate o;
                    o_sort := o_sort o; o_hint := Some h |} in
     new (collection c) (search c) (Some r) (transform c)) w.

(** [sort] passes no transform to the constructor. *)
Definition sort (s : Value) (c : FindCursor) : M FindCursor :=
  fun w =>
    let o := spread (options c) w in
    (let* r := alloc_options
                 {| o_limit := o_limit o; o_skip := o_skip o; o_populate := o_populate o;
                    o_sort := Some s; o_hint := o_hint o |} in
     new (collection c) (search c) (Some r) None) w.

Definition map (tr : Value -> Value) (c : FindCursor) : M FindCursor :=
  new (collection c) (search c) (options c) (Some tr).

Definition limit_reached (c : FindCursor) : bool :=
  match _limit c with
  | Some n => Nat.leb n (yielded c)
  | None => false
  end.

Definition with_skipped (c : FindCursor) (n : nat) : FindCursor :=
  {| collection := collection c; cursor := cursor c; query := query c;
     search := search c; _limit := _limit c; _skip := _skip c;
     skipped := n; yielded := yielded c; options := options c;
     transform := transform c; _populate := _populate c |}.

Definition with_yielded (c : FindCursor) (n : nat) : FindCursor :=
  {| collection := collection c; cursor := cursor c; query := query c;
     search := search c; _limit := _limit c; _skip := _skip c;
     skipped := skipped c; yielded := n; options := options c;
     transform := transform c; _populate := _populate c |}.

(** What both branches of [next] do with a model that passed the search:
    populate, transform, then skip or yield.  [again] is the [continue]. *)
Definition accept (c : FindCursor) (value : Value)
    (again : FindCursor -> M (IteratorResult * FindCursor))
    : M (IteratorResult * FindCursor) :=
  let value :=
    fold_left (fun v key => populate_key (collection c) key v) (_populate c) value in
  let value :=
    match transform c with Some tr => tr value | None => value end in
  match value with
  | Null => ret (Done, c)
  | _ =>
      if Nat.ltb (skipped c) (_skip c) then again (with_skipped c (S (skipped c)))
      else ret (Yield value, with_yielded c (S (yielded c)))
  end.

(** The [while (next !== null)] loop of [next]. *)
Fixpoint next_loop (fuel : nat) (c : FindCursor) (next : option Value)
    : M (IteratorResult * FindCursor) :=
  match fuel with
  | O => fun _ => Running
  | S fuel' =>
      match next with
      | None => let* _ := close c in ret (Done, c)
      | Some doc =>
          if limit_reached c then let* _ := close c in ret (Done, c)
          else
            let* data := lift (decode doc) in
            let value := model (collection c) data in
            match search c with
            | Predicate p =>
                if p value then
                  accept c value (fun c' => next_loop fuel' c' next)
                else
                  let* next' := driver_next (cursor c) in
                  next_loop fuel' c next'
            | _ =>
                accept c value (fun c' => next_loop fuel' c' next)
            end
      end
  end.

(** Iterations the loop can still make: the documents left in the stream
    and the skips left to count, and the last one that leaves it. *)
Definition next_fuel (c : FindCursor) (w : World) : nat :=
  match heap_cursors w !! cursor c with
  | Some d => length (d_docs d)
  | None => 0
  end + (_skip c - skipped c) + 2.

Definition next (c : FindCursor) : M (IteratorResult * FindCursor) :=
  fun w =>
    (let* first := driver_next (cursor c) in
     next_loop (next_fuel c w) c first) w.

(** The [while (true)] loop of [[Symbol.asyncIterator]], collecting the
    yielded values as [toArray] does. *)
Fixpoint iterate (fuel : nat) (c : FindCursor) (results : list Value)
    : M (list Value * FindCursor) :=
  match fuel with
  | O => fun _ => Running
  | S fuel' =>
      if Nat.ltb (skipped c) (_skip c) then iterate fuel' c results
      else if limit_reached c then ret (results, c)
      else
        let* r := next c in
        match fst r with
        | Done => ret (results, snd r)
        | Yield value => iterate fuel' (snd r) (results ++ [value])
        end
  end.

Definition toArray (fuel : nat) (c : FindCursor) : M (option (list Value)) :=
  let* r := iterate fuel c [] in
  ret (match fst r with [] => None | results => Some results end).

Definition count (fuel : nat) (c : FindCursor) : M nat :=
  let* cl := clone c in
  let* r := iterate fuel cl [] in
  ret (length (fst r)).

Definition hasNext (c : FindCursor) : M bool :=
  let* cl := clone c in
  let* probe := skip (yielded c) cl in
  let* r := next probe in
  ret (negb (done (fst r))).

End Cursor.

(** [MongoCollection.find]. *)
Definition find (coll : MongoCollection) (s : Search) (opts : option nat) : M FindCursor :=
  Cursor.new coll s opts None.

(** ** [MongoCollection.updateOne]

    The collaborators of one call: what [findOne] returns for the search,
    the update handed in, the schema's [safeParseAsync], and the store's
    [findOneAndUpdate].  The calls made to the store are logged next to the
    result.

    The update is a function from the model it is handed to the model it
    leaves.  In the code that model is built from [before.toJSON()], which
    copies the properties of [before] and not their values: an updater that
    changes a nested container in place changes the one [before] holds as
    well.  [update] stands for the updaters that assign to properties. *)

Record UpdateResult : Type := mkUpdateResult {
  acknowledged : bool;
  updated : option Value;                 (* the field [model] *)
  errors : list (string * string)
}.

(** One issue of a failed parse: [issue.path.at(0)] and [issue.message]. *)
Definition Issue : Type := (option string * string)%type.

Inductive StoreReply : Type :=
| Replaced (document : Value)
| NoDocument                              (* [null] *)
| DuplicateKey (keyPattern : list string) (* [MongoServerError], code 11000 *)
| StoreError.

Definition Rendered : Type := list (string * gmap string Value).

Record UpdateEnv : Type := mkUpdateEnv {
  model_name : string;
  findOne : option Value;
  construct : Value -> Value;
  safeParse : Value -> option (list Issue);   (* [None]: success *)
  findOneAndUpdate : Value -> Rendered -> StoreReply
}.

Definition StoreCall : Type := (Value * Rendered)%type.

Fixpoint put_error (k m : string) (e : list (string * string)) : list (string * string) :=
  match e with
  | [] => [(k, m)]
  | (k', m') :: e' =>
      if String.eqb k k' then (k, m) :: e' else (k', m') :: put_error k m e'
  end.

Definition schemaFailure (issues : list Issue) : UpdateResult :=
  {| acknowledged := false;
     updated := None;
     errors :=
       fold_left (fun e (i : Issue) =>
                    match fst i with
                    | Some p => if String.eqb p "" then e else put_error p (snd i) e
                    | None => e
                    end) issues [] |}.

Definition general (message : string) : UpdateResult :=
  {| acknowledged := false; updated := None; errors := [("general", message)] |}.

Definition notFound (name : string) : UpdateResult :=
  general ("No " +:+ name +:+ " found").

Definition noUpdates : UpdateResult := general "No Updates to Make".

Definition rejectFailure : UpdateResult := general "Rejected By Collection".

Definition uniqueFailure (key : string) : UpdateResult :=
  {| acknowledged := false; updated := None;
     errors := [(key, key +:+ " must be unique")] |}.

(** [Model.toJSON]: a copy of the own properties. *)
Definition toJSON (m : Value) : Value := Obj (own m).

Definition updateOne (env : UpdateEnv) (update : Value -> Value)
    : result (UpdateResult * list StoreCall) :=
  match findOne env with
  | None => Return (notFound (model_name env), [])
  | Some before =>
      let after := update (construct env (toJSON before)) in
      match safeParse env (toJSON after) with
      | Some issues => Return (schemaFailure issues, [])
      | None =>
          do d <- changes "" (toJSON before) (toJSON after);
          let diff := parse d in
          if Nat.eqb (length diff) 0 then Return (noUpdates, [])
          else
            let filter := Obj [("_id", member "_id" before)] in
            Return
              (match findOneAndUpdate env filter diff with
               | Replaced document =>
                   {| acknowledged := true;
                      updated := Some (construct env document);
                      errors := [] |}
               | NoDocument => rejectFailure
               | DuplicateKey keyPattern => uniqueFailure (hd "" keyPattern)
               | StoreError => general "Failed to Update Record"
               end,
               [(filter, diff)])
      end
  end.

(** ** Applying a change set

    Modelled from the spec: the store's side of an update is not part of
    the repository.  Section 4.2 reads the three operation kinds as
    "set -> overwrite path; unset -> remove path; append-at-position ->
    splice tail at index, truncate to length"; [apply] is that reading on a
    wire document.  A field whose path is unset is removed; one whose path
    is set takes the payload; an array whose path carries a positional
    append is spliced and truncated; any other field of an object is
    patched in turn, and the paths set directly below an object that has no
    such field are added to it. *)

Fixpoint strip_prefix (p q : string) : option string :=
  match p with
  | EmptyString => Some q
  | String c p' =>
      match q with
      | String c' q' => if Ascii.eqb c c' then strip_prefix p' q' else None
      | EmptyString => None
      end
  end.

Fixpoint dotfree (s : string) : bool :=
  match s with
  | EmptyString => true
  | String c s' => negb (Ascii.eqb c "."%char) && dotfree s'
  end.

(** The field name [k] for which [q] is [path p k]. *)
Definition child_key (p q : string) : option string :=
  match (if String.eqb p "" then Some q else strip_prefix (p +:+ ".") q) with
  | Some k => if dotfree k && negb (String.eqb k "") then Some k else None
  | None => None
  end.

Definition spliced (payload : Value) (l : list Value) : list Value :=
  match payload with
  | Obj o =>
      match prop "$each" o, prop "$position" o, prop "$slice" o with
      | Arr each, Num i, Num n =>
          firstn (Z.to_nat n)
                 (firstn (Z.to_nat i) l ++ each ++ skipn (Z.to_nat i) l)
      | _, _, _ => l
      end
  | _ => l
  end.

Definition added (d : UpdateFilter) (p : string) (o : Props) : Props :=
  omap (fun qv =>
          match child_key p (fst qv) with
          | Some k => if includes k (keys o) then None else Some (k, snd qv)
          | None => None
          end)
       (map_to_list (op_set d)).

Fixpoint patch (d : UpdateFilter) (p : string) (w : Value) {struct w} : Value :=
  match w with
  | Obj o =>
      Obj ((fix fields (o : Props) : Props :=
              match o with
              | [] => []
              | (k, v) :: o' =>
                  match op_unset d !! path p k with
                  | Some _ => fields o'
                  | None =>
                      match op_set d !! path p k with
                      | Some v' => (k, v') :: fields o'
                      | None => (k, patch d (path p k) v) :: fields o'
                      end
                  end
              end) o
           ++ added d p o)
  | Arr l =>
      match op_push d !! p with
      | Some payload => Arr (spliced payload l)
      | None => w
      end
  | _ => w
  end.

Definition apply (d : UpdateFilter) (document : Value) : Value :=
  patch d "" document.

(** ** Well-formed values

    [valid]: the lists stand for JavaScript collections (no object has a key
    twice, no map has a primitive key twice, no set has a primitive member
    twice).  [encodable]: no [undefined] anywhere, which is what makes
    [encode] throw.  [untagged]: no object uses a reserved tag key. *)

Fixpoint distinct (l : list Value) : bool :=
  match l with
  | [] => true
  | x :: l' => negb (has l' x) && distinct l'
  end.

Fixpoint nodup_keys (ks : list string) : bool :=
  match ks with
  | [] => true
  | k :: ks' => negb (includes k ks') && nodup_keys ks'
  end.

Fixpoint valid (v : Value) : bool :=
  match v with
  | Arr l => forallb valid l
  | JSSet l => forallb valid l && distinct l
  | JSMap l =>
      forallb (fun kv => valid (fst kv) && valid (snd kv)) l
      && distinct (List.map fst l)
  | Obj l => forallb (fun kv => valid (snd kv)) l && nodup_keys (keys l)
  | _ => true
  end.

Fixpoint encodable (v : Value) : bool :=
  match v with
  | Undefined => false
  | Arr l => forallb encodable l
  | JSSet l => forallb encodable l
  | JSMap l => forallb (fun kv => encodable (fst kv) && encodable (snd kv)) l
  | Obj l => forallb (fun kv => encodable (snd kv)) l
  | _ => true
  end.

Definition reserved (k : string) : bool :=
  String.eqb k SET_TAG || String.eqb k MAP_TAG.

Fixpoint untagged (v : Value) : bool :=
  match v with
  | Arr l => forallb untagged l
  | JSSet l => forallb untagged l
  | JSMap l => forallb (fun kv => untagged (fst kv) && untagged (snd kv)) l
  | Obj l => forallb (fun kv => negb (reserved (fst kv)) && untagged (snd kv)) l
  | _ => true
  end.

(** A value the transcoder supports. *)
Definition supported (v : Value) : bool :=
  valid v && encodable v && untagged v.

(** No [undefined] in the place of a value or of a property reached through
    plain objects; arrays, sets and maps may hold it. *)
Fixpoint present (v : Value) : bool :=
  match v with
  | Undefined => false
  | Obj l => forallb (fun kv => present (snd kv)) l
  | _ => true
  end.

(** The elements of [l] that are not the same value (SameValueZero) as an
    element that comes before them, in [seen] or in [l] itself: what a set
    keeps of the elements added to it one after the other. *)
Fixpoint first_occurrences (seen l : list Value) : list Value :=
  match l with
  | [] => []
  | x :: l' =>
      (if has seen x then [] else [x]) ++ first_occurrences (seen ++ [x]) l'
  end.

(** ** The loops of [decode] and [changes] as functions of their own *)

Fixpoint decode_entries (l : Props) (entries : Props) {struct l} : result Value :=
  match l with
  | [] => Return (Obj (fromEntries entries))
  | (key, value) :: rest =>
      if String.eqb key SET_TAG then
        match value with
        | Arr vs => rmap new_Set (mapM decode vs)
        | _ => Throw AssertionError
        end
      else if String.eqb key MAP_TAG then
        match value with
        | Arr vs => do ds <- mapM decode vs; new_Map ds
        | _ => Throw AssertionError
        end
      else if EJSONCompatible value then
        decode_entries rest (entries ++ [(key, value)])
      else
        do d <- decode value;
        decode_entries rest (entries ++ [(key, d)])
  end.

Definition merge (vChanges : UpdateFilter) (diff : UpdateFilter) : UpdateFilter :=
  fold_left (fun d e => Object_assign (fst e) (snd e) d) (parse vChanges) diff.

Definition changes_entries (prefix : string) (a : Value)
    : Props -> UpdateFilter -> result UpdateFilter :=
  fix entries (bs : Props) (diff : UpdateFilter) {struct bs} : result UpdateFilter :=
    match bs with
    | [] => Return diff
    | (k, v) :: bs' =>
        do vChanges <- changes (path prefix k) (member k a) v;
        entries bs' (merge vChanges diff)
    end.

Definition unset_removed (prefix : string) (aKeys bKeys : list string)
    (diff : UpdateFilter) : UpdateFilter :=
  fold_left (fun d k =>
               if includes k bKeys then d
               else assign_unset (path prefix k) (Str "") d)
            aKeys diff.

(** ** The loops of [equal] as functions of their own *)

Fixpoint equal_items (l1 l2 : list Value) {struct l1} : bool :=
  match l1, l2 with
  | [], [] => true
  | x :: l1', y :: l2' => equal x y && equal_items l1' l2'
  | _, _ => false
  end.

Fixpoint object_members (l : list Value) : list (Value -> bool) :=
  match l with
  | [] => []
  | x :: l' => if isObject x then equal x :: object_members l' else object_members l'
  end.

Definition primitive_entries (l2 : list (Value * Value))
    : list (Value * Value) -> bool :=
  fix primitives (l : list (Value * Value)) : bool :=
    match l with
    | [] => true
    | (k, v) :: l' =>
        (if isObject k then true
         else match List.find (fun kv => sameValueZero k (fst kv)) l2 with
              | Some kv => equal v (snd kv)
              | None => false
              end)
        && primitives l'
    end.

Fixpoint object_entries (l : list (Value * Value))
    : list ((Value -> bool) * (Value -> bool)) :=
  match l with
  | [] => []
  | (k, v) :: l' =>
      if isObject k then (equal k, equal v) :: object_entries l' else object_entries l'
  end.

Definition own_equal (l2 : Props) : Props -> bool :=
  fix own (l : Props) : bool :=
    match l with
    | [] => true
    | (k, v) :: l' =>
        match get k l2 with
        | Some v' => equal v v'
        | None => false
        end && own l'
    end.

(** The test that sends [changes] to its first block. *)
Definition compared_whole (a b : Value) : bool :=
  EJSONCompatible a || EJSONCompatible b || isArray b || isSet b || isMap b.

(** ** A sample collection for the pagination scenario

    Ten documents numbered 1 to 10; the predicate matches the six numbered
    1, 3, 5, 7, 9 and 10. *)

Definition numbered (n : Z) : Value := Obj [("n", Num n)].

Definition ten_documents : list Value :=
  List.map numbered [1; 2; 3; 4; 5; 6; 7; 8; 9; 10]%Z.

Definition sample_collection : MongoCollection :=
  {| store_find := fun _ _ => ten_documents;
     model := fun data => data;
     populate_key := fun _ value => value |}.

Definition six_match (value : Value) : bool :=
  match member "n" value with
  | Num n => Z.odd n || Z.eqb n 10
  | _ => false
  end.

Definition empty_world : World := {| heap_options := []; heap_cursors := [] |}.

(** What a computation returns, without the world. *)
Definition returned {A} (o : Outcome (A * World)) : Outcome A :=
  match o with
  | Finished (a, _) => Finished a
  | Raised e => Raised e
  | Running => Running
  end.

(** [n] calls of [next] in a row. *)
Fixpoint next_n (n : nat) (c : FindCursor) : M (list IteratorResult * FindCursor) :=
  match n with
  | O => ret ([], c)
  | S n' =>
      let* r := Cursor.next c in
      let* rs := next_n n' (snd r) in
      ret (fst r :: fst rs, snd rs)
  end.

(** ** Worlds seen from one driver cursor *)

(** Two worlds hold the same driver cursor under the handle [h]. *)
Definition same_cell (h : nat) (w1 w2 : World) : Prop :=
  heap_cursors w1 !! h = heap_cursors w2 !! h.

(** Two runs end the same way, and leave the same driver cursor under [h]. *)
Definition similar {A} (h : nat) (o1 o2 : Outcome (A * World)) : Prop :=
  match o1, o2 with
  | Finished (a1, w1), Finished (a2, w2) => a1 = a2 /\ same_cell h w1 w2
  | Raised e1, Raised e2 => e1 = e2
  | Running, Running => True
  | _, _ => False
  end.

(** A run leaves the driver cursors that existed before it, other than
    [h'], as they were. *)
Definition frames (h' : nat) (w w' : World) : Prop :=
  length (heap_cursors w) <= length (heap_cursors w')
  /\ forall h, h <> h' -> h < length (heap_cursors w) ->
               heap_cursors w' !! h = heap_cursors w !! h.

(** The documents the driver cursor under [h] has left. *)
Definition docs_left (h : nat) (w : World) : nat :=
  match heap_cursors w !! h with
  | Some d => length (d_docs d)
  | None => 0
  end.

(** A cursor in the middle of its stream: one document yielded, nine left. *)
Definition sample_cursor : FindCursor :=
  {| collection := sample_collection; cursor := 0; query := Obj [];
     search := Predicate six_match; _limit := None; _skip := 0;
     skipped := 0; yielded := 1; options := None; transform := None;
     _populate := [] |}.

Definition sample_world : World :=
  {| heap_options := [];
     heap_cursors := [{| d_docs := skipn 1 ten_documents; d_closed := false |}] |}.

(** The same cursor at the end of its stream: the six matching documents
    yielded, the last of which is the last document, so that the driver
    cursor has none left. *)
Definition spent_cursor : FindCursor :=
  {| collection := sample_collection; cursor := 0; query := Obj [];
     search := Predicate six_match; _limit := None; _skip := 0;
     skipped := 0; yielded := 6; options := None; transform := None;
     _populate := [] |}.

Definition spent_world : World :=
  {| heap_options := [];
     heap_cursors := [{| d_docs := []; d_closed := false |}] |}.

(** ** Sample collaborators of [updateOne] *)

Definition stored_user : Value :=
  Obj [("_id", ObjectId "65f0"); ("general", Str "x"); ("attempts", Num 0)].

(** The update changes nothing and the schema accepts the document. *)
Definition env_unchanged : UpdateEnv :=
  {| model_name := "User";
     findOne := Some stored_user;
     construct := fun data => data;
     safeParse := fun _ => None;
     findOneAndUpdate := fun _ _ => NoDocument |}.

(** The schema rejects the field [general] with a message of its own. *)
Definition env_rejected : UpdateEnv :=
  {| model_name := "User";
     findOne := Some stored_user;
     construct := fun data => data;
     safeParse := fun _ => Some [(Some "general", "No Updates to Make")];
     findOneAndUpdate := fun _ _ => NoDocument |}.

(** ** Field names and paths *)

(** A field name a path can address: not empty, and without a dot. *)
Definition plain_key (k : string) : bool :=
  dotfree k && negb (String.eqb k "").

(** Every key of the plain objects of [v], at any depth of object nesting,
    is a plain key. *)
Fixpoint plain_keys (v : Value) : bool :=
  match v with
  | Obj l => forallb (fun kv => plain_key (fst kv) && plain_keys (snd kv)) l
  | _ => true
  end.

(** What may follow a path in a longer one: nothing, or a dot and more. *)
Definition dot_tail (t : string) : bool :=
  match t with
  | EmptyString => true
  | String c _ => Ascii.eqb c "."%char
  end.

(** The path [q] is [p], or goes through [p]. *)
Definition below (p q : string) : Prop :=
  exists t, q = p +:+ t /\ dot_tail t = true.

(** The path [q] carries an operation of the change set. *)
Definition touches (d : UpdateFilter) (q : string) : Prop :=
  is_Some (op_push d !! q) \/ is_Some (op_set d !! q) \/ is_Some (op_unset d !! q).

(** No path carries operations of two kinds. *)
Definition single_kind (d : UpdateFilter) : Prop :=
  forall q,
    ~ (is_Some (op_push d !! q) /\ is_Some (op_set d !! q))
    /\ ~ (is_Some (op_push d !! q) /\ is_Some (op_unset d !! q))
    /\ ~ (is_Some (op_set d !! q) /\ is_Some (op_unset d !! q)).

(** The part of [path p k] before the field name. *)
Definition stem (p : string) : string :=
  if String.eqb p "" then "" else p +:+ ".".

(** One operation, at the prefix or just below it. *)
Definition single_operation (p : string) (d : UpdateFilter) : Prop :=
  p <> "" /\
  exists key v, below p key
    /\ (d = assign_push key v new_UpdateFilter
        \/ d = assign_set key v new_UpdateFilter
        \/ d = assign_unset key v new_UpdateFilter).

(** What the walk over the properties of [b] keeps true of the change set
    built so far: one kind per path, and every path at or below a field
    that is not among the properties still to come. *)
Definition walked (p : string) (bs : Props) (diff : UpdateFilter) : Prop :=
  single_kind diff
  /\ forall q, touches diff q ->
       exists k0, plain_key k0 = true /\ below (path p k0) q /\ ~ In k0 (keys bs).


(** ** Documents of matching shape *)

(** Where [b] has a plain object, [a] has a plain object, a value the wire
    format takes as it is, or nothing: not an array, a set or a map. *)
Fixpoint compatible (a b : Value) {struct b} : bool :=
  match b with
  | Obj lb =>
      match a with
      | Arr _ | JSSet _ | JSMap _ => false
      | _ => forallb (fun kv => compatible (member (fst kv) a) (snd kv)) lb
      end
  | _ => true
  end.

(** No plain object of [v], at any depth of object nesting, has a property
    named [__proto__].  On a plain object that name is the accessor of the
    prototype: [a["__proto__"]] reads [Object.prototype] when [a] has no
    such property of its own, and an assignment [o["__proto__"] = x], as
    [changes] makes to the operators of a change set, stores no property. *)
Fixpoint no_proto_key (v : Value) : bool :=
  match v with
  | Obj l =>
      forallb (fun kv => negb (String.eqb (fst kv) "__proto__")
                         && no_proto_key (snd kv)) l
  | _ => true
  end.

(** A document: a plain object the transcoder supports, whose keys, at any
    depth, are field names (not empty, without a dot) other than
    [__proto__]. *)
Definition document (v : Value) : bool :=
  match v with
  | Obj _ => supported v && plain_keys v && no_proto_key v
  | _ => false
  end.

(** Two states of one document: compatible kinds, and the same identifier
    (or none in either). *)
Definition matching_shape (before after : Value) : Prop :=
  compatible before after = true
  /\ get "_id" (own before) = get "_id" (own after).

(** ** Reading [patch] field by field *)

(** What [patch] makes of the field at path [q] that holds [w]: dropped, or
    kept with a new value. *)
Definition patched_field (d : UpdateFilter) (q : string) (w : Value) : option Value :=
  match op_unset d !! q with
  | Some _ => None
  | None =>
      Some (match op_set d !! q with
            | Some v' => v'
            | None => patch d q w
            end)
  end.

Definition patched_fields (d : UpdateFilter) (p : string) (o : Props) : Props :=
  omap (fun kv =>
          match patched_field d (path p (fst kv)) (snd kv) with
          | Some w => Some (fst kv, w)
          | None => None
          end) o.

(** Two change sets say the same of the path [q]. *)
Definition same_at (d1 d2 : UpdateFilter) (q : string) : Prop :=
  op_push d1 !! q = op_push d2 !! q
  /\ op_set d1 !! q = op_set d2 !! q
  /\ op_unset d1 !! q = op_unset d2 !! q.

(** [D] says of the paths at or below [p] what [c] says. *)
Definition agrees (p : string) (D c : UpdateFilter) : Prop :=
  forall q, below p q -> same_at D c q.

(** The path [q] is at or below a field of the object at [p]. *)
Definition inside (p q : string) : Prop :=
  exists k, plain_key k = true /\ below (path p k) q.

(** A field of a patched wire object that stands for a property of [lb]:
    it decodes to a value deep-equal to that property. *)
Definition result_entry (lb : Props) (kw : string * Value) : Prop :=
  exists b r, In (fst kw, b) lb /\ decode (snd kw) = Return r /\ equal r b = true.

(** [changes] read backwards: what a returned change set says of the
    inputs. *)
Inductive change : string -> Value -> Value -> UpdateFilter -> Prop :=
| change_none p a b :
    b <> Undefined -> compared_whole a b = true -> equal a b = true ->
    change p a b new_UpdateFilter
| change_unset p a :
    p <> "" ->
    change p a Undefined (assign_unset p (Str "") new_UpdateFilter)
| change_set p a b e :
    p <> "" -> b <> Undefined -> encode b = Return e ->
    (compared_whole a b = true -> equal a b = false) ->
    change p a b (assign_set p e new_UpdateFilter)
| change_push_array p la lb i each :
    p <> "" ->
    first_difference la lb = Some i ->
    mapM encode (skipn i lb) = Return each ->
    change p (Arr la) (Arr lb)
      (assign_push p (push_payload each i (length lb)) new_UpdateFilter)
| change_push_set p la lb i each :
    p <> "" ->
    first_difference la lb = Some i ->
    mapM encode (skipn i lb) = Return each ->
    change p (JSSet la) (JSSet lb)
      (assign_push (p +:+ "._JSSet") (push_payload each i (length lb)) new_UpdateFilter)
| change_push_map p la lb i each :
    p <> "" ->
    first_difference (Array_from_Map la) (Array_from_Map lb) = Some i ->
    mapM encode (skipn i (Array_from_Map lb)) = Return each ->
    change p (JSMap la) (JSMap lb)
      (assign_push (p +:+ "._JSMap")
         (push_payload each i (length (Array_from_Map lb))) new_UpdateFilter)
| change_walk p a lb d :
    EJSONCompatible a = false -> typeof a = "object" -> RecordLike a = true ->
    changes_entries p a lb
      (unset_removed p (keys (own a)) (keys lb) new_UpdateFilter) = Return d ->
    change p a (Obj lb) d.


(** A value that encodes, to a wire value that decodes to it. *)
Definition roundtrips (v : Value) : Prop :=
  exists w, encode v = Return w /\ decode w = Return v.

(** What a child of the walk is known to do: its paths are at or below its
    field, and none is the identifier. *)
Definition tame (p : string) (a : Value) (kv : string * Value) : Prop :=
  plain_key (fst kv) = true
  /\ forall c, changes (path p (fst kv)) (member (fst kv) a) (snd kv) = Return c ->
               (forall q, touches c q -> below (path p (fst kv)) q)
               /\ ~ touches c "_id".

(** Encoded and decoded, element by element. *)
Definition coded (x w : Value) : Prop := encode x = Return w /\ decode w = Return x.

(** Deep-equal, of the same kind, and the same value when primitive. *)
Definition alike (x y : Value) : Prop :=
  equal x y = true /\ isObject x = isObject y /\ (isObject x = false -> x = y).


(** ** The diff-apply law, field by field *)

(** A value the law speaks of. *)
Definition good (v : Value) : Prop :=
  supported v = true /\ plain_keys v = true.

(** The field at path [q] ends up deep-equal to [b]: when the document
    holds [a] there, the patched field is kept and decodes to such a value;
    when it holds nothing there, the change set sets the path to one. *)
Definition settled (D : UpdateFilter) (q : string) (a b : Value) : Prop :=
  (a <> Undefined ->
   forall wa, encode a = Return wa ->
     exists w' r, patched_field D q wa = Some w'
                  /\ decode w' = Return r /\ equal r b = true)
  /\ (a = Undefined ->
      exists e r, op_set D !! q = Some e /\ op_unset D !! q = None
                  /\ decode e = Return r /\ equal r b = true).

(** The law at one field, for every place the value [b] may take in a
    document. *)
Definition field_law (b : Value) : Prop :=
  forall (P : string) (a : Value) (c D : UpdateFilter),
    P <> "" ->
    a = Undefined \/ good a ->
    compatible a b = true ->
    changes P a b = Return c ->
    agrees P D c ->
    settled D P a b.

(** ** Wire values

    What [encode] hands to the store: no [undefined], no [Set] and no
    [Map], at any depth. *)
Fixpoint wire (v : Value) : bool :=
  match v with
  | Undefined | JSSet _ | JSMap _ => false
  | Arr l => forallb wire l
  | Obj l => forallb (fun kv => wire (snd kv)) l
  | _ => true
  end.


(** ** The stream of a cursor

    What [next] does with the documents its driver cursor still has, read
    as functions of the decoded documents. *)

(** Whether the search lets a model through: a predicate decides; a filter
    was applied by the store. *)
Definition passes (c : FindCursor) (value : Value) : bool :=
  match search c with
  | Predicate p => p value
  | _ => true
  end.

(** What a model that passed becomes: populated, then transformed. *)
Definition finished (c : FindCursor) (value : Value) : Value :=
  let value :=
    fold_left (fun v key => populate_key (collection c) key v) (_populate c) value in
  match transform c with Some tr => tr value | None => value end.

(** The values a query has to give for the decoded documents of its
    stream, in their order: the models that pass the search, populated and
    transformed. *)
Definition stream_of (coll : MongoCollection) (s : Search) (keys : list string)
    (tr : option (Value -> Value)) (datas : list Value) : list Value :=
  List.map
    (fun value =>
       let value := fold_left (fun v key => populate_key coll key v) keys value in
       match tr with Some f => f value | None => value end)
    (List.filter
       (fun value => match s with Predicate p => p value | _ => true end)
       (List.map (model coll) datas)).

Definition stream (c : FindCursor) (datas : list Value) : list Value :=
  stream_of (collection c) (search c) (_populate c) (transform c) datas.

(** The query the constructor sends to the store. *)
Definition query_of (s : Search) : result Value :=
  match s with
  | Filter data => encode data
  | _ => Return (Obj [])
  end.

(** The options as the store sees them: the constructor has deleted the
    limit, the skip and the keys to populate. *)
Definition no_paging (o : FindOptions) : FindOptions :=
  {| o_limit := None; o_skip := None; o_populate := None;
     o_sort := o_sort o; o_hint := o_hint o |}.

(** [results.length > 0 ? results : null]. *)
Definition or_null (results : list Value) : option (list Value) :=
  match results with
  | [] => None
  | _ => Some results
  end.

(** The first [n] values when there is a limit [n]. *)
Definition limited (n : option nat) (l : list Value) : list Value :=
  match n with
  | Some n => firstn n l
  | None => l
  end.

(** A [null] value ends the cursor. *)
Fixpoint until_null (l : list Value) : list Value :=
  match l with
  | [] => []
  | Null :: _ => []
  | v :: l' => v :: until_null l'
  end.

(** What the limit leaves of the values still to come. *)
Definition within_limit (c : FindCursor) (l : list Value) : list Value :=
  match _limit c with
  | Some n => firstn (n - yielded c) l
  | None => l
  end.

(** The first decoded document whose model passes: how many documents come
    before it, and its finished value. *)
Fixpoint seek (c : FindCursor) (datas : list Value) : option (nat * Value) :=
  match datas with
  | [] => None
  | data :: rest =>
      let value := model (collection c) data in
      if passes c value then Some (0, finished c value)
      else match seek c rest with
           | Some (n, v) => Some (S n, v)
           | None => None
           end
  end.

(** The cursor after a value was yielded: the pending skips counted, one
    more value yielded. *)
Definition advanced (c : FindCursor) : FindCursor :=
  Cursor.with_yielded
    (Cursor.with_skipped c (Nat.max (skipped c) (_skip c)))
    (S (yielded c)).

(** The world with the driver cursor [h] replaced. *)
Definition set_cell (h : nat) (d : DriverCursor) (w : World) : World :=
  {| heap_options := heap_options w;
     heap_cursors := <[h := d]> (heap_cursors w) |}.

(** The driver cursor of [c] is open on [docs]. *)
Definition open_on (c : FindCursor) (docs : list Value) (w : World) : Prop :=
  heap_cursors w !! cursor c = Some {| d_docs := docs; d_closed := false |}.

(** ** The reading methods of [MongoCollection]

    On a filter or a predicate; the branches on an object id go to the
    store's [findOne], which is not part of the repository. *)

(** [!value] is false. *)
Definition truthy (v : Value) : bool :=
  match v with
  | Undefined | Null | Bool false | Str EmptyString => false
  | Num n => negb (Z.eqb n 0)
  | _ => true
  end.

Module Collection.

Definition findMany (fuel : nat) (coll : MongoCollection) (s : Search)
    (opts : option nat) : M (option (list Value)) :=
  let* c := find coll s opts in
  Cursor.toArray fuel c.

Definition findOne (coll : MongoCollection) (s : Search) (opts : option nat)
    : M (option Value) :=
  let* c := find coll s opts in
  let* r := Cursor.next c in
  ret (match fst r with
       | Yield value => if truthy value then Some value else None
       | Done => None
       end).

(** [exists]. *)
Definition exists_ (coll : MongoCollection) (s : Search) (opts : option nat)
    : M bool :=
  let* c := find coll s opts in
  Cursor.hasNext c.

Definition transformMany (fuel : nat) (coll : MongoCollection) (s : Search)
    (tr : Value -> Value) (opts : option nat) : M (option (list Value)) :=
  let* c := find coll s opts in
  let* c := Cursor.map tr c in
  Cursor.toArray fuel c.

(** [count] on a predicate: [this.find(search, options).count()]. *)
Definition count (fuel : nat) (coll : MongoCollection) (p : Value -> bool)
    (opts : option nat) : M nat :=
  let* c := find coll (Predicate p) opts in
  Cursor.count fuel c.

End Collection.


(** What [next] returns for a finished value: [null] ends the call, any
    other value is yielded. *)
Definition handed (c : FindCursor) (v : Value) : IteratorResult * FindCursor :=
  match v with
  | Null => (Done, c)
  | _ => (Yield v, advanced c)
  end.


(** [value === null]. *)
Definition is_null (v : Value) : bool :=
  match v with
  | Null => true
  | _ => false
  end.


(** ** [MongoCollection.insert]

    The collaborators of one call: the schema's [safeParseAsync], which
    gives the issues of a failure or the parsed data (an object), the
    store's [insertOne], and the model constructor.  The documents handed to
    the store are logged next to the result. *)






(** The store gives the document back. *)
Definition env_accepting : UpdateEnv :=
  {| model_name := "User";
     findOne := Some stored_user;
     construct := fun data => data;
     safeParse := fun _ => None;
     findOneAndUpdate := fun _ _ => Replaced stored_user |}.


(** ** [MongoCollection.updateMany]

    The loop [for await (const before of this.find(search, options))] is
    the loop of the iterator with the body of [updateMany] in the place of
    [yield].  The collaborators are those of [updateOne]; [partial] is the
    outcome of [schema.partial().safeParseAsync(update)] when the update is
    an object that fails it. *)

Record UpdateManyResult : Type := mkUpdateManyResult {
  many_acknowledged : bool;
  models : list Value;
  many_errors : list (string * string)
}.

Definition failed (r : UpdateResult) : UpdateManyResult :=
  {| many_acknowledged := false; models := []; many_errors := errors r |}.

(** The result after the loop. *)
Definition concluded (env : UpdateEnv) (ms : list Value) : UpdateManyResult :=
  match ms with
  | [] => failed (general ("No " +:+ model_name env +:+ " Updated"))
  | _ => {| many_acknowledged := true; models := ms; many_errors := [] |}
  end.

(** What the body of the loop does with one model: a write, with the model
    built from the document the store gave back if it gave one, or the
    result that ends the call, after a write or without one. *)
Inductive Turn : Type :=
| Written (call : StoreCall) (model : option Value)
| Ended (r : UpdateManyResult) (call : option StoreCall).

Definition turn (env : UpdateEnv) (update : Value -> Value) (before : Value)
    : result Turn :=
  let after := update (construct env (toJSON before)) in
  match safeParse env (toJSON after) with
  | Some issues => Return (Ended (failed (schemaFailure issues)) None)
  | None =>
      do d <- changes "" (toJSON before) (toJSON after);
      let diff := parse d in
      if Nat.eqb (length diff) 0 then Return (Ended (failed noUpdates) None)
      else
        let filter := Obj [("_id", member "_id" before)] in
        Return
          (match findOneAndUpdate env filter diff with
           | Replaced document =>
               Written (filter, diff) (Some (construct env document))
           | NoDocument => Written (filter, diff) None
           | DuplicateKey keyPattern =>
               Ended (failed (uniqueFailure (hd "" keyPattern))) (Some (filter, diff))
           | StoreError =>
               Ended (failed (general "Failed to Update Record")) (Some (filter, diff))
           end)
  end.

Definition pushed {A} (x : option A) : list A :=
  match x with
  | Some a => [a]
  | None => []
  end.

Fixpoint updateMany_loop (fuel : nat) (env : UpdateEnv) (update : Value -> Value)
    (c : FindCursor) (ms : list Value) (calls : list StoreCall)
    : M (UpdateManyResult * list StoreCall) :=
  match fuel with
  | O => fun _ => Running
  | S fuel' =>
      if Nat.ltb (skipped c) (_skip c) then updateMany_loop fuel' env update c ms calls
      else if Cursor.limit_reached c then ret (concluded env ms, calls)
      else
        let* r := Cursor.next c in
        match fst r with
        | Done => ret (concluded env ms, calls)
        | Yield before =>
            let* t := lift (turn env update before) in
            match t with
            | Written call m =>
                updateMany_loop fuel' env update (snd r) (ms ++ pushed m) (calls ++ [call])
            | Ended res call => ret (res, calls ++ pushed call)
            end
        end
  end.

Definition updateMany (fuel : nat) (env : UpdateEnv) (partial : option (list Issue))
    (update : Value -> Value) (coll : MongoCollection) (s : Search)
    (opts : option nat) : M (UpdateManyResult * list StoreCall) :=
  match partial with
  | Some issues => ret (failed (schemaFailure issues), [])
  | None =>
      let* c := find coll s opts in
      updateMany_loop fuel env update c [] []
  end.

(** The turns of [updateMany] over the models in hand, one after the
    other, to the first that ends the call. *)
Fixpoint turns (env : UpdateEnv) (update : Value -> Value) (befores : list Value)
    (ms : list Value) (calls : list StoreCall)
    : result (UpdateManyResult * list StoreCall) :=
  match befores with
  | [] => Return (concluded env ms, calls)
  | before :: rest =>
      do t <- turn env update before;
      match t with
      | Written call m => turns env update rest (ms ++ pushed m) (calls ++ [call])
      | Ended res call => Return (res, calls ++ pushed call)
      end
  end.

(** A result, as the outcome of a computation. *)
Definition outcome_of {A} (r : result A) : Outcome A :=
  match r with
  | Return a => Finished a
  | Throw e => Raised e
  end.


(** A write of [updateMany]: addressed by the [_id] of its model, with an
    operator, and without the path [_id]. *)
Definition write_for (before : Value) (call : StoreCall) : Prop :=
  fst call = Obj [("_id", member "_id" before)]
  /\ snd call <> []
  /\ forall oper m, In (oper, m) (snd call) -> m !! "_id" = None.


(** ** Sample collaborators of [updateMany] *)

(** The direct children of the sample documents get a new number. *)
Definition renumber (m : Value) : Value := Obj (put "n" (Num 0) (own m)).

(** The third document is refused by the schema. *)
Definition env_refusing_five : UpdateEnv :=
  {| model_name := "User";
     findOne := None;
     construct := fun data => data;
     safeParse := fun m => match member "was" m with
                           | Num 5 => Some [(Some "n", "Too Big")]
                           | _ => None
                           end;
     findOneAndUpdate := fun _ _ => Replaced stored_user |}.

(** The number moves to the field [was]. *)
Definition archive (m : Value) : Value :=
  Obj [("was", member "n" m)].


(** ** The older revision of the transcoder

    [src/utils.ts] as it was before [EJSONCompatible]: primitives and
    object ids are encoded as they are, a date becomes an object tagged
    [_JSDate] that holds its rendering by [toLocaleString], and [decode]
    passes the value of a key [_id] through undecoded.  The rendering of a
    date, the time [new Date(string)] reads back from it and what the loop
    of [decode] makes of the own properties of an object id belong to the
    runtime and to the driver: they are parameters of the model.  (A string
    that is no date makes [new Date] build an invalid date, which [Value]
    does not have.) *)

Definition DATE_TAG : string := "_JSDate".

Module Older.

Section Runtime.

Variable toLocaleString : Z -> string.
Variable new_Date : string -> Z.
Variable decoded_ObjectId : string -> result Value.

Fixpoint encode (item : Value) : Value :=
  match item with
  | Undefined | Null | Bool _ | Num _ | Str _ | ObjectId _ => item
  | Arr l => Arr (List.map encode l)
  | JSSet l => Obj [(SET_TAG, Arr (List.map encode l))]
  | JSMap l =>
      Obj [(MAP_TAG,
            Arr (List.map (fun kv => Arr [encode (fst kv); encode (snd kv)]) l))]
  | Date ms => Obj [(DATE_TAG, Str (toLocaleString ms))]
  | Obj l => Obj (fromEntries (List.map (fun kv => (fst kv, encode (snd kv))) l))
  end.

(** The loop pushes the decoded value of a record-like property twice,
    under the same key. *)
Fixpoint decode (item : Value) : result Value :=
  match item with
  | Undefined | Null | Bool _ | Num _ | Str _ => Return item
  | Arr l => rmap Arr (mapM decode l)
  | Obj l =>
      (fix loop (l : Props) (entries : Props) {struct l} : result Value :=
         match l with
         | [] => Return (Obj (fromEntries entries))
         | (key, value) :: rest =>
             if String.eqb key "_id" then loop rest (entries ++ [(key, value)])
             else if String.eqb key SET_TAG then
               match value with
               | Arr vs => rmap new_Set (mapM decode vs)
               | _ => Throw AssertionError
               end
             else if String.eqb key MAP_TAG then
               match value with
               | Arr vs => do ds <- mapM decode vs; new_Map ds
               | _ => Throw AssertionError
               end
             else if String.eqb key DATE_TAG then
               match value with
               | Str s => Return (Date (new_Date s))
               | _ => Throw AssertionError
               end
             else if RecordLike value then
               do d <- decode value;
               do d' <- decode value;
               loop rest (entries ++ [(key, d); (key, d')])
             else
               do d <- decode value;
               loop rest (entries ++ [(key, d)])
         end) l []
  | ObjectId hex => decoded_ObjectId hex
  | Date _ | JSSet _ | JSMap _ => Return (Obj [])   (* no own enumerable property *)
  end.

End Runtime.

End Older.

(** * Properties *)

(** ** Helpers on lists, strings and the result monad *)

Lemma forallb_Forall {A} (f : A -> bool) (l : list A) :
  forallb f l = true <-> Forall (fun x => f x = true) l.
Proof.
  induction l as [|x l IH]; simpl.
  - split; [constructor | reflexivity].
  - rewrite andb_true_iff, IH. split.
    + intros [? ?]. constructor; assumption.
    + intros H. inversion H; subst. split; assumption.
Qed.

Lemma includes_In (k : string) (ks : list string) :
  includes k ks = true <-> In k ks.
Proof.
  unfold includes. rewrite existsb_exists. split.
  - intros (x & Hx & E). apply String.eqb_eq in E. subst. exact Hx.
  - intros H. exists k. split; [exact H | apply String.eqb_refl].
Qed.

Lemma includes_false (k : string) (ks : list string) :
  includes k ks = false <-> ~ In k ks.
Proof.
  rewrite <- includes_In. destruct (includes k ks); split; congruence.
Qed.

Lemma nodup_keys_NoDup (ks : list string) :
  nodup_keys ks = true <-> List.NoDup ks.
Proof.
  induction ks as [|k ks IH]; simpl.
  - split; [constructor | reflexivity].
  - rewrite andb_true_iff, negb_true_iff, includes_false, IH. split.
    + intros [? ?]. constructor; assumption.
    + intros H. inversion H; subst. split; assumption.
Qed.

Lemma bind_Return {A B} (r : result A) (k : A -> result B) (b : B) :
  bind r k = Return b -> exists a, r = Return a /\ k a = Return b.
Proof. destruct r as [a|e]; simpl; [eauto | discriminate]. Qed.

Lemma mapM_Forall2 {A B} (f : A -> result B) (l : list A) (l' : list B) :
  mapM f l = Return l' <-> Forall2 (fun x y => f x = Return y) l l'.
Proof.
  revert l'. induction l as [|x l IH]; intros l'; simpl.
  - split.
    + intros E. injection E as <-. constructor.
    + intros H. inversion H. reflexivity.
  - split.
    + intros E. apply bind_Return in E as (y & Ey & E).
      apply bind_Return in E as (ys & Eys & E). injection E as <-.
      constructor; [exact Ey | apply IH; exact Eys].
    + intros H. inversion H as [|? y ? ys Ey Hys]; subst.
      rewrite Ey. simpl. apply IH in Hys. rewrite Hys. reflexivity.
Qed.

Lemma get_In (k : string) (v : Value) (o : Props) :
  get k o = Some v -> In (k, v) o.
Proof.
  induction o as [|[k' v'] o IH]; simpl; [discriminate|].
  destruct (String.eqb k k') eqn:E.
  - apply String.eqb_eq in E. intros [= ->]. subst. left. reflexivity.
  - intros H. right. apply IH. exact H.
Qed.

Lemma get_None (k : string) (o : Props) :
  get k o = None <-> ~ In k (keys o).
Proof.
  induction o as [|[k' v'] o IH]; simpl.
  - split; [intros _ [] | reflexivity].
  - destruct (String.eqb k k') eqn:E.
    + apply String.eqb_eq in E. subst. split; [discriminate | intros H; exfalso; apply H; left; reflexivity].
    + apply String.eqb_neq in E. rewrite IH. split.
      * intros H [H1|H1]; [congruence | exact (H H1)].
      * intros H H1. apply H. right. exact H1.
Qed.

Lemma get_NoDup (k : string) (v : Value) (o : Props) :
  List.NoDup (keys o) -> In (k, v) o -> get k o = Some v.
Proof.
  induction o as [|[k' v'] o IH]; simpl; [intros _ []|].
  intros Hnd [E|Hin].
  - injection E as -> ->. rewrite String.eqb_refl. reflexivity.
  - inversion Hnd as [|? ? Hk Hnd']; subst.
    destruct (String.eqb k k') eqn:E.
    + apply String.eqb_eq in E. subst. exfalso. apply Hk.
      change k' with (fst (k', v)). apply in_map. exact Hin.
    + apply IH; assumption.
Qed.

Lemma put_fresh (k : string) (v : Value) (o : Props) :
  ~ In k (keys o) -> put k v o = o ++ [(k, v)].
Proof.
  induction o as [|[k' v'] o IH]; simpl; intros H; [reflexivity|].
  destruct (String.eqb k k') eqn:E.
  - apply String.eqb_eq in E. subst. exfalso. apply H. left. reflexivity.
  - rewrite IH; [reflexivity|]. intros H1. apply H. right. exact H1.
Qed.

Lemma fold_put_NoDup (l acc : Props) :
  List.NoDup (keys (acc ++ l)) ->
  fold_left (fun o kv => put (fst kv) (snd kv) o) l acc = acc ++ l.
Proof.
  revert acc. induction l as [|[k v] l IH]; intros acc Hnd; simpl.
  - rewrite app_nil_r. reflexivity.
  - assert (Hk : ~ In k (keys acc)).
    { unfold keys in *. rewrite map_app in Hnd. simpl in Hnd.
      apply List.NoDup_remove_2 in Hnd. intros H. apply Hnd.
      apply in_or_app. left. exact H. }
    rewrite (put_fresh k v acc Hk).
    rewrite IH; rewrite <- app_assoc; simpl; [reflexivity | exact Hnd].
Qed.

Lemma fromEntries_NoDup (l : Props) :
  List.NoDup (keys l) -> fromEntries l = l.
Proof. intros H. unfold fromEntries. apply (fold_put_NoDup l []). exact H. Qed.

(** ** The transcoder *)

Lemma encode_Obj (l : Props) :
  encode (Obj l)
  = (do entries <- mapM (fun kv => do v <- encode (snd kv); Return (fst kv, v)) l;
     Return (Obj (fromEntries entries))).
Proof. reflexivity. Qed.

Lemma decode_Obj (l : Props) : decode (Obj l) = decode_entries l [].
Proof. reflexivity. Qed.

Lemma decode_EJSON (v : Value) :
  EJSONCompatible v = true -> decode v = Return v.
Proof. destruct v; simpl; intros H; try discriminate; reflexivity. Qed.

Lemma reserved_false (k : string) :
  reserved k = false ->
  String.eqb k SET_TAG = false /\ String.eqb k MAP_TAG = false.
Proof. unfold reserved. apply orb_false_iff. Qed.












(** ** Deep equality *)

Lemma equal_Arr (l1 l2 : list Value) :
  equal (Arr l1) (Arr l2) = equal_items l1 l2.
Proof. reflexivity. Qed.

Lemma equal_JSSet (l1 l2 : list Value) :
  equal (JSSet l1) (JSSet l2)
  = Nat.eqb (length l1) (length l2)
    && forallb (fun x => isObject x || has l2 x) l1
    && match_all (fun (c : Value -> bool) y => c y)
         (object_members l1) (List.filter isObject l2).
Proof. reflexivity. Qed.

Lemma equal_JSMap (l1 l2 : list (Value * Value)) :
  equal (JSMap l1) (JSMap l2)
  = Nat.eqb (length l1) (length l2)
    && primitive_entries l2 l1
    && match_all (fun (c : (Value -> bool) * (Value -> bool)) (kv : Value * Value) =>
                    fst c (fst kv) && snd c (snd kv))
         (object_entries l1) (List.filter (fun kv => isObject (fst kv)) l2).
Proof. reflexivity. Qed.

Lemma equal_Obj (l1 l2 : Props) :
  equal (Obj l1) (Obj l2) = Nat.eqb (length l1) (length l2) && own_equal l2 l1.
Proof. reflexivity. Qed.

Lemma sameValueZero_eq (a b : Value) : sameValueZero a b = true -> a = b.
Proof.
  destruct a, b; simpl; try discriminate; intros H; try reflexivity.
  - apply Bool.eqb_prop in H. subst. reflexivity.
  - apply Z.eqb_eq in H. subst. reflexivity.
  - apply String.eqb_eq in H. subst. reflexivity.
Qed.

Lemma sameValueZero_refl (a : Value) : isObject a = false -> sameValueZero a a = true.
Proof.
  destruct a; simpl; try discriminate; intros _; try reflexivity.
  - apply Bool.eqb_reflx.
  - apply Z.eqb_refl.
  - apply String.eqb_refl.
Qed.

Lemma sameValueZero_object (a b : Value) : isObject a = true -> sameValueZero a b = false.
Proof. destruct a; simpl; try discriminate; reflexivity. Qed.

Lemma sameValueZero_sym (a b : Value) : sameValueZero a b = sameValueZero b a.
Proof.
  destruct a, b; simpl; try reflexivity.
  - destruct b, b0; reflexivity.
  - apply Z.eqb_sym.
  - apply String.eqb_sym.
Qed.

Lemma has_In (l : list Value) (x : Value) :
  isObject x = false -> In x l -> has l x = true.
Proof.
  intros Hx Hin. unfold has. apply existsb_exists. exists x.
  split; [exact Hin | apply sameValueZero_refl; exact Hx].
Qed.

(** Positional matching: when the candidates accept the values one by one,
    in order, the matching succeeds. *)
Lemma match_all_positional {A B} (accepts : A -> B -> bool) (cands : list A) (ys : list B) :
  Forall2 (fun c y => accepts c y = true) cands ys ->
  match_all accepts cands ys = true.
Proof.
  induction 1 as [|c y cands ys Hcy H IH]; simpl; [reflexivity|].
  rewrite Hcy. exact IH.
Qed.

Lemma object_members_positional (l1 l2 : list Value) :
  Forall2 (fun x y => equal x y = true /\ isObject x = isObject y) l1 l2 ->
  Forall2 (fun (c : Value -> bool) y => c y = true)
          (object_members l1) (List.filter isObject l2).
Proof.
  induction 1 as [|x y l1 l2 [Hxy Ho] H IH]; simpl; [constructor|].
  rewrite <- Ho. destruct (isObject x); [constructor; assumption | exact IH].
Qed.

Lemma object_entries_positional (l1 l2 : list (Value * Value)) :
  Forall2 (fun x y => equal (fst x) (fst y) = true /\ equal (snd x) (snd y) = true
                      /\ isObject (fst x) = isObject (fst y)) l1 l2 ->
  Forall2 (fun (c : (Value -> bool) * (Value -> bool)) (kv : Value * Value) =>
             fst c (fst kv) && snd c (snd kv) = true)
          (object_entries l1) (List.filter (fun kv => isObject (fst kv)) l2).
Proof.
  induction 1 as [|[k v] [k' v'] l1 l2 (Hk & Hv & Ho) H IH]; simpl in *; [constructor|].
  rewrite <- Ho. destruct (isObject k); [|exact IH].
  constructor; [|exact IH]. simpl. rewrite Hk, Hv. reflexivity.
Qed.

Lemma find_distinct_key (l : list (Value * Value)) (k v : Value) :
  distinct (List.map fst l) = true ->
  In (k, v) l ->
  isObject k = false ->
  List.find (fun kv => sameValueZero k (fst kv)) l = Some (k, v).
Proof.
  induction l as [|[k0 v0] l IH]; simpl; [intros _ []|].
  intros Hd Hin Hk. apply andb_true_iff in Hd as [Hh Hd].
  apply negb_true_iff in Hh.
  destruct (sameValueZero k k0) eqn:E.
  - apply sameValueZero_eq in E. subst k0.
    destruct Hin as [Hin|Hin]; [congruence|].
    exfalso. rewrite has_In in Hh; [discriminate | exact Hk |].
    change k with (fst (k, v)). apply in_map. exact Hin.
  - destruct Hin as [Hin|Hin].
    + injection Hin as -> ->. rewrite sameValueZero_refl in E by exact Hk. discriminate.
    + apply IH; assumption.
Qed.

Lemma Forall2_diag {A} (P : A -> A -> Prop) (l : list A) :
  Forall (fun x => P x x) l -> Forall2 P l l.
Proof. induction 1; constructor; assumption. Qed.

Lemma equal_items_Forall2 (l1 l2 : list Value) :
  equal_items l1 l2 = true <-> Forall2 (fun x y => equal x y = true) l1 l2.
Proof.
  revert l2. induction l1 as [|x l1 IH]; intros [|y l2]; simpl.
  - split; [constructor | reflexivity].
  - split; [discriminate | intros H; inversion H].
  - split; [discriminate | intros H; inversion H].
  - rewrite andb_true_iff, IH. split.
    + intros [? ?]. constructor; assumption.
    + intros H. inversion H; subst. split; assumption.
Qed.

(** [equal] is reflexive on the values that stand for JavaScript values. *)
Lemma equal_refl (v : Value) : valid v = true -> equal v v = true.
Proof.
  induction v as [| |b|n|s|h|ms|l IH|l IH|l IH|l IH] using Value_nested_ind;
    intros Hv; simpl in Hv.
  - reflexivity.
  - reflexivity.
  - apply Bool.eqb_reflx.
  - apply Z.eqb_refl.
  - apply String.eqb_refl.
  - apply String.eqb_refl.
  - apply Z.eqb_refl.
  - rewrite equal_Arr. apply equal_items_Forall2. apply Forall2_diag.
    apply forallb_Forall in Hv.
    rewrite List.Forall_forall in *. intros x Hx. apply IH; [exact Hx | apply Hv; exact Hx].
  - apply andb_true_iff in Hv as [Hv _]. apply forallb_Forall in Hv.
    rewrite equal_JSSet, Nat.eqb_refl. simpl.
    apply andb_true_iff. split.
    + apply forallb_forall. intros x Hx.
      destruct (isObject x) eqn:E; [reflexivity|]. simpl.
      apply has_In; assumption.
    + apply match_all_positional, object_members_positional, Forall2_diag.
      rewrite List.Forall_forall in *. intros x Hx. split; [|reflexivity].
      apply IH; [exact Hx | apply Hv; exact Hx].
  - apply andb_true_iff in Hv as [Hv Hd]. apply forallb_Forall in Hv.
    rewrite equal_JSMap, Nat.eqb_refl. simpl.
    assert (Hall : forall kv, In kv l ->
                     equal (fst kv) (fst kv) = true /\ equal (snd kv) (snd kv) = true).
    { rewrite List.Forall_forall in *. intros kv Hkv.
      specialize (IH kv Hkv). specialize (Hv kv Hkv). simpl in Hv.
      apply andb_true_iff in Hv as [? ?]. destruct IH as [IH1 IH2].
      split; [apply IH1 | apply IH2]; assumption. }
    apply andb_true_iff. split.
    + assert (Hgen : forall l0, (forall kv, In kv l0 -> In kv l) ->
                                primitive_entries l l0 = true);
        [| apply Hgen; auto].
      intros l0. induction l0 as [|[k v] l0 IHl0];
        intros Hsub; simpl; [reflexivity|].
      apply andb_true_iff. split.
      * destruct (isObject k) eqn:E; [reflexivity|].
        rewrite (find_distinct_key l k v Hd); [| apply Hsub; left; reflexivity | exact E].
        simpl. apply (Hall (k, v)). apply Hsub. left. reflexivity.
      * apply IHl0. intros kv Hkv. apply Hsub. right. exact Hkv.
    + apply match_all_positional, object_entries_positional, Forall2_diag.
      rewrite List.Forall_forall. intros kv Hkv. destruct (Hall kv Hkv) as [? ?].
      repeat split; assumption.
  - apply andb_true_iff in Hv as [Hv Hd]. apply forallb_Forall in Hv.
    apply nodup_keys_NoDup in Hd.
    rewrite equal_Obj, Nat.eqb_refl. simpl.
    assert (Hgen : forall l0, (forall kv, In kv l0 -> In kv l) ->
                              own_equal l l0 = true);
      [| apply Hgen; auto].
    intros l0. induction l0 as [|[k v] l0 IHl0];
      intros Hsub; simpl; [reflexivity|].
    apply andb_true_iff. split.
    + rewrite (get_NoDup k v l Hd); [| apply Hsub; left; reflexivity].
      rewrite List.Forall_forall in *.
      apply (IH (k, v)); [| apply (Hv (k, v))]; apply Hsub; left; reflexivity.
    + apply IHl0. intros kv Hkv. apply Hsub. right. exact Hkv.
Qed.

(** ** Round trip of the transcoder *)

Lemma has_false (l : list Value) (x y : Value) :
  has l x = false -> In y l -> sameValueZero x y = false.
Proof.
  unfold has. intros H Hy. destruct (sameValueZero x y) eqn:E; [|reflexivity].
  assert (existsb (sameValueZero x) l = true); [|congruence].
  apply existsb_exists. exists y. split; assumption.
Qed.

Lemma has_app (l1 l2 : list Value) (x : Value) :
  has (l1 ++ l2) x = has l1 x || has l2 x.
Proof. unfold has. apply existsb_app. Qed.

Lemma fold_set_add (l acc : list Value) :
  distinct l = true ->
  (forall x, In x l -> has acc x = false) ->
  fold_left set_add l acc = acc ++ l.
Proof.
  revert acc. induction l as [|x l IH]; intros acc Hd Hacc; simpl.
  - rewrite app_nil_r. reflexivity.
  - simpl in Hd. apply andb_true_iff in Hd as [Hx Hd]. apply negb_true_iff in Hx.
    unfold set_add at 2. rewrite (Hacc x) by (left; reflexivity).
    rewrite IH; [rewrite <- app_assoc; reflexivity | exact Hd |].
    intros y Hy. rewrite has_app, (Hacc y) by (right; exact Hy). simpl.
    unfold has. simpl. rewrite orb_false_r.
    rewrite sameValueZero_sym. apply (has_false l x y); assumption.
Qed.

Lemma new_Set_distinct (l : list Value) :
  distinct l = true -> new_Set l = JSSet l.
Proof.
  intros Hd. unfold new_Set. rewrite (fold_set_add l []); [reflexivity | exact Hd |].
  intros x _. reflexivity.
Qed.

Lemma map_set_fresh (k v : Value) (m : list (Value * Value)) :
  has (List.map fst m) k = false -> map_set k v m = m ++ [(k, v)].
Proof.
  induction m as [|[k' v'] m IH]; simpl; intros H; [reflexivity|].
  unfold has in H. simpl in H. apply orb_false_iff in H as [H1 H2].
  rewrite H1. rewrite IH by exact H2. reflexivity.
Qed.

Lemma fold_map_set (l acc : list (Value * Value)) :
  distinct (List.map fst l) = true ->
  (forall k, In k (List.map fst l) -> has (List.map fst acc) k = false) ->
  fold_left (fun m kv => map_set (fst kv) (snd kv) m) l acc = acc ++ l.
Proof.
  revert acc. induction l as [|[k v] l IH]; intros acc Hd Hacc; simpl.
  - rewrite app_nil_r. reflexivity.
  - simpl in Hd. apply andb_true_iff in Hd as [Hx Hd]. apply negb_true_iff in Hx.
    rewrite map_set_fresh by (apply Hacc; left; reflexivity).
    rewrite IH; [rewrite <- app_assoc; reflexivity | exact Hd |].
    intros y Hy. rewrite map_app, has_app, (Hacc y) by (right; exact Hy). simpl.
    unfold has. simpl. rewrite orb_false_r.
    rewrite sameValueZero_sym. apply (has_false (List.map fst l) k y); assumption.
Qed.

Lemma new_Map_entries (l : list (Value * Value)) :
  distinct (List.map fst l) = true ->
  new_Map (Array_from_Map l) = Return (JSMap l).
Proof.
  intros Hd. unfold new_Map.
  assert (E : mapM entry_of (Array_from_Map l) = Return l).
  { apply mapM_Forall2. unfold Array_from_Map.
    clear Hd. induction l as [|[k v] l IH]; simpl; constructor; [reflexivity | exact IH]. }
  rewrite E. simpl. rewrite (fold_map_set l []); [reflexivity | exact Hd |].
  intros k _. reflexivity.
Qed.

Lemma supported_Arr (l : list Value) :
  supported (Arr l) = true -> Forall (fun x => supported x = true) l.
Proof.
  unfold supported. simpl. rewrite !andb_true_iff, !forallb_Forall, !List.Forall_forall.
  intros [[H1 H2] H3] x Hx. rewrite H1, H2, H3 by exact Hx. reflexivity.
Qed.

Lemma supported_JSSet (l : list Value) :
  supported (JSSet l) = true ->
  Forall (fun x => supported x = true) l /\ distinct l = true.
Proof.
  unfold supported. simpl. rewrite !andb_true_iff, !forallb_Forall, !List.Forall_forall.
  intros [[[H1 Hd] H2] H3]. split; [|exact Hd].
  intros x Hx. rewrite H1, H2, H3 by exact Hx. reflexivity.
Qed.

Lemma supported_JSMap (l : list (Value * Value)) :
  supported (JSMap l) = true ->
  Forall (fun kv => supported (fst kv) = true /\ supported (snd kv) = true) l
  /\ distinct (List.map fst l) = true.
Proof.
  unfold supported. simpl. rewrite !andb_true_iff, !forallb_Forall, !List.Forall_forall.
  intros [[[H1 Hd] H2] H3]. split; [|exact Hd].
  intros x Hx. specialize (H1 x Hx). specialize (H2 x Hx). specialize (H3 x Hx).
  simpl in *. apply andb_true_iff in H1 as [-> ->], H2 as [-> ->], H3 as [-> ->].
  split; reflexivity.
Qed.

Lemma supported_Obj (l : Props) :
  supported (Obj l) = true ->
  Forall (fun kv => supported (snd kv) = true /\ reserved (fst kv) = false) l
  /\ List.NoDup (keys l).
Proof.
  unfold supported. simpl. rewrite !andb_true_iff, !forallb_Forall, !List.Forall_forall.
  intros [[[H1 Hd] H2] H3]. split; [|apply nodup_keys_NoDup; exact Hd].
  intros x Hx. specialize (H1 x Hx). specialize (H2 x Hx). specialize (H3 x Hx).
  simpl in *. apply andb_true_iff in H3 as [H3 ->]. apply negb_true_iff in H3.
  rewrite H1, H2, H3. split; reflexivity.
Qed.

Lemma roundtrips_list (l : list Value) :
  Forall roundtrips l ->
  exists ws, mapM encode l = Return ws /\ mapM decode ws = Return l.
Proof.
  induction 1 as [|x l (w & Hw & Hd) H (ws & Hws & Hds)].
  - exists []. split; reflexivity.
  - exists (w :: ws). simpl. rewrite Hw, Hd. simpl. rewrite Hws, Hds. split; reflexivity.
Qed.

Lemma roundtrips_entries (l : list (Value * Value)) :
  Forall (fun kv => roundtrips (fst kv) /\ roundtrips (snd kv)) l ->
  exists ws,
    mapM (fun kv => do k <- encode (fst kv); do v <- encode (snd kv);
                    Return (Arr [k; v])) l = Return ws
    /\ mapM decode ws = Return (Array_from_Map l).
Proof.
  induction 1 as [|[k v] l [(wk & Hwk & Hdk) (wv & Hwv & Hdv)] H (ws & Hws & Hds)].
  - exists []. split; reflexivity.
  - exists (Arr [wk; wv] :: ws). simpl in *.
    rewrite Hwk, Hwv. simpl. rewrite Hws. simpl.
    rewrite Hdk, Hdv. simpl. rewrite Hds. split; reflexivity.
Qed.

Lemma roundtrips_props (l : Props) :
  Forall (fun kv => roundtrips (snd kv) /\ reserved (fst kv) = false) l ->
  exists es,
    mapM (fun kv => do v <- encode (snd kv); Return (fst kv, v)) l = Return es
    /\ keys es = keys l
    /\ forall entries, decode_entries es entries = Return (Obj (fromEntries (entries ++ l))).
Proof.
  induction 1 as [|[k v] l [(w & Hw & Hd) Hk] H (es & Hes & Hkeys & Hdec)].
  - exists []. repeat split. intros entries. rewrite app_nil_r. reflexivity.
  - exists ((k, w) :: es). simpl in *. rewrite Hw. simpl. rewrite Hes. simpl.
    split; [reflexivity|]. split; [f_equal; exact Hkeys|].
    intros entries. apply reserved_false in Hk as [-> ->].
    destruct (EJSONCompatible w) eqn:E.
    + rewrite (decode_EJSON w E) in Hd. injection Hd as ->.
      rewrite Hdec, <- app_assoc. reflexivity.
    + rewrite Hd. simpl. rewrite Hdec, <- app_assoc. reflexivity.
Qed.

Lemma supported_roundtrips (v : Value) : supported v = true -> roundtrips v.
Proof.
  induction v as [| |b|n|s|h|ms|l IH|l IH|l IH|l IH] using Value_nested_ind;
    intros Hs; try (eexists; split; reflexivity).
  - discriminate Hs.
  - apply supported_Arr in Hs.
    destruct (roundtrips_list l) as (ws & Hws & Hds).
    { rewrite List.Forall_forall in *. intros x Hx. apply IH; [exact Hx | apply Hs; exact Hx]. }
    exists (Arr ws). simpl. rewrite Hws, Hds. split; reflexivity.
  - apply supported_JSSet in Hs as [Hs Hd].
    destruct (roundtrips_list l) as (ws & Hws & Hds).
    { rewrite List.Forall_forall in *. intros x Hx. apply IH; [exact Hx | apply Hs; exact Hx]. }
    exists (Obj [(SET_TAG, Arr ws)]). simpl. rewrite Hws, Hds. simpl.
    rewrite new_Set_distinct by exact Hd. split; reflexivity.
  - apply supported_JSMap in Hs as [Hs Hd].
    destruct (roundtrips_entries l) as (ws & Hws & Hds).
    { rewrite List.Forall_forall in *. intros x Hx.
      destruct (IH x Hx) as [IH1 IH2]. destruct (Hs x Hx) as [H1 H2].
      split; [apply IH1 | apply IH2]; assumption. }
    exists (Obj [(MAP_TAG, Arr ws)]). simpl. rewrite Hws. simpl. rewrite Hds. simpl.
    rewrite new_Map_entries by exact Hd. split; reflexivity.
  - apply supported_Obj in Hs as [Hs Hnd].
    destruct (roundtrips_props l) as (es & Hes & Hkeys & Hdec).
    { rewrite List.Forall_forall in *. intros x Hx. destruct (Hs x Hx) as [H1 H2].
      split; [apply IH; assumption | exact H2]. }
    exists (Obj (fromEntries es)). split.
    { rewrite encode_Obj, Hes. reflexivity. }
    rewrite fromEntries_NoDup by (rewrite Hkeys; exact Hnd).
    rewrite decode_Obj, Hdec. simpl. rewrite fromEntries_NoDup by exact Hnd. reflexivity.
Qed.

(** C2, as the code has it, in the revision that exports [changes]: for
    every value [v] built from [null], booleans, integers, strings, object
    ids, dates, arrays, sets, maps and plain objects that holds no
    [undefined] at any depth and none of whose plain objects uses a
    reserved tag key, [encode v] returns and [decode] of it returns a value
    deep-equal to [v]. *)
Theorem encode_decode_roundtrip (v : Value) :
  supported v = true ->
  exists w r, encode v = Return w /\ decode w = Return r /\ equal r v = true.
Proof.
  intros Hs. destruct (supported_roundtrips v Hs) as (w & Hw & Hd).
  exists w, v. repeat split; [exact Hw | exact Hd |].
  apply equal_refl. unfold supported in Hs.
  apply andb_true_iff in Hs as [Hs _]. apply andb_true_iff in Hs as [Hs _]. exact Hs.
Qed.

Definition roundtrip_sample : Value :=
  Obj [("_id", ObjectId "65f0");
       ("when", Date 1700000000123);
       ("tags", JSSet [JSMap [(Str "a", Num 1)]; JSMap []; Num 3]);
       ("index", JSMap [(Str "k", JSSet [Num 1; Num 2]); (Obj [("x", Null)], JSSet [])]);
       ("deep", Obj [("a", Obj [("b", Obj [("c", Arr [Obj []; Arr []])])])])].

Lemma encode_decode_roundtrip_witness :
  exists w r, encode roundtrip_sample = Return w /\ decode w = Return r
              /\ equal r roundtrip_sample = true.
Proof. apply (encode_decode_roundtrip roundtrip_sample). vm_compute. reflexivity. Defined.

(** C2 as stated fails.  In the revision that exports [changes], a value
    that holds [undefined] is not encoded at all: [encode] throws.  In the
    older revision a set under the key [_id] comes back as its tagged
    object, since [decode] passes the value of [_id] through; and a date
    comes back as the date [new Date] reads from its rendering, so of two
    different dates that [toLocaleString] renders alike (it shows no
    milliseconds) at most one comes back as it was. *)
Lemma encode_decode_roundtrip_counterexample :
  ~ (forall v : Value,
       valid v = true -> untagged v = true ->
       exists w r, encode v = Return w /\ decode w = Return r /\ equal r v = true)
  /\ encode Undefined = Throw AssertionError
  /\ encode (Obj [("name", Str "x"); ("nick", Undefined)]) = Throw AssertionError
  /\ (forall toLocaleString new_Date decoded_ObjectId,
        Older.decode new_Date decoded_ObjectId
          (Older.encode toLocaleString (Obj [("_id", JSSet [Num 1])]))
        = Return (Obj [("_id", Obj [(SET_TAG, Arr [Num 1])])])
        /\ equal (Obj [("_id", Obj [(SET_TAG, Arr [Num 1])])])
                 (Obj [("_id", JSSet [Num 1])]) = false)
  /\ (forall toLocaleString new_Date decoded_ObjectId (ms ms' : Z),
        toLocaleString ms = toLocaleString ms' -> ms <> ms' ->
        ~ (Older.decode new_Date decoded_ObjectId
             (Older.encode toLocaleString (Date ms)) = Return (Date ms)
           /\ Older.decode new_Date decoded_ObjectId
                (Older.encode toLocaleString (Date ms')) = Return (Date ms'))).
Proof.
  split; [|split; [reflexivity | split; [reflexivity | split]]].
  - intros H. destruct (H Undefined eq_refl eq_refl) as (w & r & Hw & _).
    discriminate Hw.
  - intros tl nd dO. split; reflexivity.
  - intros tl nd dO ms ms' Hsame Hne [H1 H2]. cbn in H1, H2.
    rewrite Hsame in H1. rewrite H1 in H2. injection H2 as H2. exact (Hne H2).
Qed.

(** ** The differencer *)

Lemma changes_Undefined (prefix : string) (a : Value) :
  changes prefix a Undefined
  = (do _ <- assert_notEmpty prefix;
     Return (assign_unset prefix (Str "") new_UpdateFilter)).
Proof. reflexivity. Qed.

Lemma changes_equal (prefix : string) (a b : Value) :
  b <> Undefined ->
  compared_whole a b = true ->
  equal a b = true ->
  changes prefix a b = Return new_UpdateFilter.
Proof.
  unfold compared_whole. intros Hb Hc He.
  destruct b; try congruence; cbn -[equal]; rewrite ?Hc, He; try reflexivity.
  all: cbn -[equal] in Hc; rewrite ?Hc; reflexivity.
Qed.

Lemma changes_Obj (prefix : string) (a : Value) (lb : Props) :
  EJSONCompatible a = false ->
  typeof a = "object" ->
  RecordLike a = true ->
  changes prefix a (Obj lb)
  = changes_entries prefix a lb
      (unset_removed prefix (keys (own a)) (keys lb) new_UpdateFilter).
Proof.
  intros H1 H2 H3. cbn -[equal]. rewrite H1, H2, H3. reflexivity.
Qed.

Lemma unset_removed_included (prefix : string) (aKeys bKeys : list string)
    (d : UpdateFilter) :
  (forall k, In k aKeys -> In k bKeys) ->
  unset_removed prefix aKeys bKeys d = d.
Proof.
  unfold unset_removed. revert d. induction aKeys as [|k aKeys IH]; intros d H; simpl.
  - reflexivity.
  - assert (E : includes k bKeys = true) by (apply includes_In, H; left; reflexivity).
    rewrite E. apply IH. intros k' Hk'. apply H. right. exact Hk'.
Qed.

Lemma merge_empty (d : UpdateFilter) : merge new_UpdateFilter d = d.
Proof. reflexivity. Qed.

Lemma member_NoDup (k : string) (v : Value) (l : Props) :
  List.NoDup (keys l) -> In (k, v) l -> member k (Obj l) = v.
Proof.
  intros Hnd Hin. unfold member, prop. simpl.
  rewrite (get_NoDup k v l Hnd Hin). reflexivity.
Qed.

(** A value without [undefined] properties, diffed against itself at any
    prefix, gives no operation: the walk over its properties merges empty
    change sets only. *)
Lemma changes_unchanged (v : Value) :
  valid v = true ->
  present v = true ->
  forall prefix, changes prefix v v = Return new_UpdateFilter.
Proof.
  intros Hv0 Hp0 prefix. revert prefix Hv0 Hp0.
  induction v as [| |b|n|s|h|ms|l IH|l IH|l IH|l IH] using Value_nested_ind;
    intros prefix Hv Hp;
    try (apply changes_equal; [discriminate | reflexivity | apply equal_refl; exact Hv]).
  - discriminate Hp.
  - rewrite changes_Obj by reflexivity. cbn [own].
    rewrite unset_removed_included by auto.
    simpl in Hv, Hp. apply andb_true_iff in Hv as [Hv Hnd].
    apply nodup_keys_NoDup in Hnd.
    apply forallb_Forall in Hv, Hp.
    assert (Hgen : forall l0, (forall kv, In kv l0 -> In kv l) ->
                              changes_entries prefix (Obj l) l0 new_UpdateFilter
                              = Return new_UpdateFilter);
      [| apply Hgen; auto].
    intros l0. induction l0 as [|[k v] l0 IHl0]; intros Hsub; [reflexivity|].
    assert (Hin : In (k, v) l) by (apply Hsub; left; reflexivity).
    cbn [changes_entries]. rewrite (member_NoDup k v l Hnd Hin).
    rewrite List.Forall_forall in *.
    pose proof (IH (k, v) Hin (path prefix k) (Hv (k, v) Hin) (Hp (k, v) Hin)) as E.
    cbn [snd] in E. rewrite E. cbn [bind]. rewrite merge_empty. apply IHl0.
    intros kv Hkv. apply Hsub. right. exact Hkv.
Qed.

(** C7, as the code has it: diffing a value against itself gives the empty
    change set, provided the value is not [undefined] and no property
    reached through plain objects holds [undefined] (for which the first
    test of [changes] emits an [$unset]). *)
Theorem changes_same (prefix : string) (v : Value) :
  valid v = true ->
  present v = true ->
  changes prefix v v = Return new_UpdateFilter.
Proof.
  intros Hv Hp. exact (changes_unchanged v Hv Hp prefix).
Qed.

Lemma changes_same_witness :
  changes "" roundtrip_sample roundtrip_sample = Return new_UpdateFilter.
Proof. apply (changes_same "" roundtrip_sample); vm_compute; reflexivity. Defined.

(** C7 as stated fails: [undefined] diffed against itself is an [$unset] of
    the path, and so is an [undefined] property of a document. *)
Lemma changes_same_counterexample :
  ~ (forall (prefix : string) (v : Value),
       valid v = true -> changes prefix v v = Return new_UpdateFilter)
  /\ op_unset <$> (match changes "" (Obj [("x", Undefined)]) (Obj [("x", Undefined)]) with
                   | Return d => Some d
                   | Throw _ => None
                   end) = Some {[ "x" := Str "" ]}
  /\ changes "x" Undefined Undefined
     = Return (assign_unset "x" (Str "") new_UpdateFilter).
Proof.
  split; [|split; reflexivity].
  intros H. specialize (H "x" Undefined eq_refl).
  apply (f_equal (fun r => match r with
                           | Return d => op_unset d !! "x"
                           | Throw _ => None
                           end)) in H.
  vm_compute in H. discriminate H.
Qed.

(** ** The cursor: pagination *)

Lemma iterate_skip_pending (fuel : nat) (c : FindCursor) (results : list Value)
    (w : World) :
  skipped c < _skip c ->
  Cursor.iterate fuel c results w = Running.
Proof.
  intros H. revert results. induction fuel as [|fuel IH]; intros results; simpl.
  - reflexivity.
  - apply Nat.ltb_lt in H. rewrite H. apply IH.
Qed.

(** C3 on the code: over the ten documents, six of which match,
    [find(predicate).skip(2).limit(3)] yields the first three matching
    documents, where the claim has the third to the fifth.  The cursor built
    with both options at once yields these same three through [next], and
    its iteration never ends. *)
Theorem skip_limit_yields_first_matches :
  List.filter six_match ten_documents
  = [numbered 1; numbered 3; numbered 5; numbered 7; numbered 9; numbered 10]
  /\ returned
       ((let* c := find sample_collection (Predicate six_match) None in
         let* c := Cursor.skip 2 c in
         let* c := Cursor.limit 3 c in
         let* r := Cursor.toArray 10 c in
         ret (_skip c, _limit c, r)) empty_world)
     = Finished (0, Some 3, Some [numbered 1; numbered 3; numbered 5])
  /\ returned
       ((let* o := alloc_options {| o_limit := Some 3; o_skip := Some 2;
                                    o_populate := None; o_sort := None;
                                    o_hint := None |} in
         let* c := find sample_collection (Predicate six_match) (Some o) in
         let* r := next_n 4 c in
         ret (_skip c, _limit c, fst r)) empty_world)
     = Finished (2, Some 3,
                 [Yield (numbered 1); Yield (numbered 3); Yield (numbered 5); Done])
  /\ (forall fuel,
        returned
          ((let* o := alloc_options {| o_limit := Some 3; o_skip := Some 2;
                                       o_populate := None; o_sort := None;
                                       o_hint := None |} in
            let* c := find sample_collection (Predicate six_match) (Some o) in
            Cursor.toArray fuel c) empty_world)
        = Running).
Proof.
  split; [reflexivity|]. split; [vm_compute; reflexivity|].
  split; [vm_compute; reflexivity|].
  intros fuel. cbn. unfold Cursor.toArray, mbind.
  rewrite iterate_skip_pending; [reflexivity | cbn; lia].
Qed.

(** ** The cursor: [clone] *)

(** C5 on the code: a cursor built from an options object keeps the limit
    and the skip of that object for itself, and the constructor then
    deletes them from the object it shares with its clones; the clone has
    the search, the sort, the hint and the transform of the original, its
    own driver cursor and counters at zero, but no limit ([Infinity]), no
    skip and nothing to populate. *)
Theorem clone_forgets_limit_and_skip (coll : MongoCollection) (p : Value -> bool)
    (o : FindOptions) (tr : option (Value -> Value)) (w : World) :
  exists c c' w',
    (let* r := alloc_options o in
     let* c := Cursor.new coll (Predicate p) (Some r) tr in
     let* c' := Cursor.clone c in
     ret (c, c')) w = Finished ((c, c'), w')
    /\ _limit c = o_limit o
    /\ _skip c = default 0 (o_skip o)
    /\ _limit c' = None
    /\ _skip c' = 0
    /\ _populate c' = []
    /\ skipped c' = 0 /\ yielded c' = 0
    /\ cursor c' <> cursor c
    /\ transform c' = transform c
    /\ (read_options (options c') w' ≫= o_sort) = o_sort o
    /\ (read_options (options c') w' ≫= o_hint) = o_hint o.
Proof.
  unfold mbind, alloc_options, Cursor.clone, Cursor.new, mbind, lift,
    read_options, delete_paging, driver_find, ret.
  cbn. rewrite list_lookup_middle by reflexivity. cbn.
  rewrite list_lookup_insert_eq by (rewrite length_app; simpl; lia). cbn.
  rewrite list_lookup_insert_eq by (rewrite length_insert, length_app; simpl; lia).
  cbn. do 3 eexists. split; [reflexivity|]. cbn.
  rewrite list_lookup_insert_eq
    by (rewrite length_insert, length_app; simpl; lia).
  repeat split. rewrite length_app. simpl. lia.
Qed.

(** The same on an instance: limit 3 and skip 2 are lost by the clone. *)
Lemma clone_forgets_limit_and_skip_instance :
  returned
    ((let* o := alloc_options {| o_limit := Some 3; o_skip := Some 2;
                                 o_populate := None; o_sort := None;
                                 o_hint := None |} in
      let* c := find sample_collection (Predicate six_match) (Some o) in
      let* c' := Cursor.clone c in
      ret (_limit c, _skip c, _limit c', _skip c')) empty_world)
  = Finished (Some 3, 2, None, 0).
Proof. reflexivity. Qed.

(** ** The cursor: [hasNext] *)

Lemma mbind_Finished {A B} (m : M A) (k : A -> M B) (w w' : World) (b : B) :
  mbind m k w = Finished (b, w') ->
  exists a w1, m w = Finished (a, w1) /\ k a w1 = Finished (b, w').
Proof.
  unfold mbind. destruct (m w) as [[a w1]|e|]; try discriminate. eauto.
Qed.

Lemma similar_refl {A} (h : nat) (o : Outcome (A * World)) : similar h o o.
Proof. destruct o as [[a w]|e|]; simpl; auto. split; reflexivity. Qed.

Lemma similar_mbind {A B} (h : nat) (m1 m2 : M A) (k1 k2 : A -> M B) (w1 w2 : World) :
  similar h (m1 w1) (m2 w2) ->
  (forall a w1' w2', same_cell h w1' w2' -> similar h (k1 a w1') (k2 a w2')) ->
  similar h (mbind m1 k1 w1) (mbind m2 k2 w2).
Proof.
  unfold mbind. intros Hm Hk.
  destruct (m1 w1) as [[a1 w1']|e1|], (m2 w2) as [[a2 w2']|e2|]; simpl in *;
    try contradiction; auto.
  destruct Hm as [<- Hc]. apply Hk. exact Hc.
Qed.

Lemma similar_returned {A} (h : nat) (o1 o2 : Outcome (A * World)) :
  similar h o1 o2 -> returned o1 = returned o2.
Proof.
  destruct o1 as [[a1 w1]|e1|], o2 as [[a2 w2]|e2|]; simpl; try contradiction; auto.
  - intros [<- _]. reflexivity.
  - intros <-. reflexivity.
Qed.

Lemma driver_next_similar (h : nat) (w1 w2 : World) :
  same_cell h w1 w2 -> similar h (driver_next h w1) (driver_next h w2).
Proof.
  unfold same_cell, driver_next. intros E. rewrite <- E.
  destruct (heap_cursors w1 !! h) as [d|] eqn:E1; [|split; [reflexivity | congruence]].
  symmetry in E.
  destruct (d_closed d); [split; [reflexivity | congruence]|].
  pose proof (lookup_lt_Some _ _ _ E1) as L1.
  pose proof (lookup_lt_Some _ _ _ E) as L2.
  destruct (d_docs d); (split; [reflexivity|]); unfold same_cell; cbn;
    rewrite !list_lookup_insert_eq by assumption; reflexivity.
Qed.

Lemma driver_close_similar (h : nat) (w1 w2 : World) :
  same_cell h w1 w2 -> similar h (driver_close h w1) (driver_close h w2).
Proof.
  unfold same_cell, driver_close. intros E. rewrite <- E.
  destruct (heap_cursors w1 !! h) as [d|] eqn:E1; [|split; [reflexivity | congruence]].
  symmetry in E.
  pose proof (lookup_lt_Some _ _ _ E1) as L1.
  pose proof (lookup_lt_Some _ _ _ E) as L2.
  split; [reflexivity|]. unfold same_cell; cbn.
  rewrite !list_lookup_insert_eq by assumption; reflexivity.
Qed.

Lemma similar_ret {A} (h : nat) (a : A) (w1 w2 : World) :
  same_cell h w1 w2 -> similar h (ret a w1) (ret a w2).
Proof. intros H. split; [reflexivity | exact H]. Qed.

Lemma similar_lift {A} (h : nat) (r : result A) (w1 w2 : World) :
  same_cell h w1 w2 -> similar h (lift r w1) (lift r w2).
Proof. intros H. destruct r; simpl; auto. Qed.

Lemma accept_similar (c : FindCursor) (value : Value)
    (again : FindCursor -> M (IteratorResult * FindCursor)) (w1 w2 : World) :
  (forall c' w1' w2', cursor c' = cursor c -> same_cell (cursor c) w1' w2' ->
                 similar (cursor c) (again c' w1') (again c' w2')) ->
  same_cell (cursor c) w1 w2 ->
  similar (cursor c) (Cursor.accept c value again w1) (Cursor.accept c value again w2).
Proof.
  intros Hagain Hc. unfold Cursor.accept.
  destruct (match transform c with Some tr => tr _ | None => _ end);
    try (destruct (Nat.ltb (skipped c) (_skip c));
         [apply Hagain; [reflexivity | exact Hc] | apply similar_ret; exact Hc]).
  apply similar_ret; exact Hc.
Qed.

Lemma next_loop_similar (fuel : nat) (c : FindCursor) (next : option Value)
    (w1 w2 : World) :
  same_cell (cursor c) w1 w2 ->
  similar (cursor c) (Cursor.next_loop fuel c next w1) (Cursor.next_loop fuel c next w2).
Proof.
  revert c next w1 w2. induction fuel as [|fuel IH]; intros c next w1 w2 Hc; simpl.
  - exact I.
  - assert (Hclose : similar (cursor c)
                       ((let* _ := Cursor.close c in ret (Done, c)) w1)
                       ((let* _ := Cursor.close c in ret (Done, c)) w2)).
    { apply similar_mbind; [apply driver_close_similar; exact Hc|].
      intros; apply similar_ret; assumption. }
    destruct next as [doc|]; [|exact Hclose].
    destruct (Cursor.limit_reached c); [exact Hclose|].
    apply similar_mbind; [apply similar_lift; exact Hc|].
    intros data w1' w2' Hc'.
    assert (Hacc : similar (cursor c)
              (Cursor.accept c (model (collection c) data)
                 (fun c' => Cursor.next_loop fuel c' (Some doc)) w1')
              (Cursor.accept c (model (collection c) data)
                 (fun c' => Cursor.next_loop fuel c' (Some doc)) w2')).
    { apply accept_similar; [|exact Hc'].
      intros c' u1 u2 Ec Hu. rewrite <- Ec. apply IH. rewrite Ec. exact Hu. }
    destruct (search c) as [|d|p]; try exact Hacc.
    destruct (p _); [exact Hacc|].
    apply similar_mbind; [apply driver_next_similar; exact Hc'|].
    intros next' u1 u2 Hu. apply IH. exact Hu.
Qed.

Lemma next_fuel_same (c : FindCursor) (w1 w2 : World) :
  same_cell (cursor c) w1 w2 -> Cursor.next_fuel c w1 = Cursor.next_fuel c w2.
Proof. unfold same_cell, Cursor.next_fuel. intros ->. reflexivity. Qed.

Lemma next_similar (c : FindCursor) (w1 w2 : World) :
  same_cell (cursor c) w1 w2 ->
  similar (cursor c) (Cursor.next c w1) (Cursor.next c w2).
Proof.
  intros Hc. unfold Cursor.next. rewrite (next_fuel_same c w1 w2 Hc).
  apply similar_mbind; [apply driver_next_similar; exact Hc|].
  intros first u1 u2 Hu. apply next_loop_similar. exact Hu.
Qed.

(** [next] hands back the cursor it was called on, with new counters. *)
Lemma accept_cursor (c : FindCursor) (value : Value)
    (again : FindCursor -> M (IteratorResult * FindCursor)) (w w' : World)
    (r : IteratorResult) (c' : FindCursor) :
  (forall c0 u u' r0 c1, cursor c0 = cursor c ->
       again c0 u = Finished ((r0, c1), u') -> cursor c1 = cursor c) ->
  Cursor.accept c value again w = Finished ((r, c'), w') ->
  cursor c' = cursor c.
Proof.
  intros Hagain. unfold Cursor.accept.
  destruct (match transform c with Some tr => tr _ | None => _ end);
    try (destruct (Nat.ltb (skipped c) (_skip c));
         [intros H; eapply Hagain; [|exact H]; reflexivity
         | intros [= <- <- <-]; reflexivity]).
  intros [= <- <- <-]; reflexivity.
Qed.

Lemma next_loop_cursor (fuel : nat) (c : FindCursor) (next : option Value)
    (w w' : World) (r : IteratorResult) (c' : FindCursor) :
  Cursor.next_loop fuel c next w = Finished ((r, c'), w') -> cursor c' = cursor c.
Proof.
  revert c next w w' r c'.
  induction fuel as [|fuel IH]; intros c next w w' r c'; simpl; [discriminate|].
  assert (Hclose : (let* _ := Cursor.close c in ret (Done, c)) w = Finished ((r, c'), w')
                   -> cursor c' = cursor c).
  { intros H. apply mbind_Finished in H as (? & ? & _ & H).
    injection H as <- <- <-. reflexivity. }
  destruct next as [doc|]; [|exact Hclose].
  destruct (Cursor.limit_reached c); [exact Hclose|].
  intros H. apply mbind_Finished in H as (data & w1 & _ & H).
  assert (Hacc : Cursor.accept c (model (collection c) data)
                   (fun c' => Cursor.next_loop fuel c' (Some doc)) w1
                 = Finished ((r, c'), w') -> cursor c' = cursor c).
  { apply accept_cursor. intros c0 u u' r0 c1 E H0. rewrite <- E. eapply IH. exact H0. }
  destruct (search c) as [|d|p]; try (apply Hacc; exact H).
  destruct (p _); [apply Hacc; exact H|].
  apply mbind_Finished in H as (next' & w2 & _ & H). eapply IH. exact H.
Qed.

Lemma next_cursor (c : FindCursor) (w w' : World) (r : IteratorResult) (c' : FindCursor) :
  Cursor.next c w = Finished ((r, c'), w') -> cursor c' = cursor c.
Proof.
  unfold Cursor.next. intros H. apply mbind_Finished in H as (first & w1 & _ & H).
  eapply next_loop_cursor. exact H.
Qed.

Lemma next_n_similar (n : nat) (c : FindCursor) (w1 w2 : World) :
  same_cell (cursor c) w1 w2 ->
  similar (cursor c) (next_n n c w1) (next_n n c w2).
Proof.
  revert c w1 w2. induction n as [|n IH]; intros c w1 w2 Hc; simpl.
  - apply similar_ret. exact Hc.
  - pose proof (next_similar c w1 w2 Hc) as Hn. unfold mbind at 1 3.
    destruct (Cursor.next c w1) as [[[r c1] u1]|e1|] eqn:E1,
             (Cursor.next c w2) as [[[r2 c2] u2]|e2|] eqn:E2;
      simpl in Hn; try contradiction; auto.
    destruct Hn as [[= <- <-] Hu]. cbn [snd fst].
    pose proof (next_cursor _ _ _ _ _ E1) as Ec.
    rewrite <- Ec. apply similar_mbind.
    + apply IH. rewrite Ec. exact Hu.
    + intros rs v1 v2 Hv. apply similar_ret. exact Hv.
Qed.


Lemma frames_refl (h : nat) (w : World) : frames h w w.
Proof. split; [lia | auto]. Qed.

Lemma frames_trans (h : nat) (w1 w2 w3 : World) :
  frames h w1 w2 -> frames h w2 w3 -> frames h w1 w3.
Proof.
  intros [L1 F1] [L2 F2]. split; [lia|].
  intros h0 Hne Hlt. rewrite F2 by (auto; lia). apply F1; assumption.
Qed.

Lemma driver_next_frames (h : nat) (w w' : World) (r : option Value) :
  driver_next h w = Finished (r, w') -> frames h w w'.
Proof.
  unfold driver_next.
  destruct (heap_cursors w !! h) as [d|]; [|intros [= <- <-]; apply frames_refl].
  destruct (d_closed d); [intros [= <- <-]; apply frames_refl|].
  destruct (d_docs d); intros [= <- <-]; (split; cbn; [rewrite length_insert; lia|]);
    intros h0 Hne _; apply list_lookup_insert_ne; congruence.
Qed.

Lemma driver_close_frames (h : nat) (w w' : World) (r : unit) :
  driver_close h w = Finished (r, w') -> frames h w w'.
Proof.
  unfold driver_close.
  destruct (heap_cursors w !! h) as [d|]; [|intros [= <- <-]; apply frames_refl].
  intros [= <- <-]. split; cbn; [rewrite length_insert; lia|].
  intros h0 Hne _; apply list_lookup_insert_ne; congruence.
Qed.

Lemma next_loop_frames (fuel : nat) (c : FindCursor) (next : option Value)
    (w w' : World) (r : IteratorResult * FindCursor) :
  Cursor.next_loop fuel c next w = Finished (r, w') -> frames (cursor c) w w'.
Proof.
  revert c next w w' r.
  induction fuel as [|fuel IH]; intros c next w w' r; simpl; [discriminate|].
  assert (Hclose : (let* _ := Cursor.close c in ret (Done, c)) w = Finished (r, w')
                   -> frames (cursor c) w w').
  { intros H. apply mbind_Finished in H as (? & w1 & H1 & H).
    injection H as <- <-. eapply driver_close_frames. exact H1. }
  destruct next as [doc|]; [|exact Hclose].
  destruct (Cursor.limit_reached c); [exact Hclose|].
  intros H. apply mbind_Finished in H as (data & w1 & H1 & H).
  assert (w1 = w) as -> by (destruct (decode doc); simpl in H1; congruence).
  assert (Hacc : Cursor.accept c (model (collection c) data)
                   (fun c' => Cursor.next_loop fuel c' (Some doc)) w
                 = Finished (r, w') -> frames (cursor c) w w').
  { unfold Cursor.accept.
    destruct (match transform c with Some tr => tr _ | None => _ end);
      try (destruct (Nat.ltb (skipped c) (_skip c));
           [intros H0; apply IH in H0; exact H0
           | intros [= <- <-]; apply frames_refl]).
    intros [= <- <-]; apply frames_refl. }
  destruct (search c) as [|d|p]; try (apply Hacc; exact H).
  destruct (p _); [apply Hacc; exact H|].
  apply mbind_Finished in H as (next' & w2 & H2 & H).
  eapply frames_trans; [eapply driver_next_frames; exact H2 | eapply IH; exact H].
Qed.

Lemma next_frames (c : FindCursor) (w w' : World) (r : IteratorResult * FindCursor) :
  Cursor.next c w = Finished (r, w') -> frames (cursor c) w w'.
Proof.
  unfold Cursor.next. intros H. apply mbind_Finished in H as (first & w1 & H1 & H).
  eapply frames_trans; [eapply driver_next_frames; exact H1 | eapply next_loop_frames; exact H].
Qed.

Lemma new_spec (coll : MongoCollection) (s : Search) (opts : option nat)
    (tr : option (Value -> Value)) (w w' : World) (c : FindCursor) :
  Cursor.new coll s opts tr w = Finished (c, w') ->
  cursor c = length (heap_cursors w)
  /\ frames (cursor c) w w'
  /\ skipped c = 0 /\ yielded c = 0
  /\ _skip c = default 0 (read_options opts w ≫= o_skip).
Proof.
  unfold Cursor.new. intros H. apply mbind_Finished in H as (q & w1 & H1 & H).
  assert (w1 = w) as ->.
  { destruct (match s with Filter data => encode data | _ => Return (Obj []) end);
      simpl in H1; congruence. }
  clear H1. apply mbind_Finished in H as ([] & w1 & H1 & H).
  apply mbind_Finished in H as (h & w2 & H2 & H).
  injection H as <- <-. cbn.
  assert (Hc : heap_cursors w1 = heap_cursors w).
  { unfold delete_paging in H1. destruct opts as [i|]; [|congruence].
    destruct (heap_options w !! i); injection H1 as <-; reflexivity. }
  unfold driver_find in H2. injection H2 as <- <-. rewrite Hc.
  repeat split; cbn; rewrite ?Hc.
  - rewrite length_app. lia.
  - intros h0 _ Hlt. apply lookup_app_l. exact Hlt.
Qed.

Lemma skip_spec (n : nat) (c : FindCursor) (w w' : World) (probe : FindCursor) :
  Cursor.skip n c w = Finished (probe, w') ->
  cursor probe = length (heap_cursors w)
  /\ frames (cursor probe) w w'
  /\ skipped probe = 0 /\ yielded probe = 0
  /\ _skip probe = n.
Proof.
  unfold Cursor.skip. intros H. apply mbind_Finished in H as (r & w1 & H1 & H).
  unfold alloc_options in H1. injection H1 as <- <-.
  apply new_spec in H as (H1 & H2 & H3 & H4 & H5). cbn in *.
  rewrite list_lookup_middle in H5 by reflexivity.
  split; [exact H1|]. split; [exact H2|]. split; [exact H3|]. split; [exact H4|].
  exact H5.
Qed.


Lemma driver_next_total (h : nat) (w : World) :
  exists r w', driver_next h w = Finished (r, w')
               /\ docs_left h w' + match r with Some _ => 1 | None => 0 end <= docs_left h w.
Proof.
  unfold driver_next, docs_left.
  destruct (heap_cursors w !! h) as [d|] eqn:E.
  - pose proof (lookup_lt_Some _ _ _ E) as L.
    destruct (d_closed d).
    + do 2 eexists. split; [reflexivity|]. rewrite E. lia.
    + destruct (d_docs d) eqn:Ed; do 2 eexists; (split; [reflexivity|]); cbn;
        rewrite list_lookup_insert_eq by exact L; cbn; lia.
  - do 2 eexists. split; [reflexivity|]. rewrite E. lia.
Qed.

Lemma close_total (c : FindCursor) (w : World) :
  exists w', Cursor.close c w = Finished (tt, w').
Proof.
  unfold Cursor.close, driver_close.
  destruct (heap_cursors w !! cursor c); eexists; reflexivity.
Qed.

Lemma next_loop_not_running (fuel : nat) (c : FindCursor) (next : option Value)
    (w : World) :
  docs_left (cursor c) w + (_skip c - skipped c) + match next with Some _ => 2 | None => 1 end <= fuel ->
  Cursor.next_loop fuel c next w <> Running.
Proof.
  revert c next w. induction fuel as [|fuel IH]; intros c next w Hf.
  - destruct next; lia.
  - simpl.
    assert (Hclose : (let* _ := Cursor.close c in ret (Done, c)) w <> Running).
    { unfold mbind. destruct (close_total c w) as [w' ->]. discriminate. }
    destruct next as [doc|]; [|exact Hclose].
    destruct (Cursor.limit_reached c); [exact Hclose|].
    unfold mbind at 1. destruct (decode doc) as [data|e]; simpl; [|discriminate].
    assert (Hacc : Cursor.accept c (model (collection c) data)
                     (fun c' => Cursor.next_loop fuel c' (Some doc)) w <> Running).
    { unfold Cursor.accept.
      destruct (match transform c with Some tr => tr _ | None => _ end);
        try (destruct (Nat.ltb (skipped c) (_skip c)) eqn:El;
             [apply Nat.ltb_lt in El; apply IH; cbn; lia | discriminate]).
      discriminate. }
    destruct (search c) as [|d|p]; try exact Hacc.
    destruct (p _); [exact Hacc|].
    unfold mbind. destruct (driver_next_total (cursor c) w) as (r & w' & -> & Hd).
    apply IH. destruct r; lia.
Qed.

Lemma next_not_running (c : FindCursor) (w : World) : Cursor.next c w <> Running.
Proof.
  unfold Cursor.next, mbind.
  destruct (driver_next_total (cursor c) w) as (r & w' & -> & Hd).
  apply next_loop_not_running. unfold Cursor.next_fuel.
  fold (docs_left (cursor c) w). destruct r; lia.
Qed.


Lemma new_not_running (coll : MongoCollection) (s : Search) (opts : option nat)
    (tr : option (Value -> Value)) (w : World) :
  Cursor.new coll s opts tr w <> Running.
Proof.
  unfold Cursor.new, mbind, lift.
  destruct (match s with Filter data => encode data | _ => Return (Obj []) end);
    [|discriminate].
  unfold delete_paging.
  destruct opts as [i|]; [destruct (heap_options w !! i)|]; cbn; discriminate.
Qed.

Lemma skip_not_running (n : nat) (c : FindCursor) (w : World) :
  Cursor.skip n c w <> Running.
Proof. unfold Cursor.skip, mbind, alloc_options. apply new_not_running. Qed.

(** [hasNext] on a cursor whose driver cursor exists never runs on for
    ever; when it returns, the calls of [next] made afterwards on the cursor
    produce what they would have produced without it, and its answer is
    whether [next] is not done on a probe: the clone of the cursor with the
    yielded count as its skip, which has its own driver cursor and counters
    at zero. *)
Lemma hasNext_leaves_cursor (c : FindCursor) (w : World) :
  cursor c < length (heap_cursors w) ->
  match Cursor.hasNext c w with
  | Finished (b, w') =>
      (forall n, returned (next_n n c w') = returned (next_n n c w))
      /\ exists cl w1 probe w2 r w3,
           Cursor.clone c w = Finished (cl, w1)
           /\ Cursor.skip (yielded c) cl w1 = Finished (probe, w2)
           /\ cursor probe <> cursor c
           /\ skipped probe = 0 /\ yielded probe = 0
           /\ _skip probe = yielded c
           /\ Cursor.next probe w2 = Finished (r, w3)
           /\ b = negb (done (fst r))
  | Raised _ => True
  | Running => False
  end.
Proof.
  intros Hlt. unfold Cursor.hasNext.
  unfold mbind at 1.
  destruct (Cursor.clone c w) as [[cl w1]|e|] eqn:Ecl; [| exact I |].
  2:{ exact (new_not_running _ _ _ _ _ Ecl). }
  unfold mbind at 1.
  destruct (Cursor.skip (yielded c) cl w1) as [[probe w2]|e|] eqn:Esk; [| exact I |].
  2:{ exact (skip_not_running _ _ _ Esk). }
  unfold mbind.
  pose proof (next_not_running probe w2) as Hnr.
  destruct (Cursor.next probe w2) as [[r w3]|e|] eqn:En; [| exact I | congruence].
  unfold ret.
  pose proof (new_spec _ _ _ _ _ _ _ Ecl) as (Hc1 & [L1 F1] & _).
  pose proof (skip_spec _ _ _ _ _ Esk) as (Hc2 & [L2 F2] & Hs & Hy & Hk).
  pose proof (next_frames _ _ _ _ En) as [L3 F3].
  assert (Hne : cursor c <> cursor probe) by lia.
  split.
  - intros n. symmetry. apply (similar_returned (cursor c)). apply next_n_similar.
    unfold same_cell. rewrite F3, F2, F1 by lia. reflexivity.
  - exists cl, w1, probe, w2, r, w3. repeat split; auto.
Qed.

(** ** [updateOne] without changes *)

Lemma noUpdates_not_notFound (name : string) : noUpdates <> notFound name.
Proof.
  unfold noUpdates, notFound, general. intros H.
  injection H as H. revert H.
  do 15 (destruct name as [|? name];
         [cbn; intros H; discriminate H
         | cbn; intros H; injection H as _ H; revert H]).
  destruct name; cbn; intros H; discriminate H.
Qed.

Lemma put_error_from (k m : string) (e : list (string * string)) (km : string * string) :
  In km (put_error k m e) -> km = (k, m) \/ In km e.
Proof.
  induction e as [|[k' m'] e IH]; simpl.
  - intros [<-|[]]. left. reflexivity.
  - destruct (String.eqb k k'); simpl.
    + intros [<-|H]; [left; reflexivity | right; right; exact H].
    + intros [<-|H]; [right; left; reflexivity|].
      destruct (IH H) as [->|H']; [left; reflexivity | right; right; exact H'].
Qed.

Lemma schemaFailure_from (issues : list Issue) (km : string * string) :
  In km (errors (schemaFailure issues)) ->
  In (Some (fst km), snd km) issues.
Proof.
  unfold schemaFailure. cbn [errors].
  assert (Hgen : forall acc,
             In km (fold_left (fun e (i : Issue) =>
                                 match fst i with
                                 | Some p => if String.eqb p "" then e
                                             else put_error p (snd i) e
                                 | None => e
                                 end) issues acc) ->
             In km acc \/ In (Some (fst km), snd km) issues).
  { induction issues as [|[[p|] m] issues IH]; intros acc; simpl.
    - intros H. left. exact H.
    - intros H. apply IH in H as [H|H]; [|right; right; exact H].
      destruct (String.eqb p ""); [left; exact H|].
      apply put_error_from in H as [->|H]; [right; left; reflexivity | left; exact H].
    - intros H. apply IH in H as [H|H]; [left; exact H | right; right; exact H]. }
  intros H. apply Hgen in H as [[]|H]. exact H.
Qed.

(** C9, as the code has it: when the document is found, the schema accepts
    the updated document and the rendered change set has no operator,
    [updateOne] returns (it does not throw) the result
    [{acknowledged: false, errors: {general: "No Updates to Make"}}] and
    calls the store for no write.  That result differs from the not-found
    result whatever the model is called, and from the result of a failed
    validation unless the validator itself reports the message
    "No Updates to Make" for a field called [general]. *)
Theorem updateOne_no_update (env : UpdateEnv) (update : Value -> Value)
    (before : Value) (d : UpdateFilter) :
  findOne env = Some before ->
  safeParse env (toJSON (update (construct env (toJSON before)))) = None ->
  changes "" (toJSON before) (toJSON (update (construct env (toJSON before))))
  = Return d ->
  parse d = [] ->
  updateOne env update = Return (noUpdates, [])
  /\ (forall name, noUpdates <> notFound name)
  /\ (forall issues,
        (forall i, In i issues -> fst i = Some "general" ->
                   snd i <> "No Updates to Make") ->
        noUpdates <> schemaFailure issues).
Proof.
  intros Hfound Hparse Hchanges Hempty. split; [|split].
  - unfold updateOne. rewrite Hfound, Hparse, Hchanges. cbn [bind].
    rewrite Hempty. reflexivity.
  - apply noUpdates_not_notFound.
  - intros issues Hissues E.
    assert (Hin : In ("general", "No Updates to Make") (errors (schemaFailure issues))).
    { rewrite <- E. left. reflexivity. }
    apply schemaFailure_from in Hin. cbn [fst snd] in Hin.
    apply (Hissues _ Hin); reflexivity.
Qed.

Lemma updateOne_no_update_witness :
  updateOne env_unchanged (fun m => m) = Return (noUpdates, [])
  /\ (forall name, noUpdates <> notFound name)
  /\ (forall issues,
        (forall i, In i issues -> fst i = Some "general" ->
                   snd i <> "No Updates to Make") ->
        noUpdates <> schemaFailure issues).
Proof.
  apply (updateOne_no_update env_unchanged (fun m => m) stored_user new_UpdateFilter);
    reflexivity.
Defined.

(** C9 as stated fails on the distinction from a failed validation: a
    schema that rejects the field [general] with the message
    "No Updates to Make" makes [updateOne] return the very result of an
    update without changes. *)
Lemma updateOne_no_update_counterexample :
  ~ (forall issues, noUpdates <> schemaFailure issues)
  /\ updateOne env_rejected (fun m => m) = updateOne env_unchanged (fun m => m)
  /\ updateOne env_unchanged (fun m => m) = Return (noUpdates, []).
Proof.
  split; [|split; reflexivity].
  intros H. apply (H [(Some "general", "No Updates to Make")]). reflexivity.
Qed.

(** ** Paths of a change set *)

Lemma append_cons (c : ascii) (x y : string) :
  String c x +:+ y = String c (x +:+ y).
Proof. reflexivity. Qed.

Lemma append_nil (y : string) : "" +:+ y = y.
Proof. reflexivity. Qed.

Lemma append_assoc (x y z : string) : (x +:+ y) +:+ z = x +:+ (y +:+ z).
Proof.
  induction x as [|c x IH]; [reflexivity|].
  rewrite !append_cons, IH. reflexivity.
Qed.

Lemma append_cancel (x y z : string) : x +:+ y = x +:+ z -> y = z.
Proof.
  induction x as [|c x IH]; [auto|].
  rewrite !append_cons. intros [= H]. auto.
Qed.

Lemma append_empty (x y : string) : x +:+ y = "" -> x = "".
Proof. destruct x; [reflexivity | rewrite append_cons; discriminate]. Qed.

Lemma path_stem (p k : string) : path p k = stem p +:+ k.
Proof.
  unfold path, stem. destruct (String.eqb p ""); [reflexivity|].
  rewrite append_assoc. reflexivity.
Qed.

Lemma path_not_empty (p k : string) : k <> "" -> path p k <> "".
Proof.
  unfold path. destruct (String.eqb p "") eqn:E; [auto|].
  apply String.eqb_neq in E. intros _ H. apply append_empty in H. exact (E H).
Qed.

Lemma plain_key_spec (k : string) :
  plain_key k = true -> dotfree k = true /\ k <> "".
Proof.
  unfold plain_key. rewrite andb_true_iff, negb_true_iff. intros [H1 H2].
  split; [exact H1 | apply String.eqb_neq; exact H2].
Qed.

Lemma dotfree_tail_inj (k k' t t' : string) :
  dotfree k = true -> dotfree k' = true ->
  dot_tail t = true -> dot_tail t' = true ->
  k +:+ t = k' +:+ t' -> k = k'.
Proof.
  revert k'. induction k as [|c k IH]; intros [|c' k'] Hk Hk' Ht Ht';
    rewrite ?append_cons, ?append_nil.
  - reflexivity.
  - intros ->. simpl in Ht, Hk'. rewrite Ht in Hk'. discriminate.
  - intros <-. simpl in Ht', Hk. rewrite Ht' in Hk. discriminate.
  - intros [= -> H]. f_equal. simpl in Hk, Hk'.
    apply andb_true_iff in Hk as [_ Hk], Hk' as [_ Hk'].
    apply IH; assumption.
Qed.

Lemma below_refl (p : string) : below p p.
Proof.
  exists "". split; [|reflexivity].
  induction p as [|c p IH]; [reflexivity | rewrite append_cons, <- IH; reflexivity].
Qed.

Lemma below_path (p k q : string) :
  p <> "" -> below (path p k) q -> below p q.
Proof.
  intros Hp (t & -> & Ht). unfold path.
  apply String.eqb_neq in Hp. rewrite Hp.
  exists ("." +:+ k +:+ t). split; [|reflexivity].
  rewrite !append_assoc. reflexivity.
Qed.

Lemma below_distinct_fields (p k k' q : string) :
  plain_key k = true -> plain_key k' = true ->
  below (path p k) q -> below (path p k') q -> k = k'.
Proof.
  intros Hk Hk' (t & -> & Ht) (t' & E & Ht').
  apply plain_key_spec in Hk as [Hk _], Hk' as [Hk' _].
  rewrite !path_stem, !append_assoc in E. apply append_cancel in E.
  exact (dotfree_tail_inj k k' t t' Hk Hk' Ht Ht' E).
Qed.

Lemma size_zero_delete (m d : gmap string Value) :
  Nat.eqb (size m) 0 = true -> delete "_id" m ∪ d = d.
Proof.
  intros H. apply Nat.eqb_eq in H. apply map_size_empty_iff in H. subst m.
  rewrite delete_empty. apply (left_id_L ∅ (∪)).
Qed.

Lemma merge_spec (c d : UpdateFilter) :
  merge c d
  = {| op_push := delete "_id" (op_push c) ∪ op_push d;
       op_set := delete "_id" (op_set c) ∪ op_set d;
       op_unset := delete "_id" (op_unset c) ∪ op_unset d |}.
Proof.
  unfold merge, parse, operators. cbn [List.filter snd fst].
  destruct (Nat.eqb (size (op_push c)) 0) eqn:E1,
           (Nat.eqb (size (op_set c)) 0) eqn:E2,
           (Nat.eqb (size (op_unset c)) 0) eqn:E3;
    cbn; destruct d as [dp ds du]; cbn;
    rewrite ?(size_zero_delete _ _ E1), ?(size_zero_delete _ _ E2),
      ?(size_zero_delete _ _ E3); reflexivity.
Qed.

Lemma lookup_merged (m d : gmap string Value) (q : string) :
  is_Some ((delete "_id" m ∪ d) !! q) -> is_Some (m !! q) \/ is_Some (d !! q).
Proof.
  rewrite lookup_union_is_Some. intros [H|H]; [left|right; exact H].
  destruct (decide (q = "_id")) as [->|Hne].
  - rewrite lookup_delete_eq in H. destruct H as [? H]. discriminate.
  - rewrite lookup_delete_ne in H by congruence. exact H.
Qed.

Lemma touches_merge (c d : UpdateFilter) (q : string) :
  touches (merge c d) q -> touches c q \/ touches d q.
Proof.
  rewrite merge_spec. unfold touches. cbn.
  intros [H|[H|H]]; apply lookup_merged in H as [H|H]; auto.
Qed.

Lemma single_kind_merge (c d : UpdateFilter) :
  single_kind c -> single_kind d ->
  (forall q, touches c q -> touches d q -> False) ->
  single_kind (merge c d).
Proof.
  intros Hc Hd Hcd q. rewrite merge_spec. cbn.
  specialize (Hc q). specialize (Hd q). specialize (Hcd q). unfold touches in Hcd.
  repeat split; intros [H1 H2];
    apply lookup_merged in H1 as [H1|H1], H2 as [H2|H2]; tauto.
Qed.

Lemma touches_new (q : string) : ~ touches new_UpdateFilter q.
Proof.
  unfold touches, new_UpdateFilter. cbn. rewrite !lookup_empty.
  intros [H|[H|H]]; destruct H; discriminate.
Qed.

Lemma touches_assign_push (p : string) (v : Value) (q : string) :
  touches (assign_push p v new_UpdateFilter) q -> q = p.
Proof.
  unfold touches. cbn. rewrite !lookup_empty, lookup_insert.
  destruct (decide (p = q)) as [->|]; [reflexivity|].
  intros [H|[H|H]]; destruct H; discriminate.
Qed.

Lemma touches_assign_set (p : string) (v : Value) (q : string) :
  touches (assign_set p v new_UpdateFilter) q -> q = p.
Proof.
  unfold touches. cbn. rewrite !lookup_empty, lookup_insert.
  destruct (decide (p = q)) as [->|]; [reflexivity|].
  intros [H|[H|H]]; destruct H; discriminate.
Qed.

Lemma touches_assign_unset (p : string) (v : Value) (q : string) :
  touches (assign_unset p v new_UpdateFilter) q -> q = p.
Proof.
  unfold touches. cbn. rewrite !lookup_empty, lookup_insert.
  destruct (decide (p = q)) as [->|]; [reflexivity|].
  intros [H|[H|H]]; destruct H; discriminate.
Qed.

Lemma single_kind_new : single_kind new_UpdateFilter.
Proof.
  intros q. cbn. rewrite !lookup_empty.
  repeat split; intros [[? H] _]; discriminate.
Qed.

Lemma single_kind_assign_push (p : string) (v : Value) :
  single_kind (assign_push p v new_UpdateFilter).
Proof.
  intros q. cbn. rewrite !lookup_empty.
  repeat split; intros [H1 H2]; try (destruct H2; discriminate); destruct H1; discriminate.
Qed.

Lemma single_kind_assign_set (p : string) (v : Value) :
  single_kind (assign_set p v new_UpdateFilter).
Proof.
  intros q. cbn. rewrite !lookup_empty.
  repeat split; intros [H1 H2]; try (destruct H2; discriminate); destruct H1; discriminate.
Qed.

Lemma single_kind_assign_unset (p : string) (v : Value) :
  single_kind (assign_unset p v new_UpdateFilter).
Proof.
  intros q. cbn. rewrite !lookup_empty.
  repeat split; intros [H1 H2]; try (destruct H2; discriminate); destruct H1; discriminate.
Qed.

Lemma assert_notEmpty_Return (p : string) (u : unit) :
  assert_notEmpty p = Return u -> p <> "".
Proof.
  unfold assert_notEmpty. destruct (String.eqb p "") eqn:E; [discriminate|].
  intros _. apply String.eqb_neq. exact E.
Qed.

Lemma below_tag (p tag : string) : below p (p +:+ String "."%char tag).
Proof. exists (String "."%char tag). split; reflexivity. Qed.

Lemma positional_cases (p key : string) (la lb : list Value) (b : Value)
    (d : UpdateFilter) :
  p <> "" -> below p key ->
  positional p key la lb b = Return d -> single_operation p d.
Proof.
  intros Hp Hkey. unfold positional.
  destruct (first_difference la lb) as [i|]; intros H;
    apply bind_Return in H as (x & _ & H); injection H as <-;
    (split; [exact Hp|]).
  - exists key. eexists. split; [exact Hkey | left; reflexivity].
  - exists p. eexists. split; [apply below_refl | right; left; reflexivity].
Qed.

(** The ways [changes] returns: nothing, one operation, or the walk over
    the properties of a plain object. *)
Lemma changes_cases (p : string) (a b : Value) (d : UpdateFilter) :
  changes p a b = Return d ->
  d = new_UpdateFilter
  \/ single_operation p d
  \/ exists lb, b = Obj lb
       /\ changes_entries p a lb
            (unset_removed p (keys (own a)) (keys lb) new_UpdateFilter)
          = Return d.
Proof.
  assert (Hset : forall (r : result Value),
             (do _ <- assert_notEmpty p;
              do e <- r; Return (assign_set p e new_UpdateFilter)) = Return d ->
             single_operation p d).
  { intros r H. apply bind_Return in H as (u & Hu & H).
    apply bind_Return in H as (e & _ & H). injection H as <-.
    split; [eapply assert_notEmpty_Return; exact Hu|].
    exists p, e. split; [apply below_refl | right; left; reflexivity]. }
  destruct b.
  - (* undefined *)
    rewrite changes_Undefined. intros H. apply bind_Return in H as (u & Hu & H).
    injection H as <-. right. left.
    split; [eapply assert_notEmpty_Return; exact Hu|].
    exists p, (Str ""). split; [apply below_refl | right; right; reflexivity].
  - cbn -[equal encode positional]. rewrite orb_true_r. cbn -[equal encode positional].
    destruct (equal a Null); [intros [= <-]; auto|].
    intros H. right. left. eapply Hset. exact H.
  - cbn -[equal encode positional]. rewrite orb_true_r. cbn -[equal encode positional].
    destruct (equal a (Bool b)); [intros [= <-]; auto|].
    intros H. right. left. eapply Hset. exact H.
  - cbn -[equal encode positional]. rewrite orb_true_r. cbn -[equal encode positional].
    destruct (equal a (Num n)); [intros [= <-]; auto|].
    intros H. right. left. eapply Hset. exact H.
  - cbn -[equal encode positional]. rewrite orb_true_r. cbn -[equal encode positional].
    destruct (equal a (Str s)); [intros [= <-]; auto|].
    intros H. right. left. eapply Hset. exact H.
  - cbn -[equal encode positional]. rewrite orb_true_r. cbn -[equal encode positional].
    destruct (equal a (ObjectId hex)); [intros [= <-]; auto|].
    intros H. right. left. eapply Hset. exact H.
  - cbn -[equal encode positional]. rewrite orb_true_r. cbn -[equal encode positional].
    destruct (equal a (Date ms)); [intros [= <-]; auto|].
    intros H. right. left. eapply Hset. exact H.
  - (* array *)
    cbn -[equal encode positional]. rewrite orb_true_r. cbn -[equal encode positional].
    destruct (equal a (Arr items)); [intros [= <-]; auto|].
    intros H. right. left. apply bind_Return in H as (u & Hu & H).
    pose proof (assert_notEmpty_Return p u Hu) as Hp.
    destruct a; try (apply bind_Return in H as (e & _ & H); injection H as <-;
                     split; [exact Hp|]; exists p; eexists;
                     split; [apply below_refl | right; left; reflexivity]).
    eapply positional_cases; [exact Hp | apply below_refl | exact H].
  - (* set *)
    cbn -[equal encode positional]. rewrite orb_true_r. cbn -[equal encode positional].
    destruct (equal a (JSSet members)); [intros [= <-]; auto|].
    intros H. right. left. apply bind_Return in H as (u & Hu & H).
    pose proof (assert_notEmpty_Return p u Hu) as Hp.
    destruct a; try (apply bind_Return in H as (e & _ & H); injection H as <-;
                     split; [exact Hp|]; exists p; eexists;
                     split; [apply below_refl | right; left; reflexivity]).
    eapply positional_cases; [exact Hp | apply below_tag | exact H].
  - (* map *)
    cbn -[equal encode positional]. rewrite orb_true_r. cbn -[equal encode positional].
    destruct (equal a (JSMap entries)); [intros [= <-]; auto|].
    intros H. right. left. apply bind_Return in H as (u & Hu & H).
    pose proof (assert_notEmpty_Return p u Hu) as Hp.
    destruct a; try (apply bind_Return in H as (e & _ & H); injection H as <-;
                     split; [exact Hp|]; exists p; eexists;
                     split; [apply below_refl | right; left; reflexivity]).
    eapply positional_cases; [exact Hp | apply below_tag | exact H].
  - (* plain object *)
    cbn -[equal encode positional]. rewrite !orb_false_r.
    destruct (EJSONCompatible a) eqn:Ea; cbn -[equal encode positional].
    { destruct (equal a (Obj props)); [intros [= <-]; auto|].
      intros H. right. left. eapply Hset. exact H. }
    destruct (negb (String.eqb (typeof a) "object")) eqn:Et.
    { intros H. right. left. eapply Hset. exact H. }
    destruct (RecordLike a) eqn:Er; [|discriminate].
    cbn [negb]. intros H. right. right. exists props. split; [reflexivity | exact H].
Qed.

Lemma unset_removed_spec (p : string) (aKeys bKeys : list string) (d : UpdateFilter) :
  op_push (unset_removed p aKeys bKeys d) = op_push d
  /\ op_set (unset_removed p aKeys bKeys d) = op_set d
  /\ forall q, is_Some (op_unset (unset_removed p aKeys bKeys d) !! q) ->
               is_Some (op_unset d !! q)
               \/ exists k, In k aKeys /\ ~ In k bKeys /\ q = path p k.
Proof.
  unfold unset_removed. revert d. induction aKeys as [|k aKeys IH]; intros d; simpl.
  - auto.
  - destruct (includes k bKeys) eqn:E.
    + destruct (IH d) as (H1 & H2 & H3). split; [exact H1|]. split; [exact H2|].
      intros q Hq. destruct (H3 q Hq) as [H|(k0 & Hk0 & Hn & ->)]; [left; exact H|].
      right. exists k0. auto.
    + apply includes_false in E.
      destruct (IH (assign_unset (path p k) (Str "") d)) as (H1 & H2 & H3).
      split; [exact H1|]. split; [exact H2|].
      intros q Hq. destruct (H3 q Hq) as [H|(k0 & Hk0 & Hn & ->)].
      * cbn in H. rewrite lookup_insert in H.
        destruct (decide (path p k = q)) as [<-|]; [|left; exact H].
        right. exists k. auto.
      * right. exists k0. auto.
Qed.

Lemma changes_entries_walked (p : string) (a : Value) (bs : Props)
    (diff d : UpdateFilter) :
  Forall (fun kv =>
            plain_key (fst kv) = true
            /\ forall c, changes (path p (fst kv)) (member (fst kv) a) (snd kv) = Return c ->
                         single_kind c
                         /\ forall q, touches c q -> below (path p (fst kv)) q) bs ->
  List.NoDup (keys bs) ->
  walked p bs diff ->
  changes_entries p a bs diff = Return d ->
  walked p [] d.
Proof.
  intros Hbs. revert diff. induction Hbs as [|[k v] bs [Hk Hc] Hbs IH];
    intros diff Hnd Hw H.
  - injection H as <-. exact Hw.
  - cbn [changes_entries] in H. apply bind_Return in H as (c & Ec & H).
    cbn [fst snd] in *. destruct (Hc c Ec) as [Hsk Hbelow].
    inversion Hnd as [|? ? Hnotin Hnd']; subst.
    destruct Hw as [Hsd Hw].
    apply (IH (merge c diff)); [exact Hnd' | | exact H].
    split.
    + apply single_kind_merge; [exact Hsk | exact Hsd |].
      intros q Hq1 Hq2. destruct (Hw q Hq2) as (k0 & Hk0 & Hb0 & Hn0).
      apply Hn0. left.
      apply (below_distinct_fields p k k0 q Hk Hk0 (Hbelow q Hq1) Hb0).
    + intros q Hq. apply touches_merge in Hq as [Hq|Hq].
      * exists k. split; [exact Hk|]. split; [apply Hbelow; exact Hq | exact Hnotin].
      * destruct (Hw q Hq) as (k0 & Hk0 & Hb0 & Hn0).
        exists k0. split; [exact Hk0|]. split; [exact Hb0|].
        intros Hin. apply Hn0. right. exact Hin.
Qed.

Lemma plain_keys_member (k : string) (a : Value) :
  plain_keys a = true -> plain_keys (member k a) = true.
Proof.
  unfold member, prop. destruct a; cbn; try reflexivity;
    try (destruct (String.eqb k "size"); reflexivity).
  intros H. destruct (get k props) as [v|] eqn:E; [|reflexivity].
  apply get_In in E. apply forallb_Forall in H. rewrite List.Forall_forall in H.
  specialize (H _ E). cbn in H. apply andb_true_iff in H as [_ H]. exact H.
Qed.

Lemma plain_keys_own (a : Value) (k : string) :
  plain_keys a = true -> In k (keys (own a)) -> plain_key k = true.
Proof.
  destruct a; cbn; try (intros _ []).
  intros H Hin. apply forallb_Forall in H. rewrite List.Forall_forall in H.
  unfold keys in Hin. apply in_map_iff in Hin as ([k' v] & <- & Hin).
  specialize (H _ Hin). cbn in H. apply andb_true_iff in H as [H _]. exact H.
Qed.

Lemma single_operation_wf (p : string) (d : UpdateFilter) :
  single_operation p d ->
  single_kind d /\ forall q, touches d q -> below p q.
Proof.
  intros (Hp & key & v & Hkey & Hd). destruct Hd as [ -> | [ -> | -> ] ].
  - split; [apply single_kind_assign_push|].
    intros q Hq. apply touches_assign_push in Hq as ->. exact Hkey.
  - split; [apply single_kind_assign_set|].
    intros q Hq. apply touches_assign_set in Hq as ->. exact Hkey.
  - split; [apply single_kind_assign_unset|].
    intros q Hq. apply touches_assign_unset in Hq as ->. exact Hkey.
Qed.

Lemma changes_wf (b : Value) :
  forall (p : string) (a : Value) (d : UpdateFilter),
    plain_keys a = true -> plain_keys b = true -> valid b = true ->
    changes p a b = Return d ->
    single_kind d /\ (p <> "" -> forall q, touches d q -> below p q).
Proof.
  induction b as [| |b|n|s|h|ms|l IH|l IH|l IH|l IH] using Value_nested_ind;
    intros p a d Ha Hb Hv H;
    destruct (changes_cases p a _ d H) as [->|[Hs|(lb & E & Hwalk)]];
    try discriminate E;
    try (split; [apply single_kind_new | intros _ q Hq; exfalso; exact (touches_new q Hq)]);
    try (destruct (single_operation_wf p d Hs) as [H1 H2]; split; [exact H1 | intros _; exact H2]).
  injection E as <-.
  cbn in Hb, Hv. apply andb_true_iff in Hv as [Hv Hnd].
  apply nodup_keys_NoDup in Hnd.
  apply forallb_Forall in Hb, Hv. rewrite List.Forall_forall in Hb, Hv, IH.
  destruct (unset_removed_spec p (keys (own a)) (keys l) new_UpdateFilter)
    as (Hup & Hus & Huu).
  assert (Hw0 : walked p l (unset_removed p (keys (own a)) (keys l) new_UpdateFilter)).
  { split.
    - intros q. rewrite Hup, Hus. cbn. rewrite !lookup_empty.
      repeat split; intros [[? H1] _]; discriminate.
    - intros q [Hq|[Hq|Hq]].
      + rewrite Hup in Hq. cbn in Hq. rewrite lookup_empty in Hq. destruct Hq; discriminate.
      + rewrite Hus in Hq. cbn in Hq. rewrite lookup_empty in Hq. destruct Hq; discriminate.
      + destruct (Huu q Hq) as [Hq'|(k0 & Hk0 & Hn & ->)].
        * cbn in Hq'. rewrite lookup_empty in Hq'. destruct Hq'; discriminate.
        * exists k0. split; [apply (plain_keys_own a); assumption|].
          split; [apply below_refl | exact Hn]. }
  assert (Hchildren :
            Forall (fun kv =>
              plain_key (fst kv) = true
              /\ forall c, changes (path p (fst kv)) (member (fst kv) a) (snd kv) = Return c ->
                           single_kind c
                           /\ forall q, touches c q -> below (path p (fst kv)) q) l).
  { rewrite List.Forall_forall. intros [k v] Hin. cbn [fst snd].
    specialize (Hb _ Hin). cbn in Hb. apply andb_true_iff in Hb as [Hk Hpv].
    split; [exact Hk|]. intros c Hc.
    destruct (IH _ Hin (path p k) (member k a) c) as [H1 H2];
      [apply plain_keys_member; exact Ha | exact Hpv | exact (Hv _ Hin) | exact Hc |].
    split; [exact H1|]. apply H2. apply path_not_empty.
    apply plain_key_spec in Hk as [_ Hk]. exact Hk. }
  destruct (changes_entries_walked p a l _ d Hchildren Hnd Hw0 Hwalk) as [Hsk Hall].
  split; [exact Hsk|].
  intros Hp q Hq. destruct (Hall q Hq) as (k0 & _ & Hbel & _).
  exact (below_path p k0 q Hp Hbel).
Qed.

(** C4, as the code has it: when the keys of the plain objects of both
    inputs are field names (not empty, no dot), the change set [changes]
    returns has no path under two operation kinds; and, whatever the inputs,
    the rendered change set ([parse]) has no path [_id] under any
    operator. *)
Theorem changes_single_kind (prefix : string) (a b : Value) (d : UpdateFilter) :
  plain_keys a = true ->
  plain_keys b = true ->
  valid b = true ->
  changes prefix a b = Return d ->
  single_kind d
  /\ forall oper m, In (oper, m) (parse d) -> m !! "_id" = None.
Proof.
  intros Ha Hb Hv H. split.
  - apply (changes_wf b prefix a d Ha Hb Hv H).
  - intros oper m Hin. unfold parse in Hin.
    apply in_map_iff in Hin as (e & E & _). injection E as _ <-.
    apply lookup_delete_eq.
Qed.

Definition profile_before : Value :=
  Obj [("_id", ObjectId "65f0"); ("email", Str "a@x.com");
       ("tags", JSSet [Num 1; Num 2; Num 3]);
       ("address", Obj [("city", Str "Oslo"); ("zip", Str "0150")]);
       ("nickname", Str "Al")].

Definition profile_after : Value :=
  Obj [("_id", ObjectId "65f0"); ("email", Str "b@x.com");
       ("tags", JSSet [Num 1; Num 2; Num 3; Num 4]);
       ("address", Obj [("city", Str "Bergen")]);
       ("visits", Arr [Num 1])].

Lemma changes_single_kind_witness :
  exists d, changes "" profile_before profile_after = Return d
            /\ single_kind d
            /\ forall oper m, In (oper, m) (parse d) -> m !! "_id" = None.
Proof.
  destruct (changes "" profile_before profile_after) as [d|e] eqn:E;
    [|vm_compute in E; discriminate E].
  exists d. split; [reflexivity|].
  apply (changes_single_kind "" profile_before profile_after d);
    [reflexivity | reflexivity | reflexivity | exact E].
Defined.

(** C4 as stated fails on its first half: with a key that holds a dot, the
    path [x.y] is both set (the property [y] of the object [x]) and unset
    (the property [x.y]). *)
Lemma changes_single_kind_counterexample :
  ~ (forall (prefix : string) (a b : Value) (d : UpdateFilter),
       valid a = true -> valid b = true ->
       changes prefix a b = Return d -> single_kind d)
  /\ match changes "" (Obj [("x.y", Num 1); ("x", Obj [("y", Num 1)])])
                      (Obj [("x", Obj [("y", Num 2)])]) with
     | Return d => op_set d !! "x.y" = Some (Num 2)
                   /\ op_unset d !! "x.y" = Some (Str "")
     | Throw _ => False
     end.
Proof.
  split; [|vm_compute; split; reflexivity].
  intros H.
  assert (E : changes "" (Obj [("x.y", Num 1); ("x", Obj [("y", Num 1)])])
                         (Obj [("x", Obj [("y", Num 2)])])
              = Return {| op_push := ∅;
                          op_set := {[ "x.y" := Num 2 ]};
                          op_unset := {[ "x.y" := Str "" ]} |})
    by reflexivity.
  pose proof (fun Ha Hb => H "" _ _ _ Ha Hb E "x.y") as H'.
  destruct (H' eq_refl eq_refl) as (_ & _ & Hsu).
  apply Hsu. cbn [op_set op_unset]. rewrite !lookup_singleton_eq.
  split; eexists; reflexivity.
Qed.

(** ** The ways [changes] returns *)

Lemma positional_inversion (p key : string) (la lb : list Value) (b : Value)
    (d : UpdateFilter) :
  positional p key la lb b = Return d ->
  (exists i each, first_difference la lb = Some i
                  /\ mapM encode (skipn i lb) = Return each
                  /\ d = assign_push key (push_payload each i (length lb)) new_UpdateFilter)
  \/ (exists e, encode b = Return e /\ d = assign_set p e new_UpdateFilter).
Proof.
  unfold positional. destruct (first_difference la lb) as [i|]; intros H;
    apply bind_Return in H as (x & Hx & H); injection H as <-.
  - left. exists i, x. auto.
  - right. exists x. auto.
Qed.

Lemma encode_Arr (l : list Value) : encode (Arr l) = rmap Arr (mapM encode l).
Proof. reflexivity. Qed.

Lemma changes_inversion (p : string) (a b : Value) (d : UpdateFilter) :
  changes p a b = Return d -> change p a b d.
Proof.
  assert (Hset : forall b', b' <> Undefined ->
             (compared_whole a b' = true -> equal a b' = false) ->
             (do _ <- assert_notEmpty p;
              do e <- encode b'; Return (assign_set p e new_UpdateFilter)) = Return d ->
             change p a b' d).
  { intros b' Hb' He H. apply bind_Return in H as (u & Hu & H).
    apply bind_Return in H as (e & Ee & H). injection H as <-.
    apply change_set; [eapply assert_notEmpty_Return; exact Hu | exact Hb' | exact Ee | exact He]. }
  assert (Hleaf : forall b', b' <> Undefined -> compared_whole a b' = true ->
             (if equal a b' then Return new_UpdateFilter
              else do _ <- assert_notEmpty p;
                   do e <- encode b'; Return (assign_set p e new_UpdateFilter)) = Return d ->
             change p a b' d).
  { intros b' Hb' Hc. destruct (equal a b') eqn:E.
    - intros [= <-]. apply change_none; assumption.
    - intros H. apply Hset; auto. }
  destruct b.
  - rewrite changes_Undefined. intros H. apply bind_Return in H as (u & Hu & H).
    injection H as <-. apply change_unset. eapply assert_notEmpty_Return; exact Hu.
  - intros H. apply Hleaf; [discriminate | unfold compared_whole; cbn; rewrite ?orb_true_r; reflexivity|].
    revert H. cbn -[equal encode positional]. rewrite orb_true_r. cbn -[equal encode positional]. auto.
  - intros H. apply Hleaf; [discriminate | unfold compared_whole; cbn; rewrite ?orb_true_r; reflexivity|].
    revert H. cbn -[equal encode positional]. rewrite orb_true_r. cbn -[equal encode positional]. auto.
  - intros H. apply Hleaf; [discriminate | unfold compared_whole; cbn; rewrite ?orb_true_r; reflexivity|].
    revert H. cbn -[equal encode positional]. rewrite orb_true_r. cbn -[equal encode positional]. auto.
  - intros H. apply Hleaf; [discriminate | unfold compared_whole; cbn; rewrite ?orb_true_r; reflexivity|].
    revert H. cbn -[equal encode positional]. rewrite orb_true_r. cbn -[equal encode positional]. auto.
  - intros H. apply Hleaf; [discriminate | unfold compared_whole; cbn; rewrite ?orb_true_r; reflexivity|].
    revert H. cbn -[equal encode positional]. rewrite orb_true_r. cbn -[equal encode positional]. auto.
  - intros H. apply Hleaf; [discriminate | unfold compared_whole; cbn; rewrite ?orb_true_r; reflexivity|].
    revert H. cbn -[equal encode positional]. rewrite orb_true_r. cbn -[equal encode positional]. auto.
  - (* array *)
    assert (Hc : compared_whole a (Arr items) = true)
      by (unfold compared_whole; cbn; rewrite ?orb_true_r; reflexivity).
    cbn -[equal encode positional]. rewrite orb_true_r. cbn -[equal encode positional].
    destruct (equal a (Arr items)) eqn:E; [intros [= <-]; apply change_none; auto; discriminate|].
    intros H.
    destruct a;
      try (apply Hset; [discriminate | auto |];
           apply bind_Return in H as (u & Hu & H); rewrite Hu; cbn [bind];
           rewrite encode_Arr; unfold rmap;
           destruct (mapM encode items); exact H).
    apply bind_Return in H as (u & Hu & H).
    pose proof (assert_notEmpty_Return p u Hu) as Hp.
    apply positional_inversion in H as [(i & each & H1 & H2 & ->)|(e & He & ->)].
    + apply change_push_array; assumption.
    + apply change_set; auto; discriminate.
  - (* set *)
    assert (Hc : compared_whole a (JSSet members) = true)
      by (unfold compared_whole; cbn; rewrite ?orb_true_r; reflexivity).
    cbn -[equal encode positional]. rewrite orb_true_r. cbn -[equal encode positional].
    destruct (equal a (JSSet members)) eqn:E; [intros [= <-]; apply change_none; auto; discriminate|].
    intros H.
    destruct a; try (apply Hset; [discriminate | auto | exact H]).
    apply bind_Return in H as (u & Hu & H).
    pose proof (assert_notEmpty_Return p u Hu) as Hp.
    apply positional_inversion in H as [(i & each & H1 & H2 & ->)|(e & He & ->)].
    + apply change_push_set; assumption.
    + apply change_set; auto; discriminate.
  - (* map *)
    assert (Hc : compared_whole a (JSMap entries) = true)
      by (unfold compared_whole; cbn; rewrite ?orb_true_r; reflexivity).
    cbn -[equal encode positional]. rewrite orb_true_r. cbn -[equal encode positional].
    destruct (equal a (JSMap entries)) eqn:E; [intros [= <-]; apply change_none; auto; discriminate|].
    intros H.
    destruct a; try (apply Hset; [discriminate | auto | exact H]).
    apply bind_Return in H as (u & Hu & H).
    pose proof (assert_notEmpty_Return p u Hu) as Hp.
    apply positional_inversion in H as [(i & each & H1 & H2 & ->)|(e & He & ->)].
    + apply change_push_map; assumption.
    + apply change_set; auto; discriminate.
  - (* plain object *)
    cbn -[equal encode positional]. rewrite !orb_false_r.
    destruct (EJSONCompatible a) eqn:Ea; cbn -[equal encode positional].
    { intros H. apply Hleaf; [discriminate | unfold compared_whole; rewrite Ea; reflexivity | exact H]. }
    destruct (negb (String.eqb (typeof a) "object")) eqn:Et.
    { intros H. apply Hset; [discriminate | | exact H].
      unfold compared_whole. rewrite Ea. cbn. discriminate. }
    destruct (RecordLike a) eqn:Er; [|discriminate].
    cbn [negb]. intros H. apply change_walk; auto.
    apply negb_false_iff, String.eqb_eq in Et. exact Et.
Qed.


(** ** Patching, path by path *)

Lemma patch_Obj (d : UpdateFilter) (p : string) (o : Props) :
  patch d p (Obj o) = Obj (patched_fields d p o ++ added d p o).
Proof.
  cbn [patch]. f_equal. f_equal. unfold patched_fields, patched_field.
  induction o as [|[k v] o IH]; [reflexivity|].
  cbn [omap list_omap fst snd]. rewrite <- IH.
  destruct (op_unset d !! path p k); [reflexivity|].
  destruct (op_set d !! path p k); reflexivity.
Qed.

Lemma patch_Arr (d : UpdateFilter) (p : string) (l : list Value) :
  patch d p (Arr l)
  = match op_push d !! p with
    | Some payload => Arr (spliced payload l)
    | None => Arr l
    end.
Proof. reflexivity. Qed.

Lemma strip_prefix_spec (x q k : string) :
  strip_prefix x q = Some k <-> q = x +:+ k.
Proof.
  revert q. induction x as [|c x IH]; intros q; cbn [strip_prefix].
  - rewrite append_nil. split; [intros [= ->]; reflexivity | intros ->; reflexivity].
  - rewrite append_cons. destruct q as [|c' q].
    + split; discriminate.
    + destruct (Ascii.eqb c c') eqn:E.
      * apply Ascii.eqb_eq in E. subst c'. rewrite IH. split; [intros ->; reflexivity | intros [= ->]; reflexivity].
      * apply Ascii.eqb_neq in E. split; [discriminate | intros [= <- _]; congruence].
Qed.

Lemma child_key_spec (p q k : string) :
  child_key p q = Some k <-> q = path p k /\ plain_key k = true.
Proof.
  unfold child_key, path, plain_key.
  destruct (String.eqb p "") eqn:Ep.
  - destruct (dotfree q && negb (String.eqb q "")) eqn:E.
    + split; [intros [= ->]; auto | intros [-> _]; reflexivity].
    + split; [discriminate | intros [-> H]; congruence].
  - destruct (strip_prefix (p +:+ ".") q) as [k'|] eqn:Es.
    + apply strip_prefix_spec in Es. subst q. rewrite append_assoc.
      destruct (dotfree k' && negb (String.eqb k' "")) eqn:E.
      * split; [intros [= ->]; auto|].
        intros [H _]. apply (append_cancel p) in H.
        rewrite !append_cons, !append_nil in H. injection H as ->. reflexivity.
      * split; [discriminate|].
        intros [H Hk]. apply (append_cancel p) in H.
        rewrite !append_cons, !append_nil in H. injection H as ->. congruence.
    + split; [discriminate|]. intros [-> _].
      assert (strip_prefix (p +:+ ".") (p +:+ "." +:+ k) = Some k); [|congruence].
      apply strip_prefix_spec. rewrite append_assoc. reflexivity.
Qed.

Lemma added_spec (d : UpdateFilter) (p : string) (o : Props) (k : string) (v : Value) :
  In (k, v) (added d p o)
  <-> op_set d !! path p k = Some v /\ plain_key k = true /\ ~ In k (keys o).
Proof.
  unfold added. rewrite <- list_elem_of_In, list_elem_of_omap. split.
  - intros ([q v'] & Hin & H). apply elem_of_map_to_list in Hin. cbn [fst snd] in H.
    destruct (child_key p q) as [k'|] eqn:Ec; [|discriminate].
    destruct (includes k' (keys o)) eqn:Ei; [discriminate|].
    injection H as -> ->. apply child_key_spec in Ec as [-> Hk].
    apply includes_false in Ei. auto.
  - intros (Hs & Hk & Hn). exists (path p k, v). split.
    + apply elem_of_map_to_list. exact Hs.
    + cbn [fst snd].
      assert (E : child_key p (path p k) = Some k) by (apply child_key_spec; auto).
      rewrite E. apply includes_false in Hn. rewrite Hn. reflexivity.
Qed.

Lemma not_touches_None (d : UpdateFilter) (q : string) :
  ~ touches d q ->
  op_push d !! q = None /\ op_set d !! q = None /\ op_unset d !! q = None.
Proof.
  unfold touches. intros H.
  repeat split; apply eq_None_not_Some; intros Hs; apply H; auto.
Qed.

Lemma below_path_field (p k : string) : p <> "" -> below p (path p k).
Proof. intros Hp. apply (below_path p k); [exact Hp | apply below_refl]. Qed.

Lemma omap_nil_all {A B} (f : A -> option B) (l : list A) :
  (forall x, In x l -> f x = None) -> omap f l = [].
Proof.
  induction l as [|x l IH]; intros H; [reflexivity|].
  cbn [omap list_omap]. rewrite (H x) by (left; reflexivity).
  apply IH. intros y Hy. apply H. right. exact Hy.
Qed.

Lemma added_untouched (d : UpdateFilter) (p : string) (o : Props) :
  (forall k, plain_key k = true -> op_set d !! path p k = None) ->
  added d p o = [].
Proof.
  intros H. destruct (added d p o) as [|[k v] l] eqn:E; [reflexivity|].
  assert (Hin : In (k, v) (added d p o)) by (rewrite E; left; reflexivity).
  apply added_spec in Hin as (Hs & Hk & _). rewrite (H k Hk) in Hs. discriminate.
Qed.

Lemma path_not_empty_l (p k : string) : p <> "" -> path p k <> "".
Proof.
  intros Hp. unfold path. apply String.eqb_neq in Hp. rewrite Hp.
  intros H. apply append_empty in H. apply String.eqb_neq in Hp. exact (Hp H).
Qed.

(** A change set that says nothing of the paths at or below [p] leaves the
    value at [p] as it is. *)
Lemma patch_untouched (d : UpdateFilter) (w : Value) :
  forall p, p <> "" -> (forall q, below p q -> ~ touches d q) -> patch d p w = w.
Proof.
  induction w as [| |b|n|s|h|ms|l IH|l IH|l IH|l IH] using Value_nested_ind;
    intros p Hp Hun; try reflexivity.
  - rewrite patch_Arr.
    destruct (not_touches_None d p (Hun p (below_refl p))) as (-> & _ & _). reflexivity.
  - rewrite patch_Obj. rewrite added_untouched.
    2:{ intros k _. apply not_touches_None, Hun, below_path_field, Hp. }
    rewrite app_nil_r. f_equal. unfold patched_fields.
    induction IH as [|[k v] l IHv _ IHl]; [reflexivity|].
    cbn [omap list_omap fst snd]. unfold patched_field.
    destruct (not_touches_None d (path p k) (Hun _ (below_path_field p k Hp)))
      as (_ & -> & ->).
    cbn [snd] in IHv. rewrite IHv.
    + f_equal. exact IHl.
    + apply path_not_empty_l. exact Hp.
    + intros q Hq. apply Hun. exact (below_path p k q Hp Hq).
Qed.

Lemma lookup_delete_id (m : gmap string Value) (q : string) :
  m !! "_id" = None -> delete "_id" m !! q = m !! q.
Proof.
  intros H. destruct (decide (q = "_id")) as [->|Hne].
  - rewrite lookup_delete_eq. symmetry. exact H.
  - apply lookup_delete_ne. congruence.
Qed.

Lemma lookup_union_None_r (m1 m2 : gmap string Value) (q : string) :
  m2 !! q = None -> (m1 ∪ m2) !! q = m1 !! q.
Proof.
  intros H. rewrite lookup_union, H. destruct (m1 !! q); reflexivity.
Qed.

Lemma lookup_union_None_l (m1 m2 : gmap string Value) (q : string) :
  m1 !! q = None -> (m1 ∪ m2) !! q = m2 !! q.
Proof.
  intros H. rewrite lookup_union, H. destruct (m2 !! q); reflexivity.
Qed.

Lemma same_at_merge_child (c diff : UpdateFilter) (q : string) :
  ~ touches c "_id" -> ~ touches diff q -> same_at (merge c diff) c q.
Proof.
  intros Hid Hq. rewrite merge_spec.
  destruct (not_touches_None c "_id" Hid) as (I1 & I2 & I3).
  destruct (not_touches_None diff q Hq) as (Q1 & Q2 & Q3).
  unfold same_at. cbn [op_push op_set op_unset].
  rewrite !lookup_union_None_r, !lookup_delete_id by assumption. auto.
Qed.

Lemma same_at_merge_other (c diff : UpdateFilter) (q : string) :
  ~ touches c q -> same_at (merge c diff) diff q.
Proof.
  intros Hq. rewrite merge_spec.
  destruct (not_touches_None c q Hq) as (Q1 & Q2 & Q3).
  unfold same_at. cbn [op_push op_set op_unset].
  assert (D : forall m : gmap string Value, m !! q = None -> delete "_id" m !! q = None).
  { intros m Hm. destruct (decide (q = "_id")) as [->|Hne].
    - apply lookup_delete_eq.
    - rewrite lookup_delete_ne by congruence. exact Hm. }
  rewrite !lookup_union_None_l by (apply D; assumption). auto.
Qed.

Lemma same_at_trans (d1 d2 d3 : UpdateFilter) (q : string) :
  same_at d1 d2 q -> same_at d2 d3 q -> same_at d1 d3 q.
Proof. unfold same_at. intros (-> & -> & ->) (-> & -> & ->). auto. Qed.

Lemma same_at_refl (d : UpdateFilter) (q : string) : same_at d d q.
Proof. unfold same_at. auto. Qed.

Lemma same_at_touches (d1 d2 : UpdateFilter) (q : string) :
  same_at d1 d2 q -> touches d1 q -> touches d2 q.
Proof. unfold same_at, touches. intros (-> & -> & ->). auto. Qed.

Lemma entries_loop (p : string) (a : Value) (bs : Props) :
  Forall (tame p a) bs ->
  List.NoDup (keys bs) ->
  forall diff d,
    (forall q, touches diff q ->
               exists k0, plain_key k0 = true /\ below (path p k0) q /\ ~ In k0 (keys bs)) ->
    changes_entries p a bs diff = Return d ->
    (forall k v, In (k, v) bs ->
       exists c, changes (path p k) (member k a) v = Return c
                 /\ forall q, below (path p k) q -> same_at d c q)
    /\ (forall q, (forall k, In k (keys bs) -> ~ below (path p k) q) -> same_at d diff q)
    /\ (forall q, touches d q ->
          touches diff q \/ exists k, In k (keys bs) /\ below (path p k) q).
Proof.
  induction 1 as [|[k v] bs [Hk Hc] Hbs IH]; intros Hnd diff d Hdiff H.
  - injection H as <-. split; [intros ? ? []|]. split; [intros; apply same_at_refl | auto].
  - cbn [changes_entries] in H. apply bind_Return in H as (c & Ec & H).
    cbn [fst snd] in *. destruct (Hc c Ec) as [Hbelow Hid].
    inversion Hnd as [|? ? Hnotin Hnd']; subst.
    assert (Hdiff' : forall q, touches (merge c diff) q ->
              exists k0, plain_key k0 = true /\ below (path p k0) q /\ ~ In k0 (keys bs)).
    { intros q Hq. apply touches_merge in Hq as [Hq|Hq].
      - exists k. auto.
      - destruct (Hdiff q Hq) as (k0 & Hk0 & Hb0 & Hn0).
        exists k0. split; [exact Hk0|]. split; [exact Hb0|].
        intros Hin. apply Hn0. right. exact Hin. }
    destruct (IH Hnd' (merge c diff) d Hdiff' H) as (L1 & L2 & L4).
    assert (Hother : forall q k', In k' (keys bs) -> below (path p k') q ->
                                  ~ below (path p k) q).
    { intros q k' Hin Hb' Hb.
      assert (Hk' : plain_key k' = true).
      { unfold keys in Hin. apply in_map_iff in Hin as (kv & <- & Hin).
        rewrite List.Forall_forall in Hbs. apply (Hbs kv Hin). }
      rewrite (below_distinct_fields p k k' q Hk Hk' Hb Hb') in Hnotin. exact (Hnotin Hin). }
    split; [|split].
    + intros k1 v1 [E|Hin].
      * injection E as <- <-. exists c. split; [exact Ec|].
        intros q Hq. eapply same_at_trans.
        -- apply L2. intros k' Hin Hb'. exact (Hother q k' Hin Hb' Hq).
        -- apply same_at_merge_child; [exact Hid|].
           intros Ht. destruct (Hdiff q Ht) as (k0 & Hk0 & Hb0 & Hn0).
           apply Hn0. left. exact (below_distinct_fields p k k0 q Hk Hk0 Hq Hb0).
      * apply L1. exact Hin.
    + intros q Hq. eapply same_at_trans.
      * apply L2. intros k' Hin. apply Hq. right. exact Hin.
      * apply same_at_merge_other. intros Ht. apply (Hq k); [left; reflexivity|].
        apply Hbelow. exact Ht.
    + intros q Hq. destruct (L4 q Hq) as [Ht|(k' & Hin & Hb')].
      * apply touches_merge in Ht as [Ht|Ht]; [|left; exact Ht].
        right. exists k. split; [left; reflexivity | apply Hbelow; exact Ht].
      * right. exists k'. split; [right; exact Hin | exact Hb'].
Qed.

Lemma unset_removed_keeps (p : string) (aKeys bKeys : list string)
    (d : UpdateFilter) (q : string) :
  op_unset d !! q = Some (Str "") ->
  op_unset (unset_removed p aKeys bKeys d) !! q = Some (Str "").
Proof.
  unfold unset_removed. revert d. induction aKeys as [|k aKeys IH]; intros d H; simpl.
  - exact H.
  - destruct (includes k bKeys); apply IH; [exact H|].
    cbn. rewrite lookup_insert. destruct (decide (path p k = q)); [reflexivity | exact H].
Qed.

Lemma unset_removed_sets (p : string) (aKeys bKeys : list string)
    (d : UpdateFilter) (k0 : string) :
  In k0 aKeys -> ~ In k0 bKeys ->
  op_unset (unset_removed p aKeys bKeys d) !! path p k0 = Some (Str "").
Proof.
  revert d. induction aKeys as [|k aKeys IH]; intros d Hin Hn; [destruct Hin|].
  destruct Hin as [->|Hin].
  - unfold unset_removed. simpl. apply includes_false in Hn. rewrite Hn.
    apply (unset_removed_keeps p aKeys bKeys). cbn. apply lookup_insert_eq.
  - unfold unset_removed. simpl.
    destruct (includes k bKeys); apply (IH _ Hin Hn).
Qed.

Lemma entries_spec (p : string) (a : Value) (lb : Props) (c : UpdateFilter) :
  Forall (tame p a) lb ->
  List.NoDup (keys lb) ->
  (forall k, In k (keys (own a)) -> plain_key k = true) ->
  changes_entries p a lb
    (unset_removed p (keys (own a)) (keys lb) new_UpdateFilter) = Return c ->
  (forall k v, In (k, v) lb ->
     exists ck, changes (path p k) (member k a) v = Return ck
                /\ forall q, below (path p k) q -> same_at c ck q)
  /\ (forall k0, In k0 (keys (own a)) -> ~ In k0 (keys lb) ->
        op_unset c !! path p k0 = Some (Str ""))
  /\ (forall q, touches c q ->
        (exists k, In k (keys lb) /\ below (path p k) q)
        \/ (exists k0, In k0 (keys (own a)) /\ ~ In k0 (keys lb) /\ q = path p k0)).
Proof.
  intros Htame Hnd Hplain H.
  destruct (unset_removed_spec p (keys (own a)) (keys lb) new_UpdateFilter)
    as (Hup & Hus & Huu).
  assert (Htouch0 : forall q,
            touches (unset_removed p (keys (own a)) (keys lb) new_UpdateFilter) q ->
            exists k0, In k0 (keys (own a)) /\ ~ In k0 (keys lb) /\ q = path p k0).
  { intros q [Hq|[Hq|Hq]].
    - rewrite Hup in Hq. cbn in Hq. rewrite lookup_empty in Hq. destruct Hq; discriminate.
    - rewrite Hus in Hq. cbn in Hq. rewrite lookup_empty in Hq. destruct Hq; discriminate.
    - destruct (Huu q Hq) as [Hq'|Hk]; [|exact Hk].
      cbn in Hq'. rewrite lookup_empty in Hq'. destruct Hq'; discriminate. }
  destruct (entries_loop p a lb Htame Hnd
              (unset_removed p (keys (own a)) (keys lb) new_UpdateFilter) c)
    as (L1 & L2 & L4); [|exact H|].
  { intros q Hq. destruct (Htouch0 q Hq) as (k0 & Hin & Hn & ->).
    exists k0. split; [apply Hplain; exact Hin|]. split; [apply below_refl | exact Hn]. }
  split; [exact L1|]. split.
  - intros k0 Hin Hn.
    destruct (L2 (path p k0)) as (_ & _ & ->).
    + intros k Hk Hb. apply Hn.
      assert (Hpk : plain_key k = true).
      { unfold keys in Hk. apply in_map_iff in Hk as (kv & <- & Hk).
        rewrite List.Forall_forall in Htame. apply (Htame kv Hk). }
      rewrite (below_distinct_fields p k0 k (path p k0) (Hplain k0 Hin) Hpk
                 (below_refl _) Hb). exact Hk.
    + apply unset_removed_sets; assumption.
  - intros q Hq. destruct (L4 q Hq) as [Ht|Hk]; [right; apply Htouch0; exact Ht | left; exact Hk].
Qed.

(** Decoding a wire object none of whose keys is reserved. *)
Lemma decode_entries_all (ws rs acc : Props) :
  Forall2 (fun w r => fst r = fst w /\ reserved (fst w) = false
                      /\ decode (snd w) = Return (snd r)) ws rs ->
  decode_entries ws acc = Return (Obj (fromEntries (acc ++ rs))).
Proof.
  intros H. revert acc. induction H as [|[k w] [k' r] ws rs (Hk & Hres & Hd) H IH];
    intros acc.
  - rewrite app_nil_r. reflexivity.
  - cbn [fst snd] in *. subst k'. cbn [decode_entries].
    apply reserved_false in Hres as [-> ->].
    destruct (EJSONCompatible w) eqn:E.
    + rewrite (decode_EJSON w E) in Hd. injection Hd as <-.
      rewrite IH, <- app_assoc. reflexivity.
    + rewrite Hd. cbn [bind]. rewrite IH, <- app_assoc. reflexivity.
Qed.

Lemma own_equal_Forall (l2 l : Props) :
  own_equal l2 l = true
  <-> Forall (fun kv => exists v', get (fst kv) l2 = Some v' /\ equal (snd kv) v' = true) l.
Proof.
  induction l as [|[k v] l IH]; cbn [own_equal].
  - split; [constructor | reflexivity].
  - fold (own_equal l2 l). rewrite andb_true_iff, IH. split.
    + intros [H1 H2]. constructor; [|exact H2]. cbn [fst snd].
      destruct (get k l2) as [v'|]; [exists v'; auto | discriminate].
    + intros H. inversion H as [|? ? (v' & Hg & He) H2]; subst. cbn [fst snd] in *.
      rewrite Hg. auto.
Qed.

(** A wire object whose fields stand one for one for the properties of
    [lb] decodes to an object deep-equal to [Obj lb]. *)
Lemma object_result (ws lb : Props) :
  List.NoDup (keys lb) ->
  (forall k, In k (keys lb) -> reserved k = false) ->
  List.NoDup (keys ws) ->
  Forall (result_entry lb) ws ->
  (forall k, In k (keys lb) -> In k (keys ws)) ->
  exists R, decode (Obj ws) = Return R /\ equal R (Obj lb) = true.
Proof.
  intros Hndb Hres Hndw Hall Hcover.
  assert (Hrs : exists rs,
             Forall2 (fun w r => fst r = fst w /\ reserved (fst w) = false
                                 /\ decode (snd w) = Return (snd r)) ws rs
             /\ Forall (fun kv => exists v', get (fst kv) lb = Some v'
                                             /\ equal (snd kv) v' = true) rs
             /\ keys rs = keys ws).
  { clear Hndw Hcover. induction Hall as [|[k w] ws (b & r & Hin & Hd & He) Hall IH].
    - exists []. repeat split; constructor.
    - destruct IH as (rs & H1 & H2 & H3). exists ((k, r) :: rs). cbn [fst snd] in *.
      split; [constructor; [|exact H1]|].
      + cbn [fst snd]. split; [reflexivity|]. split; [|exact Hd].
        apply Hres. unfold keys. change k with (fst (k, b)). apply in_map. exact Hin.
      + split; [constructor; [|exact H2] | cbn; f_equal; exact H3].
        cbn [fst snd]. exists b. split; [apply get_NoDup; assumption | exact He]. }
  destruct Hrs as (rs & H1 & H2 & H3).
  exists (Obj rs). split.
  - rewrite decode_Obj, (decode_entries_all ws rs [] H1). cbn [app].
    rewrite fromEntries_NoDup by (rewrite H3; exact Hndw). reflexivity.
  - rewrite equal_Obj. apply andb_true_iff. split; [|apply own_equal_Forall; exact H2].
    apply Nat.eqb_eq.
    assert (Hperm : Permutation (keys ws) (keys lb)).
    { apply NoDup_Permutation;
        [apply NoDup_ListNoDup; exact Hndw | apply NoDup_ListNoDup; exact Hndb|].
      intros k. rewrite !list_elem_of_In. split; [|apply Hcover].
      intros Hk. unfold keys in Hk. apply in_map_iff in Hk as ([k' w] & <- & Hk).
      rewrite List.Forall_forall in Hall. destruct (Hall _ Hk) as (b & r & Hin & _).
      cbn [fst] in *. unfold keys. change k' with (fst (k', b)). apply in_map. exact Hin. }
    apply Permutation_length in Hperm. unfold keys in Hperm, H3.
    rewrite !length_map in Hperm.
    apply (f_equal (@length string)) in H3. rewrite !length_map in H3. lia.
Qed.

(** ** Positional patches on lists *)

Lemma find_seq (f : nat -> bool) (s n i : nat) :
  List.find f (seq s n) = Some i ->
  s <= i < s + n /\ f i = true /\ forall j, s <= j < i -> f j = false.
Proof.
  revert s. induction n as [|n IH]; intros s; cbn [seq List.find]; [discriminate|].
  destruct (f s) eqn:E.
  - intros [= <-]. split; [lia|]. split; [exact E | intros j Hj; lia].
  - intros H. destruct (IH (S s) H) as (H1 & H2 & H3).
    split; [lia|]. split; [exact H2|].
    intros j Hj. destruct (Nat.eq_dec j s) as [->|Hne]; [exact E | apply H3; lia].
Qed.

Lemma equal_Undefined_l (y : Value) : equal Undefined y = true -> y = Undefined.
Proof. destruct y; cbn; intros H; try discriminate; reflexivity. Qed.

Lemma equal_Undefined_r (x : Value) : equal x Undefined = true -> x = Undefined.
Proof. destruct x; cbn; intros H; try discriminate; reflexivity. Qed.

Lemma at_in_range (l : list Value) (j : nat) :
  j < length l -> In (at_ l j) l.
Proof. intros H. unfold at_. apply nth_In. exact H. Qed.

Lemma at_out_of_range (l : list Value) (j : nat) :
  length l <= j -> at_ l j = Undefined.
Proof. intros H. unfold at_. apply nth_overflow. exact H. Qed.

Lemma first_difference_spec (la lb : list Value) (i : nat) :
  Forall (fun x => x <> Undefined) la ->
  Forall (fun x => x <> Undefined) lb ->
  first_difference la lb = Some i ->
  i <= length la /\ i <= length lb
  /\ forall j, j < i -> equal (at_ la j) (at_ lb j) = true.
Proof.
  intros Ha Hb H. unfold first_difference in H.
  apply find_seq in H as (Hi & _ & Hbefore).
  assert (Hj : forall j, j < i -> equal (at_ la j) (at_ lb j) = true).
  { intros j Hj. specialize (Hbefore j). apply negb_false_iff. apply Hbefore. lia. }
  rewrite List.Forall_forall in Ha, Hb.
  split; [|split; [|exact Hj]].
  - destruct (le_lt_dec i (length la)) as [|Hlt]; [assumption|]. exfalso.
    specialize (Hj (length la) Hlt).
    rewrite (at_out_of_range la) in Hj by lia.
    apply equal_Undefined_l in Hj.
    destruct (le_lt_dec (length lb) (length la)) as [Hle|Hlt'].
    + lia.
    + apply (Hb (at_ lb (length la))); [apply at_in_range; exact Hlt' | exact Hj].
  - destruct (le_lt_dec i (length lb)) as [|Hlt]; [assumption|]. exfalso.
    specialize (Hj (length lb) Hlt).
    rewrite (at_out_of_range lb) in Hj by lia.
    apply equal_Undefined_r in Hj.
    destruct (le_lt_dec (length la) (length lb)) as [Hle|Hlt'].
    + lia.
    + apply (Ha (at_ la (length lb))); [apply at_in_range; exact Hlt' | exact Hj].
Qed.

Lemma Forall2_prefix_equal (la lb : list Value) (i : nat) :
  i <= length la -> i <= length lb ->
  (forall j, j < i -> equal (at_ la j) (at_ lb j) = true) ->
  Forall2 (fun x y => equal x y = true) (firstn i la) (firstn i lb).
Proof.
  revert la lb. induction i as [|i IH]; intros la lb Ha Hb H; [constructor|].
  destruct la as [|x la]; [cbn in Ha; lia|]. destruct lb as [|y lb]; [cbn in Hb; lia|].
  cbn [firstn]. constructor.
  - apply (H 0). lia.
  - apply IH; [cbn in Ha; lia | cbn in Hb; lia|].
    intros j Hj. apply (H (S j)). lia.
Qed.

Lemma firstn_exact {A} (l1 l2 : list A) (n : nat) :
  length l1 = n -> firstn n (l1 ++ l2) = l1.
Proof.
  intros <-. induction l1 as [|x l1 IH]; cbn; [destruct l2; reflexivity | f_equal; exact IH].
Qed.

Lemma spliced_payload (each l : list Value) (i n : nat) :
  spliced (push_payload each i n) l
  = firstn n (firstn i l ++ each ++ skipn i l).
Proof. unfold spliced, push_payload. cbn. rewrite !Nat2Z.id. reflexivity. Qed.

Lemma mapM_app {A B} (f : A -> result B) (l1 l2 : list A) (r1 r2 : list B) :
  mapM f l1 = Return r1 -> mapM f l2 = Return r2 ->
  mapM f (l1 ++ l2) = Return (r1 ++ r2).
Proof.
  rewrite !mapM_Forall2. apply Forall2_app.
Qed.

Lemma coded_list (l ws : list Value) :
  Forall roundtrips l -> mapM encode l = Return ws -> Forall2 coded l ws.
Proof.
  intros Hl H. apply mapM_Forall2 in H. revert Hl.
  induction H as [|x w l ws Hx H IH]; intros Hl; [constructor|].
  inversion Hl as [|? ? (w' & Hw' & Hd) Hl']; subst.
  constructor; [|apply IH; exact Hl'].
  split; [exact Hx|]. congruence.
Qed.

Lemma coded_decode (l ws : list Value) :
  Forall2 coded l ws -> mapM decode ws = Return l.
Proof.
  intros H. apply mapM_Forall2. induction H as [|x w l ws [_ Hd] H IH]; constructor; assumption.
Qed.

Lemma Forall2_firstn {A B} (R : A -> B -> Prop) (l1 : list A) (l2 : list B) (n : nat) :
  Forall2 R l1 l2 -> Forall2 R (firstn n l1) (firstn n l2).
Proof.
  intros H. revert n. induction H; intros [|n]; cbn; constructor; auto.
Qed.

Lemma Forall2_skipn {A B} (R : A -> B -> Prop) (l1 : list A) (l2 : list B) (n : nat) :
  Forall2 R l1 l2 -> Forall2 R (skipn n l1) (skipn n l2).
Proof.
  intros H. revert n. induction H; intros [|n]; cbn; try constructor; auto.
Qed.

(** The positional patch on encoded lists: splicing the encoded tail of
    [lb] into the encoded [la] at the first difference gives a list that
    decodes to the common prefix of [la] followed by the tail of [lb],
    which is [lb] up to deep equality of the members. *)
Lemma positional_lists (la lb wla each : list Value) (i : nat) :
  Forall roundtrips la -> Forall roundtrips lb ->
  Forall (fun x => x <> Undefined) la ->
  Forall (fun x => x <> Undefined) lb ->
  Forall (fun x => valid x = true) lb ->
  first_difference la lb = Some i ->
  mapM encode la = Return wla ->
  mapM encode (skipn i lb) = Return each ->
  mapM decode (spliced (push_payload each i (length lb)) wla)
  = Return (firstn i la ++ skipn i lb)
  /\ Forall2 (fun x y => equal x y = true) (firstn i la ++ skipn i lb) lb.
Proof.
  intros Hra Hrb Hua Hub Hvb Hfd Hwla Heach.
  destruct (first_difference_spec la lb i Hua Hub Hfd) as (Hia & Hib & Heq).
  pose proof (coded_list la wla Hra Hwla) as Hca.
  assert (Hrb' : Forall roundtrips (skipn i lb)).
  { rewrite List.Forall_forall in *. intros x Hx. apply Hrb.
    rewrite <- (firstn_skipn i lb). apply in_or_app. right. exact Hx. }
  pose proof (coded_list (skipn i lb) each Hrb' Heach) as Hcb.
  pose proof (Forall2_length _ _ _ Hca) as Lwa.
  pose proof (Forall2_length _ _ _ Hcb) as Leach.
  rewrite length_skipn in Leach.
  split.
  - rewrite spliced_payload. rewrite app_assoc.
    rewrite firstn_exact.
    + apply mapM_app; apply coded_decode; [apply Forall2_firstn; exact Hca | exact Hcb].
    + rewrite length_app, length_firstn. lia.
  - cut (Forall2 (fun x y => equal x y = true)
               (firstn i la ++ skipn i lb) (firstn i lb ++ skipn i lb));
      [rewrite (firstn_skipn i lb); auto|].
    apply Forall2_app.
    + apply Forall2_prefix_equal; assumption.
    + apply Forall2_diag. rewrite List.Forall_forall in *. intros x Hx.
      apply equal_refl. apply Hvb. rewrite <- (firstn_skipn i lb).
      apply in_or_app. right. exact Hx.
Qed.

Lemma equal_kind (x y : Value) :
  equal x y = true -> isObject x = isObject y /\ (isObject x = false -> x = y).
Proof.
  destruct x, y; intros H; try discriminate H; (split; [reflexivity|]);
    intros Ho; try discriminate Ho; try reflexivity; cbn in H.
  - apply Bool.eqb_prop in H. subst. reflexivity.
  - apply Z.eqb_eq in H. subst. reflexivity.
  - apply String.eqb_eq in H. subst. reflexivity.
Qed.

Lemma equal_alike (x y : Value) : equal x y = true -> alike x y.
Proof. intros H. destruct (equal_kind x y H). split; auto. Qed.

Lemma sameValueZero_object_r (a b : Value) :
  isObject b = true -> sameValueZero a b = false.
Proof. intros H. rewrite sameValueZero_sym. apply sameValueZero_object. exact H. Qed.

Lemma sameValueZero_alike (x y x' y' : Value) :
  alike x y -> alike x' y' -> sameValueZero x x' = sameValueZero y y'.
Proof.
  intros (_ & Ho & Hp) (_ & Ho' & Hp').
  destruct (isObject x) eqn:E.
  - rewrite (sameValueZero_object x x' E). symmetry. apply sameValueZero_object. congruence.
  - rewrite <- (Hp eq_refl). destruct (isObject x') eqn:E'.
    + rewrite (sameValueZero_object_r x x' E'). symmetry.
      apply sameValueZero_object_r. congruence.
    + rewrite <- (Hp' eq_refl). reflexivity.
Qed.

Lemma has_alike (l l' : list Value) (x y : Value) :
  Forall2 alike l l' -> alike x y -> has l x = has l' y.
Proof.
  intros H Hxy. unfold has. induction H as [|x' y' l l' Hx' H IH]; [reflexivity|].
  cbn [existsb]. rewrite IH. f_equal. apply sameValueZero_alike; assumption.
Qed.

Lemma distinct_alike (l l' : list Value) :
  Forall2 alike l l' -> distinct l = distinct l'.
Proof.
  induction 1 as [|x y l l' Hxy H IH]; [reflexivity|].
  cbn [distinct]. rewrite IH, (has_alike l l' x y H Hxy). reflexivity.
Qed.

Lemma Forall2_alike (l l' : list Value) :
  Forall2 (fun x y => equal x y = true) l l' -> Forall2 alike l l'.
Proof. induction 1; constructor; [apply equal_alike|]; assumption. Qed.

Lemma Forall2_In_l {A B} (R : A -> B -> Prop) (l : list A) (l' : list B) (x : A) :
  Forall2 R l l' -> In x l -> exists y, In y l' /\ R x y.
Proof.
  induction 1 as [|x0 y0 l l' Hxy H IH]; [intros []|].
  intros [<-|Hin]; [exists y0; split; [left; reflexivity | exact Hxy]|].
  destruct (IH Hin) as (y & Hy & Hr). exists y. split; [right; exact Hy | exact Hr].
Qed.

(** Sets whose members are deep-equal one by one, in order, are deep-equal. *)
Lemma equal_JSSet_pointwise (l l' : list Value) :
  Forall2 (fun x y => equal x y = true) l l' ->
  equal (JSSet l) (JSSet l') = true.
Proof.
  intros H. pose proof (Forall2_alike l l' H) as Ha.
  rewrite equal_JSSet. apply andb_true_iff. split; [apply andb_true_iff; split|].
  - apply Nat.eqb_eq. exact (Forall2_length _ _ _ H).
  - apply forallb_forall. intros x Hx.
    destruct (isObject x) eqn:E; [reflexivity|]. cbn [orb].
    destruct (Forall2_In_l _ _ _ x Ha Hx) as (y & Hy & (_ & _ & Hp)).
    rewrite <- (Hp E) in Hy. apply has_In; assumption.
  - apply match_all_positional, object_members_positional.
    clear H. induction Ha as [|x y l l' (He & Ho & _) Ha IH]; constructor; auto.
Qed.

Lemma equal_Arr_pointwise (l l' : list Value) :
  Forall2 (fun x y => equal x y = true) l l' ->
  equal (Arr l) (Arr l') = true.
Proof. intros H. rewrite equal_Arr. apply equal_items_Forall2. exact H. Qed.

Lemma equal_entry_array (k v k' v' : Value) :
  equal (Arr [k; v]) (Arr [k'; v']) = true ->
  equal k k' = true /\ equal v v' = true.
Proof.
  rewrite equal_Arr. cbn [equal_items]. rewrite !andb_true_iff. tauto.
Qed.

Lemma primitive_entries_pointwise (l2 l l' : list (Value * Value)) :
  distinct (List.map fst l2) = true ->
  Forall2 (fun e e' => alike (fst e) (fst e') /\ equal (snd e) (snd e') = true
                       /\ In e' l2) l l' ->
  primitive_entries l2 l = true.
Proof.
  intros Hd H. induction H as [|[k v] [k' v'] l l' ((_ & Ho & Hp) & Hv & Hin) H IH];
    [reflexivity|].
  cbn [primitive_entries fst snd] in *. fold (primitive_entries l2 l).
  rewrite IH, andb_true_r.
  destruct (isObject k) eqn:E; [reflexivity|].
  rewrite (Hp eq_refl) in *.
  rewrite (find_distinct_key l2 k' v' Hd Hin) by congruence. exact Hv.
Qed.

(** Maps whose entries are deep-equal one by one, in order, are deep-equal. *)
Lemma equal_JSMap_pointwise (l l' : list (Value * Value)) :
  distinct (List.map fst l') = true ->
  Forall2 (fun e e' => equal (fst e) (fst e') = true /\ equal (snd e) (snd e') = true) l l' ->
  equal (JSMap l) (JSMap l') = true.
Proof.
  intros Hd H. rewrite equal_JSMap.
  apply andb_true_iff. split; [apply andb_true_iff; split|].
  - apply Nat.eqb_eq. exact (Forall2_length _ _ _ H).
  - apply (primitive_entries_pointwise l' l l' Hd).
    assert (Hgen : forall l0 l0', (forall e', In e' l0' -> In e' l') ->
               Forall2 (fun e e' => equal (fst e) (fst e') = true
                                    /\ equal (snd e) (snd e') = true) l0 l0' ->
               Forall2 (fun e e' => alike (fst e) (fst e') /\ equal (snd e) (snd e') = true
                                    /\ In e' l') l0 l0').
    { intros l0 l0' Hsub H0. induction H0 as [|e e' l0 l0' [Hk Hv] H0 IH]; constructor.
      - split; [apply equal_alike; exact Hk|]. split; [exact Hv | apply Hsub; left; reflexivity].
      - apply IH. intros e0 He0. apply Hsub. right. exact He0. }
    apply Hgen; auto.
  - apply match_all_positional, object_entries_positional.
    clear Hd. induction H as [|e e' l l' [Hk Hv] H IH]; constructor; [|exact IH].
    destruct (equal_kind _ _ Hk) as [Ho _]. auto.
Qed.

(** ** The diff-apply law: one field *)

Lemma good_roundtrips (v : Value) : good v -> roundtrips v.
Proof. intros [H _]. apply supported_roundtrips. exact H. Qed.

Lemma good_valid (v : Value) : good v -> valid v = true.
Proof.
  intros [H _]. unfold supported in H.
  apply andb_true_iff in H as [H _]. apply andb_true_iff in H as [H _]. exact H.
Qed.

Lemma good_defined (v : Value) : good v -> v <> Undefined.
Proof. intros [H _] ->. discriminate H. Qed.

Lemma good_decode (v w : Value) : good v -> encode v = Return w -> decode w = Return v.
Proof.
  intros Hg He. destruct (good_roundtrips v Hg) as (w' & Hw' & Hd). congruence.
Qed.

Lemma agrees_none (P : string) (D : UpdateFilter) :
  agrees P D new_UpdateFilter -> forall q, below P q -> ~ touches D q.
Proof.
  intros H q Hq Ht. apply (same_at_touches _ _ _ (H q Hq)) in Ht.
  exact (touches_new q Ht).
Qed.

Lemma patched_field_untouched (D : UpdateFilter) (P : string) (w : Value) :
  P <> "" -> (forall q, below P q -> ~ touches D q) ->
  patched_field D P w = Some w.
Proof.
  intros HP H. unfold patched_field.
  destruct (not_touches_None D P (H P (below_refl P))) as (_ & -> & ->).
  rewrite patch_untouched by assumption. reflexivity.
Qed.

Lemma settle_none (D : UpdateFilter) (P : string) (a b : Value) :
  P <> "" -> b <> Undefined -> (a = Undefined \/ good a) ->
  equal a b = true ->
  agrees P D new_UpdateFilter ->
  settled D P a b.
Proof.
  intros HP Hb Ha He Hag. split.
  - intros Hna wa Hwa. destruct Ha as [Ha|Ha]; [contradiction|].
    exists wa, a. split; [|split; [apply good_decode; assumption | exact He]].
    apply patched_field_untouched; [exact HP | apply agrees_none; exact Hag].
  - intros ->. apply equal_Undefined_l in He. contradiction.
Qed.

Lemma settle_set (D : UpdateFilter) (P : string) (a b e : Value) :
  good b -> encode b = Return e ->
  agrees P D (assign_set P e new_UpdateFilter) ->
  settled D P a b.
Proof.
  intros Hb He Hag.
  destruct (Hag P (below_refl P)) as (_ & Hs & Hu). cbn in Hs, Hu.
  rewrite lookup_insert_eq in Hs. rewrite lookup_empty in Hu.
  pose proof (good_decode b e Hb He) as Hd.
  pose proof (equal_refl b (good_valid b Hb)) as Hr.
  split.
  - intros _ wa _. exists e, b. unfold patched_field. rewrite Hu, Hs. auto.
  - intros _. exists e, b. auto.
Qed.

Lemma agrees_push (P key : string) (payload : Value) (D : UpdateFilter) :
  below P key ->
  agrees P D (assign_push key payload new_UpdateFilter) ->
  op_push D !! key = Some payload
  /\ forall q, below P q ->
       op_set D !! q = None /\ op_unset D !! q = None
       /\ (q <> key -> op_push D !! q = None).
Proof.
  intros Hkey Hag. split.
  - destruct (Hag key Hkey) as (Hp & _ & _). cbn in Hp.
    rewrite lookup_insert_eq in Hp. exact Hp.
  - intros q Hq. destruct (Hag q Hq) as (Hp & Hs & Hu). cbn in Hp, Hs, Hu.
    rewrite lookup_empty in Hs, Hu. split; [exact Hs|]. split; [exact Hu|].
    intros Hne. rewrite lookup_insert_ne in Hp by congruence.
    rewrite lookup_empty in Hp. exact Hp.
Qed.

Lemma supported_members (l : list Value) :
  Forall (fun x => supported x = true) l ->
  Forall roundtrips l /\ Forall (fun x => x <> Undefined) l
  /\ Forall (fun x => valid x = true) l.
Proof.
  intros H. rewrite !List.Forall_forall in *. repeat split; intros x Hx.
  - apply supported_roundtrips, H, Hx.
  - intros ->. specialize (H _ Hx). discriminate H.
  - specialize (H _ Hx). unfold supported in H.
    apply andb_true_iff in H as [H _]. apply andb_true_iff in H as [H _]. exact H.
Qed.

Lemma encode_Arr_inv (l : list Value) (w : Value) :
  encode (Arr l) = Return w -> exists ws, mapM encode l = Return ws /\ w = Arr ws.
Proof.
  rewrite encode_Arr. unfold rmap. intros H. apply bind_Return in H as (ws & Hws & H).
  injection H as <-. eauto.
Qed.

Lemma decode_Arr (l : list Value) : decode (Arr l) = rmap Arr (mapM decode l).
Proof. reflexivity. Qed.

Lemma settle_push_array (D : UpdateFilter) (P : string) (la lb each : list Value)
    (i : nat) :
  P <> "" -> good (Arr la) -> good (Arr lb) ->
  first_difference la lb = Some i ->
  mapM encode (skipn i lb) = Return each ->
  agrees P D (assign_push P (push_payload each i (length lb)) new_UpdateFilter) ->
  settled D P (Arr la) (Arr lb).
Proof.
  intros HP [Ha _] [Hb _] Hfd Heach Hag. split; [|discriminate].
  intros _ wa Hwa. apply encode_Arr_inv in Hwa as (wla & Hwla & ->).
  destruct (agrees_push P P _ D (below_refl P) Hag) as (Hpush & Hrest).
  destruct (Hrest P (below_refl P)) as (Hs & Hu & _).
  destruct (supported_members la (supported_Arr la Ha)) as (Hra & Hua & _).
  destruct (supported_members lb (supported_Arr lb Hb)) as (Hrb & Hub & Hvb).
  destruct (positional_lists la lb wla each i Hra Hrb Hua Hub Hvb Hfd Hwla Heach)
    as (Hdec & Heq).
  eexists; eexists. split; [|split].
  - unfold patched_field. rewrite Hu, Hs, patch_Arr, Hpush. reflexivity.
  - rewrite decode_Arr, Hdec. reflexivity.
  - apply equal_Arr_pointwise. exact Heq.
Qed.

Lemma path_tag (P tag : string) :
  P <> "" -> path P tag = P +:+ String "."%char tag.
Proof. intros HP. unfold path. apply String.eqb_neq in HP. rewrite HP. reflexivity. Qed.

Lemma encode_JSSet_inv (l : list Value) (w : Value) :
  encode (JSSet l) = Return w ->
  exists ws, mapM encode l = Return ws /\ w = Obj [(SET_TAG, Arr ws)].
Proof.
  cbn [encode EJSONCompatible]. intros H. apply bind_Return in H as (ws & Hws & H).
  injection H as <-. eauto.
Qed.

(** The patched wire form of a tagged collection: the array under the tag
    is spliced, nothing else changes. *)
Lemma patch_tagged (D : UpdateFilter) (P tag : string) (payload : Value)
    (wla : list Value) :
  P <> "" ->
  agrees P D (assign_push (P +:+ String "."%char tag) payload new_UpdateFilter) ->
  patched_field D P (Obj [(tag, Arr wla)])
  = Some (Obj [(tag, Arr (spliced payload wla))]).
Proof.
  intros HP Hag.
  destruct (agrees_push P _ _ D (below_tag P tag) Hag) as (Hpush & Hrest).
  destruct (Hrest P (below_refl P)) as (Hs & Hu & _).
  destruct (Hrest _ (below_tag P tag)) as (Hs' & Hu' & _).
  unfold patched_field. rewrite Hu, Hs, patch_Obj.
  rewrite added_untouched.
  2:{ intros k _. apply (Hrest (path P k)). apply below_path_field. exact HP. }
  unfold patched_fields, patched_field. cbn [omap list_omap fst snd].
  rewrite (path_tag P tag HP), Hu', Hs', patch_Arr, Hpush. reflexivity.
Qed.

Lemma decode_set_tag (ws : list Value) :
  decode (Obj [(SET_TAG, Arr ws)]) = rmap new_Set (mapM decode ws).
Proof. reflexivity. Qed.

Lemma decode_map_tag (ws : list Value) :
  decode (Obj [(MAP_TAG, Arr ws)]) = (do ds <- mapM decode ws; new_Map ds).
Proof. reflexivity. Qed.

Lemma settle_push_set (D : UpdateFilter) (P : string) (la lb each : list Value)
    (i : nat) :
  P <> "" -> good (JSSet la) -> good (JSSet lb) ->
  first_difference la lb = Some i ->
  mapM encode (skipn i lb) = Return each ->
  agrees P D (assign_push (P +:+ "._JSSet") (push_payload each i (length lb))
                new_UpdateFilter) ->
  settled D P (JSSet la) (JSSet lb).
Proof.
  intros HP [Ha _] [Hb _] Hfd Heach Hag. split; [|discriminate].
  intros _ wa Hwa. apply encode_JSSet_inv in Hwa as (wla & Hwla & ->).
  destruct (supported_JSSet la Ha) as [Hsa _].
  destruct (supported_JSSet lb Hb) as [Hsb Hdb].
  destruct (supported_members la Hsa) as (Hra & Hua & _).
  destruct (supported_members lb Hsb) as (Hrb & Hub & Hvb).
  destruct (positional_lists la lb wla each i Hra Hrb Hua Hub Hvb Hfd Hwla Heach)
    as (Hdec & Heq).
  eexists; eexists. split; [|split].
  - exact (patch_tagged D P "_JSSet" _ wla HP Hag).
  - rewrite decode_set_tag, Hdec. cbn [rmap bind].
    rewrite new_Set_distinct; [reflexivity|].
    rewrite (distinct_alike _ lb (Forall2_alike _ _ Heq)). exact Hdb.
  - apply equal_JSSet_pointwise. exact Heq.
Qed.

Lemma encode_entries_arrays (l : list (Value * Value)) :
  mapM (fun kv => do k <- encode (fst kv); do v <- encode (snd kv);
                  Return (Arr [k; v])) l
  = mapM encode (Array_from_Map l).
Proof.
  induction l as [|[k v] l IH]; [reflexivity|].
  cbn [mapM Array_from_Map List.map fst snd] in *. rewrite IH, encode_Arr.
  cbn [mapM]. unfold rmap.
  destruct (encode k) as [ek|]; [|reflexivity]. cbn [bind].
  destruct (encode v) as [ev|]; reflexivity.
Qed.

Lemma encode_JSMap_inv (l : list (Value * Value)) (w : Value) :
  encode (JSMap l) = Return w ->
  exists ws, mapM encode (Array_from_Map l) = Return ws /\ w = Obj [(MAP_TAG, Arr ws)].
Proof.
  cbn [encode EJSONCompatible]. rewrite encode_entries_arrays.
  intros H. apply bind_Return in H as (ws & Hws & H). injection H as <-. eauto.
Qed.

Lemma supported_entry_array (k v : Value) :
  supported k = true -> supported v = true -> supported (Arr [k; v]) = true.
Proof.
  unfold supported. cbn [valid encodable untagged forallb].
  rewrite !andb_true_iff. tauto.
Qed.

Lemma supported_arrays (l : list (Value * Value)) :
  Forall (fun kv => supported (fst kv) = true /\ supported (snd kv) = true) l ->
  Forall (fun x => supported x = true) (Array_from_Map l).
Proof.
  induction 1 as [|[k v] l [Hk Hv] H IH]; [constructor|].
  constructor; [apply supported_entry_array; assumption | exact IH].
Qed.

Lemma Array_from_Map_splice (la lb : list (Value * Value)) (i : nat) :
  firstn i (Array_from_Map la) ++ skipn i (Array_from_Map lb)
  = Array_from_Map (firstn i la ++ skipn i lb).
Proof.
  unfold Array_from_Map. rewrite List.map_app, List.firstn_map, List.skipn_map.
  reflexivity.
Qed.

Lemma Forall2_entry_arrays (l l' : list (Value * Value)) :
  Forall2 (fun x y => equal x y = true) (Array_from_Map l) (Array_from_Map l') ->
  Forall2 (fun e e' => equal (fst e) (fst e') = true
                       /\ equal (snd e) (snd e') = true) l l'.
Proof.
  revert l'. induction l as [|[k v] l IH]; intros [|[k' v'] l'] H;
    cbn [Array_from_Map List.map] in H; inversion H; subst; constructor.
  - apply equal_entry_array. assumption.
  - apply IH. assumption.
Qed.

Lemma Forall2_keys_alike (l l' : list (Value * Value)) :
  Forall2 (fun e e' => equal (fst e) (fst e') = true
                       /\ equal (snd e) (snd e') = true) l l' ->
  Forall2 alike (List.map fst l) (List.map fst l').
Proof.
  induction 1 as [|e e' l l' [Hk _] H IH]; cbn [List.map]; constructor.
  - apply equal_alike. exact Hk.
  - exact IH.
Qed.

Lemma settle_push_map (D : UpdateFilter) (P : string) (la lb : list (Value * Value))
    (each : list Value) (i : nat) :
  P <> "" -> good (JSMap la) -> good (JSMap lb) ->
  first_difference (Array_from_Map la) (Array_from_Map lb) = Some i ->
  mapM encode (skipn i (Array_from_Map lb)) = Return each ->
  agrees P D (assign_push (P +:+ "._JSMap")
                (push_payload each i (length (Array_from_Map lb))) new_UpdateFilter) ->
  settled D P (JSMap la) (JSMap lb).
Proof.
  intros HP [Ha _] [Hb _] Hfd Heach Hag. split; [|discriminate].
  intros _ wa Hwa. apply encode_JSMap_inv in Hwa as (wla & Hwla & ->).
  destruct (supported_JSMap la Ha) as [Hsa _].
  destruct (supported_JSMap lb Hb) as [Hsb Hdb].
  destruct (supported_members _ (supported_arrays la Hsa)) as (Hra & Hua & _).
  destruct (supported_members _ (supported_arrays lb Hsb)) as (Hrb & Hub & Hvb).
  destruct (positional_lists _ _ wla each i Hra Hrb Hua Hub Hvb Hfd Hwla Heach)
    as (Hdec & Heq).
  rewrite Array_from_Map_splice in Hdec, Heq.
  apply Forall2_entry_arrays in Heq.
  pose proof (Forall2_keys_alike _ _ Heq) as Hkeys.
  eexists; eexists. split; [|split].
  - exact (patch_tagged D P "_JSMap" _ wla HP Hag).
  - rewrite decode_map_tag, Hdec. cbn [bind].
    apply new_Map_entries. rewrite (distinct_alike _ _ Hkeys). exact Hdb.
  - apply equal_JSMap_pointwise; assumption.
Qed.

(** ** The diff-apply law: plain objects *)


Lemma good_Obj (l : Props) :
  good (Obj l) ->
  List.NoDup (keys l)
  /\ forall k v, In (k, v) l -> good v /\ plain_key k = true /\ reserved k = false.
Proof.
  intros [Hs Hp]. destruct (supported_Obj l Hs) as [Hall Hnd]. split; [exact Hnd|].
  intros k v Hin. rewrite List.Forall_forall in Hall. destruct (Hall _ Hin) as [H1 H2].
  cbn [plain_keys] in Hp. apply forallb_Forall in Hp. rewrite List.Forall_forall in Hp.
  specialize (Hp _ Hin). cbn [fst snd] in *. apply andb_true_iff in Hp as [Hk Hv].
  repeat split; assumption.
Qed.

Lemma good_member (k : string) (l : Props) :
  good (Obj l) -> member k (Obj l) = Undefined \/ good (member k (Obj l)).
Proof.
  intros Hg. unfold member, prop. cbn [own].
  destruct (get k l) as [v|] eqn:E; [|left; reflexivity].
  right. apply get_In in E. destruct (good_Obj l Hg) as [_ H]. apply (H k v E).
Qed.

Lemma member_absent (k : string) (l : Props) :
  ~ In k (keys l) -> member k (Obj l) = Undefined.
Proof.
  intros H. unfold member, prop. cbn [own]. apply get_None in H. rewrite H. reflexivity.
Qed.

Lemma compatible_member (la lb : Props) (k : string) (v : Value) :
  compatible (Obj la) (Obj lb) = true -> In (k, v) lb ->
  compatible (member k (Obj la)) v = true.
Proof.
  cbn [compatible]. intros H Hin. apply forallb_Forall in H.
  rewrite List.Forall_forall in H. exact (H _ Hin).
Qed.

Lemma encode_Obj_inv (la : Props) (wa : Value) :
  List.NoDup (keys la) ->
  encode (Obj la) = Return wa ->
  exists wla, wa = Obj wla
    /\ Forall2 (fun kv kw => fst kw = fst kv /\ encode (snd kv) = Return (snd kw)) la wla.
Proof.
  intros Hnd. rewrite encode_Obj. intros H. apply bind_Return in H as (es & Hes & H).
  injection H as <-. apply mapM_Forall2 in Hes.
  assert (H2 : Forall2 (fun kv kw => fst kw = fst kv /\ encode (snd kv) = Return (snd kw)) la es).
  { clear Hnd. induction Hes as [|[k v] [k' w] la es Hx Hes IH]; constructor; [|exact IH].
    cbn [fst snd] in *. apply bind_Return in Hx as (w0 & Hw0 & Hx).
    injection Hx as <- <-. auto. }
  assert (Hk : keys es = keys la).
  { clear Hes Hnd. induction H2 as [|kv kw la es [Hk _] H2 IH]; [reflexivity|].
    unfold keys in *. cbn [List.map]. f_equal; [exact Hk | exact IH]. }
  exists es. split; [|exact H2]. rewrite fromEntries_NoDup by (rewrite Hk; exact Hnd).
  reflexivity.
Qed.

Lemma wire_keys (la wla : Props) :
  Forall2 (fun kv kw => fst kw = fst kv /\ encode (snd kv) = Return (snd kw)) la wla ->
  keys wla = keys la.
Proof.
  induction 1 as [|kv kw la wla [Hk _] H IH]; [reflexivity|].
  unfold keys in *. cbn [List.map]. f_equal; [exact Hk | exact IH].
Qed.

Lemma wire_field (la wla : Props) (k : string) (w : Value) :
  Forall2 (fun kv kw => fst kw = fst kv /\ encode (snd kv) = Return (snd kw)) la wla ->
  In (k, w) wla -> exists v, In (k, v) la /\ encode v = Return w.
Proof.
  induction 1 as [|[k0 v0] [k1 w1] la wla [Hk He] H IH]; [intros []|].
  cbn [fst snd] in *. subst k1. intros [E|Hin].
  - injection E as <- <-. exists v0. split; [left; reflexivity | exact He].
  - destruct (IH Hin) as (v & Hv & Hw). exists v. split; [right; exact Hv | exact Hw].
Qed.

Lemma wire_field_of (la wla : Props) (k : string) (v : Value) :
  Forall2 (fun kv kw => fst kw = fst kv /\ encode (snd kv) = Return (snd kw)) la wla ->
  In (k, v) la -> exists w, In (k, w) wla /\ encode v = Return w.
Proof.
  induction 1 as [|[k0 v0] [k1 w1] la wla [Hk He] H IH]; [intros []|].
  cbn [fst snd] in *. subst k1. intros [E|Hin].
  - injection E as <- <-. exists w1. split; [left; reflexivity | exact He].
  - destruct (IH Hin) as (w & Hw & Hv). exists w. split; [right; exact Hw | exact Hv].
Qed.

Lemma patched_fields_In (d : UpdateFilter) (p : string) (o : Props) (k : string) (w' : Value) :
  In (k, w') (patched_fields d p o)
  <-> exists w, In (k, w) o /\ patched_field d (path p k) w = Some w'.
Proof.
  unfold patched_fields. rewrite <- list_elem_of_In, list_elem_of_omap. split.
  - intros ([k0 w] & Hin & H). cbn [fst snd] in H.
    destruct (patched_field d (path p k0) w) as [w0|] eqn:E; [|discriminate].
    injection H as -> ->. exists w. split; [apply list_elem_of_In; exact Hin | exact E].
  - intros (w & Hin & H). exists (k, w). split; [apply list_elem_of_In; exact Hin|].
    cbn [fst snd]. rewrite H. reflexivity.
Qed.

Lemma patched_fields_keys (d : UpdateFilter) (p : string) (o : Props) :
  List.NoDup (keys o) -> List.NoDup (keys (patched_fields d p o)).
Proof.
  induction o as [|[k w] o IH]; intros Hnd; [constructor|].
  inversion Hnd as [|? ? Hk Hnd']; subst.
  unfold patched_fields. cbn [omap list_omap fst snd].
  fold (patched_fields d p o).
  destruct (patched_field d (path p k) w); [|apply IH; exact Hnd'].
  cbn. constructor; [|apply IH; exact Hnd'].
  intros Hin. apply Hk. unfold keys in *. apply in_map_iff in Hin as ([k' w'] & E & Hin).
  cbn [fst] in E. subst k'.
  apply patched_fields_In in Hin as (w0 & Hin & _).
  apply in_map_iff. exists (k, w0). split; [reflexivity | exact Hin].
Qed.

Lemma added_keys (d : UpdateFilter) (p : string) (o : Props) :
  List.NoDup (keys (added d p o)).
Proof.
  unfold added.
  pose proof (NoDup_fst_map_to_list (op_set d)) as Hnd.
  apply NoDup_ListNoDup in Hnd.
  induction (map_to_list (op_set d)) as [|[q v] l IH]; [constructor|].
  cbn [fmap list_fmap fst] in Hnd. inversion Hnd as [|? ? Hq Hnd']; subst.
  cbn [omap list_omap fst snd].
  destruct (child_key p q) as [k|] eqn:Ec; [|apply IH; exact Hnd'].
  destruct (includes k (keys o)); [apply IH; exact Hnd'|].
  cbn. constructor; [|apply IH; exact Hnd'].
  intros Hin. apply Hq. apply child_key_spec in Ec as [-> _].
  unfold keys in Hin. apply in_map_iff in Hin as ([k' v'] & E & Hin). cbn in E. subst k'.
  apply list_elem_of_In, list_elem_of_omap in Hin as ([q' v0] & Hin & H).
  cbn [fst snd] in H. destruct (child_key p q') as [k'|] eqn:Ec'; [|discriminate].
  destruct (includes k' _); [discriminate|]. injection H as -> ->.
  apply child_key_spec in Ec' as [-> _].
  apply list_elem_of_In in Hin.
  apply in_map_iff. exists (path p k, v'). split; [reflexivity | exact Hin].
Qed.

Lemma encodable_present (v : Value) : encodable v = true -> present v = true.
Proof.
  induction v as [| |b|n|s|h|ms|l IH|l IH|l IH|l IH] using Value_nested_ind;
    try (intros; reflexivity); try discriminate.
  cbn [encodable present]. intros H. apply forallb_Forall in H. apply forallb_Forall.
  rewrite List.Forall_forall in *. intros kv Hin. apply (IH kv Hin), (H kv Hin).
Qed.

Lemma good_present (v : Value) : good v -> present v = true.
Proof.
  intros [H _]. unfold supported in H. apply andb_true_iff in H as [H _].
  apply andb_true_iff in H as [_ H]. apply encodable_present. exact H.
Qed.

Lemma dotfree_app (x y : string) : dotfree (x +:+ y) = dotfree x && dotfree y.
Proof.
  induction x as [|c x IH]; [reflexivity|].
  rewrite append_cons. cbn [dotfree]. rewrite IH, andb_assoc. reflexivity.
Qed.

Lemma append_nil_r (x : string) : x +:+ "" = x.
Proof. induction x as [|c x IH]; [reflexivity|]. rewrite append_cons, IH. reflexivity. Qed.

Lemma below_dotted (p k q : string) :
  p <> "" -> below (path p k) q -> dotfree q = false.
Proof.
  intros Hp (t & -> & _). rewrite path_tag by exact Hp.
  rewrite append_assoc, dotfree_app, append_cons. cbn [dotfree].
  cbn. apply andb_false_r.
Qed.

Lemma below_not_self (p k q : string) :
  p <> "" -> below (path p k) q -> q <> p.
Proof.
  intros Hp (t & -> & _) E. rewrite path_tag in E by exact Hp.
  rewrite append_assoc in E.
  assert (E' : p +:+ (String "."%char k +:+ t) = p +:+ "")
    by (rewrite append_nil_r; exact E).
  apply (append_cancel p) in E'. rewrite append_cons in E'. discriminate E'.
Qed.

Lemma inside_below (p q : string) : p <> "" -> inside p q -> below p q.
Proof. intros Hp (k & _ & H). exact (below_path p k q Hp H). Qed.

Lemma walk_tame (p : string) (la lb : Props) :
  good (Obj la) -> good (Obj lb) ->
  (p = "" -> get "_id" la = get "_id" lb) ->
  Forall (tame p (Obj la)) lb.
Proof.
  intros Hga Hgb Hid. destruct (good_Obj lb Hgb) as [Hndb Hb].
  apply List.Forall_forall. intros [k v] Hin. destruct (Hb k v Hin) as (Hgv & Hk & _).
  split; [exact Hk|]. cbn [fst snd]. intros c Hc.
  destruct (plain_key_spec k Hk) as [Hdf Hne].
  assert (Hbelow : forall q, touches c q -> below (path p k) q).
  { destruct (changes_wf v (path p k) (member k (Obj la)) c) as [_ H]; try assumption.
    - destruct (good_member k la Hga) as [-> | [_ H]]; [reflexivity | exact H].
    - apply Hgv.
    - apply good_valid; exact Hgv.
    - apply H. apply path_not_empty. exact Hne. }
  split; [exact Hbelow|]. intros Ht. specialize (Hbelow _ Ht).
  destruct (String.string_dec p "") as [-> | Hp].
  - change (path "" k) with k in *. destruct Hbelow as (t & E & Ht').
    assert (Ek : k = "_id").
    { symmetry. apply (dotfree_tail_inj "_id" k "" t); try reflexivity; try assumption. }
    subst k.
    assert (Em : member "_id" (Obj la) = v).
    { unfold member, prop. cbn [own].
      rewrite (Hid eq_refl), (get_NoDup "_id" v lb Hndb Hin). reflexivity. }
    rewrite Em in Hc.
    rewrite (changes_unchanged v (good_valid v Hgv) (good_present v Hgv)) in Hc.
    injection Hc as <-. exact (touches_new _ Ht).
  - apply below_dotted in Hbelow; [discriminate Hbelow | exact Hp].
Qed.

(** What the walk over a good object says, field by field. *)
Lemma walk_spec (p : string) (la lb : Props) (c : UpdateFilter) :
  good (Obj la) -> good (Obj lb) ->
  (p = "" -> get "_id" la = get "_id" lb) ->
  changes_entries p (Obj la) lb
    (unset_removed p (keys la) (keys lb) new_UpdateFilter) = Return c ->
  (forall k v, In (k, v) lb ->
     exists ck, changes (path p k) (member k (Obj la)) v = Return ck
                /\ forall q, below (path p k) q -> same_at c ck q)
  /\ (forall k0, In k0 (keys la) -> ~ In k0 (keys lb) ->
        op_unset c !! path p k0 = Some (Str ""))
  /\ (forall q, touches c q ->
        (exists k, In k (keys lb) /\ below (path p k) q)
        \/ (exists k0, In k0 (keys la) /\ ~ In k0 (keys lb) /\ q = path p k0)).
Proof.
  intros Hga Hgb Hid Hc.
  destruct (good_Obj la Hga) as [Hnda Ha]. destruct (good_Obj lb Hgb) as [Hndb Hb].
  assert (Hpa : forall k, In k (keys la) -> plain_key k = true).
  { intros k Hk. unfold keys in Hk. apply in_map_iff in Hk as ([k' v] & <- & Hin).
    apply (Ha k' v Hin). }
  exact (entries_spec p (Obj la) lb c (walk_tame p la lb Hga Hgb Hid) Hndb Hpa Hc).
Qed.

Lemma good_plain (l : Props) (k : string) :
  good (Obj l) -> In k (keys l) -> plain_key k = true.
Proof.
  intros Hg Hk. unfold keys in Hk. apply in_map_iff in Hk as ([k' v] & <- & Hin).
  destruct (good_Obj l Hg) as [_ H]. apply (H k' v Hin).
Qed.

Lemma walk_inside (p : string) (la lb : Props) (c : UpdateFilter) :
  good (Obj la) -> good (Obj lb) ->
  (p = "" -> get "_id" la = get "_id" lb) ->
  changes_entries p (Obj la) lb
    (unset_removed p (keys la) (keys lb) new_UpdateFilter) = Return c ->
  forall q, touches c q -> inside p q.
Proof.
  intros Hga Hgb Hid Hc q Hq.
  destruct (walk_spec p la lb c Hga Hgb Hid Hc) as (_ & _ & E4).
  destruct (E4 q Hq) as [(k & Hk & Hbel) | (k0 & Hk0 & _ & ->)].
  - exists k. split; [apply (good_plain lb k Hgb Hk) | exact Hbel].
  - exists k0. split; [apply (good_plain la k0 Hga Hk0) | apply below_refl].
Qed.

Lemma keys_In (k : string) (l : Props) : In k (keys l) <-> exists v, In (k, v) l.
Proof.
  unfold keys. rewrite in_map_iff. split.
  - intros ([k' v] & E & Hin). cbn [fst] in E. subst k'. exists v. exact Hin.
  - intros (v & Hin). exists (k, v). split; [reflexivity | exact Hin].
Qed.

Lemma keys_app (l l' : Props) : keys (l ++ l') = keys l ++ keys l'.
Proof. unfold keys. apply List.map_app. Qed.

Lemma settle_object (p : string) (la lb : Props) (c D : UpdateFilter) (wa : Value) :
  Forall (fun kv => field_law (snd kv)) lb ->
  good (Obj la) -> good (Obj lb) ->
  compatible (Obj la) (Obj lb) = true ->
  (p = "" -> get "_id" la = get "_id" lb) ->
  changes_entries p (Obj la) lb
    (unset_removed p (keys la) (keys lb) new_UpdateFilter) = Return c ->
  (forall q, inside p q -> same_at D c q) ->
  encode (Obj la) = Return wa ->
  exists R, decode (patch D p wa) = Return R /\ equal R (Obj lb) = true.
Proof.
  intros IH Hga Hgb Hcomp Hid Hc HD Hwa.
  destruct (good_Obj la Hga) as [Hnda Ha]. destruct (good_Obj lb Hgb) as [Hndb Hb].
  destruct (encode_Obj_inv la wa Hnda Hwa) as (wla & -> & Hwire).
  pose proof (wire_keys la wla Hwire) as Hkeys.
  destruct (walk_spec p la lb c Hga Hgb Hid Hc) as (E1 & E2 & E4).
  assert (Hplain : forall k v, In (k, v) lb -> plain_key k = true)
    by (intros k v Hin; apply (Hb k v Hin)).
  (* every property of [lb] is settled at its path *)
  assert (Hchild : forall k vb, In (k, vb) lb ->
                     settled D (path p k) (member k (Obj la)) vb).
  { intros k vb Hin. rewrite List.Forall_forall in IH.
    destruct (E1 k vb Hin) as (ck & Hck & Hsame).
    destruct (plain_key_spec k (Hplain k vb Hin)) as [_ Hne].
    apply (IH (k, vb) Hin (path p k) (member k (Obj la)) ck D).
    - apply path_not_empty. exact Hne.
    - apply good_member. exact Hga.
    - apply (compatible_member la lb k vb Hcomp Hin).
    - exact Hck.
    - intros q Hq. apply (same_at_trans D c ck q); [|apply Hsame; exact Hq].
      apply HD. exists k. split; [apply (Hplain k vb Hin) | exact Hq]. }
  rewrite patch_Obj. apply object_result.
  - exact Hndb.
  - intros k Hk. apply keys_In in Hk as (v & Hin). apply (Hb k v Hin).
  - rewrite keys_app. apply NoDup_ListNoDup, NoDup_app. split; [|split].
    + apply NoDup_ListNoDup, patched_fields_keys. rewrite Hkeys. exact Hnda.
    + intros k Hk1 Hk2. apply list_elem_of_In in Hk1, Hk2.
      apply keys_In in Hk1 as (w1 & Hk1). apply keys_In in Hk2 as (w2 & Hk2).
      apply patched_fields_In in Hk1 as (w & Hw & _).
      apply added_spec in Hk2 as (_ & _ & Hk2). apply Hk2.
      apply keys_In. exists w. exact Hw.
    + apply NoDup_ListNoDup, added_keys.
  - apply List.Forall_forall. intros [k w'] Hin. apply in_app_or in Hin as [Hin | Hin].
    + apply patched_fields_In in Hin as (w & Hw & Hpf).
      destruct (wire_field la wla k w Hwire Hw) as (va & Hva & Eva).
      destruct (in_dec String.string_dec k (keys lb)) as [Hkb | Hkb].
      * apply keys_In in Hkb as (vb & Hvb).
        destruct (Hchild k vb Hvb) as [Hs _].
        rewrite (member_NoDup k va la Hnda Hva) in Hs.
        destruct (Ha k va Hva) as (Hgva & _).
        destruct (Hs (good_defined va Hgva) w Eva) as (w'' & r & Hpf' & Hdec & Heq).
        rewrite Hpf in Hpf'. injection Hpf' as <-.
        exists vb, r. cbn [fst snd]. auto.
      * exfalso.
        assert (Hka : In k (keys la)) by (apply keys_In; exists va; exact Hva).
        pose proof (E2 k Hka Hkb) as Hun.
        destruct (Ha k va Hva) as (_ & Hpk & _).
        destruct (HD (path p k)) as (_ & _ & HDun).
        { exists k. split; [exact Hpk | apply below_refl]. }
        unfold patched_field in Hpf. rewrite HDun, Hun in Hpf. discriminate Hpf.
    + apply added_spec in Hin as (Hset & Hpk & Hnk). rewrite Hkeys in Hnk.
      assert (Ht : touches c (path p k)).
      { destruct (HD (path p k)) as (_ & HDset & _).
        { exists k. split; [exact Hpk | apply below_refl]. }
        right. left. rewrite <- HDset, Hset. eexists. reflexivity. }
      assert (Hkb : In k (keys lb)).
      { destruct (E4 _ Ht) as [(k' & Hk' & Hbel) | (k0 & Hk0 & _ & E)].
        - rewrite (below_distinct_fields p k k' (path p k) Hpk
                     (good_plain lb k' Hgb Hk') (below_refl _) Hbel). exact Hk'.
        - exfalso. apply Hnk.
          rewrite (below_distinct_fields p k k0 (path p k) Hpk
                     (good_plain la k0 Hga Hk0) (below_refl _)); [exact Hk0|].
          rewrite E. apply below_refl. }
      apply keys_In in Hkb as (vb & Hvb).
      destruct (Hchild k vb Hvb) as [_ Hs].
      apply get_None in Hnk.
      destruct Hs as (e & r & He & _ & Hdec & Heq).
      { unfold member, prop. cbn [own]. rewrite Hnk. reflexivity. }
      rewrite Hset in He. injection He as <-.
      exists vb, r. cbn [fst snd]. auto.
  - intros k Hk. apply keys_In in Hk as (vb & Hvb). rewrite keys_app. apply in_or_app.
    destruct (Hchild k vb Hvb) as [Hs1 Hs2].
    destruct (in_dec String.string_dec k (keys la)) as [Hka | Hka].
    + left. apply keys_In in Hka as (va & Hva).
      rewrite (member_NoDup k va la Hnda Hva) in Hs1.
      destruct (Ha k va Hva) as (Hgva & _).
      destruct (wire_field_of la wla k va Hwire Hva) as (w & Hw & Ew).
      destruct (Hs1 (good_defined va Hgva) w Ew) as (w' & r & Hpf & _).
      apply keys_In. exists w'. apply patched_fields_In. exists w. auto.
    + right. destruct Hs2 as (e & r & He & _).
      { apply member_absent. exact Hka. }
      apply keys_In. exists e. apply added_spec. split; [exact He|].
      split; [apply (Hplain k vb Hvb) | rewrite Hkeys; exact Hka].
Qed.

(** ** The diff-apply law: documents *)

Lemma good_field_law (b : Value) : good b -> field_law b.
Proof.
  induction b as [| |x|n|s|h|ms|l IH|l IH|l IH|lb IH] using Value_nested_ind;
    intros Hgb P a c D HP Ha Hcomp Hch Hag;
    apply changes_inversion in Hch;
    inversion Hch; subst;
    try (eapply settle_none; eauto; fail);
    try (exfalso; eapply good_defined; eauto; fail);
    try (eapply settle_set; eauto; fail).
  - destruct Ha as [Ha|Ha]; [discriminate Ha|]. eapply settle_push_array; eauto.
  - destruct Ha as [Ha|Ha]; [discriminate Ha|]. eapply settle_push_set; eauto.
  - destruct Ha as [Ha|Ha]; [discriminate Ha|]. eapply settle_push_map; eauto.
  - (* the walk *)
    destruct a as [| | | | | | | | | |la]; try discriminate.
    destruct Ha as [Ha|Ha]; [discriminate Ha|].
    assert (Hlaw : Forall (fun kv => field_law (snd kv)) lb).
    { destruct (good_Obj lb Hgb) as [_ Hb]. rewrite List.Forall_forall in *.
      intros [k v] Hin. apply (IH (k, v) Hin). apply (Hb k v Hin). }
    assert (Hidv : P = "" -> get "_id" la = get "_id" lb) by (intros E; contradiction).
    cbn [own] in *.
    pose proof (walk_inside P la lb c Ha Hgb Hidv ltac:(eassumption)) as Hin.
    assert (Hself : ~ touches D P).
    { intros Ht. apply (same_at_touches D c P (Hag P (below_refl P))) in Ht.
      destruct (Hin P Ht) as (k & _ & Hbel).
      exact (below_not_self P k P HP Hbel eq_refl). }
    apply not_touches_None in Hself as (_ & Hset & Hun).
    split; [|intros E; discriminate E].
    intros _ wa Hwa.
    destruct (settle_object P la lb c D wa Hlaw Ha Hgb Hcomp Hidv ltac:(eassumption))
      as (R & HR & Heq); [|exact Hwa|].
    { intros q Hq. apply Hag. apply inside_below; assumption. }
    exists (patch D P wa), R. unfold patched_field. rewrite Hun, Hset. auto.
Qed.

Lemma assert_notEmpty_ok (p : string) : p <> "" -> assert_notEmpty p = Return tt.
Proof. intros H. unfold assert_notEmpty. apply String.eqb_neq in H. rewrite H. reflexivity. Qed.

Lemma mapM_skipn {A B} (f : A -> result B) (l : list A) (l' : list B) (i : nat) :
  mapM f l = Return l' -> mapM f (skipn i l) = Return (skipn i l').
Proof.
  intros H. apply mapM_Forall2. apply mapM_Forall2 in H. apply Forall2_skipn. exact H.
Qed.

Lemma positional_total (p key : string) (la lb ws : list Value) (b e : Value) :
  mapM encode lb = Return ws -> encode b = Return e ->
  exists c, positional p key la lb b = Return c.
Proof.
  intros Hws He. unfold positional. destruct (first_difference la lb) as [i|].
  - rewrite (mapM_skipn encode lb ws i Hws). cbn [bind]. eauto.
  - rewrite He. cbn [bind]. eauto.
Qed.

Lemma entries_total (p : string) (a : Value) (lb : Props) :
  (forall k v, In (k, v) lb ->
     exists c, changes (path p k) (member k a) v = Return c) ->
  forall diff, exists c, changes_entries p a lb diff = Return c.
Proof.
  induction lb as [|[k v] lb IH]; intros H diff; [cbn; eauto|].
  cbn [changes_entries]. destruct (H k v (or_introl eq_refl)) as (c & ->).
  cbn [bind]. apply IH. intros k' v' Hin. apply H. right. exact Hin.
Qed.

Lemma changes_total (b : Value) :
  good b ->
  forall (P : string) (a : Value),
    P <> "" -> a = Undefined \/ good a -> compatible a b = true ->
    exists c, changes P a b = Return c.
Proof.
  induction b as [| |x|n|s|h|ms|l IH|l IH|l IH|lb IH] using Value_nested_ind;
    intros Hgb P a HP Ha Hcomp;
    destruct (good_roundtrips _ Hgb) as (e & He & _).
  - exfalso. exact (good_defined _ Hgb eq_refl).
  - cbn -[equal encode positional]. rewrite orb_true_r. cbn -[equal encode positional].
    destruct (equal a _); [eauto|]. rewrite (assert_notEmpty_ok P HP), He. cbn [bind]. eauto.
  - cbn -[equal encode positional]. rewrite orb_true_r. cbn -[equal encode positional].
    destruct (equal a _); [eauto|]. rewrite (assert_notEmpty_ok P HP), He. cbn [bind]. eauto.
  - cbn -[equal encode positional]. rewrite orb_true_r. cbn -[equal encode positional].
    destruct (equal a _); [eauto|]. rewrite (assert_notEmpty_ok P HP), He. cbn [bind]. eauto.
  - cbn -[equal encode positional]. rewrite orb_true_r. cbn -[equal encode positional].
    destruct (equal a _); [eauto|]. rewrite (assert_notEmpty_ok P HP), He. cbn [bind]. eauto.
  - cbn -[equal encode positional]. rewrite orb_true_r. cbn -[equal encode positional].
    destruct (equal a _); [eauto|]. rewrite (assert_notEmpty_ok P HP), He. cbn [bind]. eauto.
  - cbn -[equal encode positional]. rewrite orb_true_r. cbn -[equal encode positional].
    destruct (equal a _); [eauto|]. rewrite (assert_notEmpty_ok P HP), He. cbn [bind]. eauto.
  - (* an array *)
    destruct (encode_Arr_inv l e He) as (ws & Hws & _).
    cbn -[equal encode positional]. rewrite orb_true_r. cbn -[equal encode positional].
    destruct (equal a _); [eauto|]. rewrite (assert_notEmpty_ok P HP). cbn [bind].
    destruct a; try (rewrite Hws; cbn [bind]; eauto; fail).
    exact (positional_total P P _ l ws (Arr l) e Hws He).
  - (* a set *)
    destruct (encode_JSSet_inv l e He) as (ws & Hws & _).
    cbn -[equal encode positional]. rewrite orb_true_r. cbn -[equal encode positional].
    destruct (equal a _); [eauto|]. rewrite (assert_notEmpty_ok P HP). cbn [bind].
    destruct a; try (rewrite He; cbn [bind]; eauto; fail).
    exact (positional_total P _ _ l ws (JSSet l) e Hws He).
  - (* a map *)
    destruct (encode_JSMap_inv l e He) as (ws & Hws & _).
    cbn -[equal encode positional]. rewrite orb_true_r. cbn -[equal encode positional].
    destruct (equal a _); [eauto|]. rewrite (assert_notEmpty_ok P HP). cbn [bind].
    destruct a; try (rewrite He; cbn [bind]; eauto; fail).
    exact (positional_total P _ _ _ ws (JSMap l) e Hws He).
  - (* a plain object *)
    destruct a as [| | | | | | | | | |la];
      try discriminate Hcomp;
      try (cbn -[equal encode positional];
           destruct (equal _ _); [eauto|];
           rewrite (assert_notEmpty_ok P HP), He; cbn [bind]; eauto; fail).
    + cbn -[equal encode positional].
      rewrite (assert_notEmpty_ok P HP), He. cbn [bind]. eauto.
    + destruct Ha as [Ha|Ha]; [discriminate Ha|].
      rewrite changes_Obj by reflexivity. apply entries_total.
      intros k v Hin. destruct (good_Obj lb Hgb) as [_ Hb].
      destruct (Hb k v Hin) as (Hgv & Hk & _).
      rewrite List.Forall_forall in IH. apply (IH (k, v) Hin Hgv).
      * apply path_not_empty. apply (plain_key_spec k Hk).
      * apply good_member. exact Ha.
      * apply (compatible_member la lb k v Hcomp Hin).
Qed.

Lemma diff_apply_total (before after : Value) :
  document before = true ->
  document after = true ->
  compatible before after = true ->
  (exists cs, changes "" before after = Return cs)
  /\ exists wb, encode before = Return wb.
Proof.
  destruct before as [| | | | | | | | | |la]; try discriminate.
  destruct after as [| | | | | | | | | |lb]; try discriminate.
  cbn [document]. intros Hb Ha Hcomp.
  apply andb_true_iff in Hb as [Hb _], Ha as [Ha _].
  apply andb_true_iff in Hb, Ha.
  assert (Hga : good (Obj la)) by exact Hb.
  assert (Hgb : good (Obj lb)) by exact Ha.
  split.
  - rewrite changes_Obj by reflexivity. apply entries_total.
    intros k v Hin. destruct (good_Obj lb Hgb) as [_ H].
    destruct (H k v Hin) as (Hgv & Hk & _).
    apply (changes_total v Hgv).
    + apply path_not_empty. apply (plain_key_spec k Hk).
    + apply good_member. exact Hga.
    + apply (compatible_member la lb k v Hcomp Hin).
  - destruct (good_roundtrips _ Hga) as (w & Hw & _). eauto.
Qed.

Lemma diff_apply_sound (before after : Value) (cs : UpdateFilter) (wb : Value) :
  document before = true ->
  document after = true ->
  matching_shape before after ->
  changes "" before after = Return cs ->
  encode before = Return wb ->
  exists r, decode (apply cs wb) = Return r /\ equal r after = true.
Proof.
  destruct before as [| | | | | | | | | |la]; try discriminate.
  destruct after as [| | | | | | | | | |lb]; try discriminate.
  cbn [document]. intros Hb Ha [Hcomp Hid] Hc Hwb.
  apply andb_true_iff in Hb as [Hb _], Ha as [Ha _].
  apply andb_true_iff in Hb, Ha.
  assert (Hga : good (Obj la)) by exact Hb.
  assert (Hgb : good (Obj lb)) by exact Ha.
  rewrite changes_Obj in Hc by reflexivity. cbn [own] in *.
  unfold apply. apply (settle_object "" la lb cs cs wb); auto.
  - destruct (good_Obj lb Hgb) as [_ H]. apply List.Forall_forall.
    intros [k v] Hin. apply good_field_law. apply (H k v Hin).
  - intros q _. apply same_at_refl.
Qed.

(** C1, as the code has it: for two documents (plain objects that hold no
    [undefined] and no reserved tag key, whose keys at any depth of object
    nesting are not empty, hold no dot and are not [__proto__]) of matching
    shape (where [after] has a plain object, [before] has a plain object, a
    wire primitive or nothing) that carry the same identifier [_id] or
    none, [changes] from the root returns a change set, and applying it to
    the wire form of [before] gives a wire document that decodes to a value
    deep-equal to [after]. *)
Theorem diff_apply_law (before after : Value) :
  document before = true ->
  document after = true ->
  matching_shape before after ->
  exists cs wb r,
    changes "" before after = Return cs
    /\ encode before = Return wb
    /\ decode (apply cs wb) = Return r
    /\ equal r after = true.
Proof.
  intros Hb Ha Hm.
  destruct (diff_apply_total before after Hb Ha (proj1 Hm)) as [(cs & Hcs) (wb & Hwb)].
  destruct (diff_apply_sound before after cs wb Hb Ha Hm Hcs Hwb) as (r & Hr & He).
  exists cs, wb, r. auto.
Qed.

Lemma diff_apply_law_witness :
  exists cs wb r,
    changes "" profile_before profile_after = Return cs
    /\ encode profile_before = Return wb
    /\ decode (apply cs wb) = Return r
    /\ equal r profile_after = true.
Proof.
  apply (diff_apply_law profile_before profile_after);
    [vm_compute; reflexivity | vm_compute; reflexivity
     | split; vm_compute; reflexivity].
Defined.

(** C1 as stated fails: two documents of one shape that differ in the
    identifier give the empty change set, because [parse] drops the
    identifier from every operator; applying it leaves [before]. *)
Lemma diff_apply_counterexample :
  ~ (forall (before after : Value) (cs : UpdateFilter) (wb : Value),
       document before = true -> document after = true ->
       compatible before after = true ->
       changes "" before after = Return cs ->
       encode before = Return wb ->
       exists r, decode (apply cs wb) = Return r /\ equal r after = true)
  /\ changes "" (Obj [("_id", ObjectId "65f0"); ("n", Num 1)])
                (Obj [("_id", ObjectId "65f1"); ("n", Num 1)])
     = Return new_UpdateFilter.
Proof.
  split; [|vm_compute; reflexivity].
  intros H.
  destruct (H (Obj [("_id", ObjectId "65f0"); ("n", Num 1)])
              (Obj [("_id", ObjectId "65f1"); ("n", Num 1)])
              new_UpdateFilter
              (Obj [("_id", ObjectId "65f0"); ("n", Num 1)]))
    as (r & Hr & He); try (vm_compute; reflexivity).
  vm_compute in Hr. injection Hr as <-. vm_compute in He. discriminate He.
Qed.

(** ** More on the transcoder *)

Lemma mapM_all_or_throw {A B} (f : A -> result B) (g : A -> bool) (l : list A) :
  Forall (fun x => match f x with
                   | Return _ => g x = true
                   | Throw e => g x = false /\ e = AssertionError
                   end) l ->
  match mapM f l with
  | Return _ => forallb g l = true
  | Throw e => forallb g l = false /\ e = AssertionError
  end.
Proof.
  induction 1 as [|x l Hx Hl IH]; [reflexivity|].
  cbn [mapM forallb]. destruct (f x) as [y|e]; cbn [bind].
  - rewrite Hx. destruct (mapM f l) as [ys|e]; cbn [bind]; exact IH.
  - destruct Hx as [-> ->]. auto.
Qed.

(** X1: on a value built from [undefined], [null], booleans, integers,
    strings, object ids, dates, arrays, sets, maps and plain objects,
    [encode] returns exactly when the value holds no [undefined], at any
    depth of arrays, sets, maps and objects; on the others it fails its
    assertion. *)
Theorem encode_returns_iff_encodable (v : Value) :
  match encode v with
  | Return _ => encodable v = true
  | Throw e => encodable v = false /\ e = AssertionError
  end.
Proof.
  induction v as [| |b|n|s|h|ms|l IH|l IH|l IH|l IH] using Value_nested_ind;
    try (cbn; auto; fail).
  - rewrite encode_Arr. cbn [encodable].
    pose proof (mapM_all_or_throw encode encodable l IH) as H.
    destruct (mapM encode l); exact H.
  - cbn [encode EJSONCompatible encodable].
    pose proof (mapM_all_or_throw encode encodable l IH) as H.
    destruct (mapM encode l); exact H.
  - cbn [encode EJSONCompatible encodable].
    match goal with |- context [mapM ?f l] =>
      pose proof (mapM_all_or_throw f
                    (fun kv => encodable (fst kv) && encodable (snd kv)) l) as H
    end.
    match type of H with ?P -> _ => assert (HP : P) end.
    { eapply Forall_impl; [exact IH|]. intros [k x] [Hk Hx]. cbn [fst snd] in *.
      destruct (encode k); cbn [bind].
      - rewrite Hk. destruct (encode x); cbn [bind]; [exact Hx|].
        destruct Hx as [-> ->]. auto.
      - destruct Hk as [-> ->]. auto. }
    specialize (H HP).
    match goal with |- context [mapM ?f l] => destruct (mapM f l) end; exact H.
  - rewrite encode_Obj. cbn [encodable].
    match goal with |- context [mapM ?f l] =>
      pose proof (mapM_all_or_throw f (fun kv => encodable (snd kv)) l) as H
    end.
    match type of H with ?P -> _ => assert (HP : P) end.
    { eapply Forall_impl; [exact IH|]. intros [k x] Hx. cbn [fst snd] in *.
      destruct (encode x); cbn [bind]; exact Hx. }
    specialize (H HP).
    match goal with |- context [mapM ?f l] => destruct (mapM f l) end; exact H.
Qed.

Lemma put_In (k : string) (v : Value) (o : Props) (k' : string) (v' : Value) :
  In (k', v') (put k v o) -> (k', v') = (k, v) \/ In (k', v') o.
Proof.
  induction o as [|[k0 v0] o IH]; cbn [put].
  - intros [H|[]]. left. symmetry. exact H.
  - destruct (String.eqb k k0).
    + intros [H|H]; [left; symmetry; exact H | right; right; exact H].
    + intros [H|H]; [right; left; exact H|].
      destruct (IH H) as [E|E]; [left; exact E | right; right; exact E].
Qed.

Lemma put_keys (k : string) (v : Value) (o : Props) :
  keys (put k v o) = if includes k (keys o) then keys o else keys o ++ [k].
Proof.
  induction o as [|[k0 v0] o IH]; [reflexivity|].
  cbn [put]. unfold keys, includes in *. cbn [List.map existsb fst].
  destruct (String.eqb k k0) eqn:E.
  - apply String.eqb_eq in E. subst k0. reflexivity.
  - cbn [List.map fst orb]. rewrite IH.
    destruct (existsb (String.eqb k) (List.map fst o)); reflexivity.
Qed.

Lemma put_NoDup (k : string) (v : Value) (o : Props) :
  List.NoDup (keys o) -> List.NoDup (keys (put k v o)).
Proof.
  intros H. rewrite put_keys. destruct (includes k (keys o)) eqn:E; [exact H|].
  apply includes_false in E. apply NoDup_ListNoDup, NoDup_app.
  apply NoDup_ListNoDup in H. split; [exact H|]. split.
  - intros x Hx Hx'. apply list_elem_of_In in Hx. apply list_elem_of_singleton in Hx'.
    subst x. exact (E Hx).
  - apply NoDup_singleton.
Qed.

Lemma fold_put_spec (es acc : Props) :
  List.NoDup (keys acc) ->
  List.NoDup (keys (fold_left (fun o kv => put (fst kv) (snd kv) o) es acc))
  /\ forall k v,
       In (k, v) (fold_left (fun o kv => put (fst kv) (snd kv) o) es acc) ->
       In (k, v) acc \/ In (k, v) es.
Proof.
  revert acc. induction es as [|[k0 v0] es IH]; intros acc Hacc; cbn [fold_left].
  - split; [exact Hacc | auto].
  - destruct (IH (put k0 v0 acc) (put_NoDup k0 v0 acc Hacc)) as [H1 H2].
    split; [exact H1|]. intros k v Hin. cbn [fst snd] in *.
    destruct (H2 k v Hin) as [H|H]; [|right; right; exact H].
    destruct (put_In _ _ _ _ _ H) as [E|E]; [right; left; symmetry; exact E | left; exact E].
Qed.

Lemma fromEntries_spec (es : Props) :
  List.NoDup (keys (fromEntries es))
  /\ forall k v, In (k, v) (fromEntries es) -> In (k, v) es.
Proof.
  destruct (fold_put_spec es [] (List.NoDup_nil _)) as [H1 H2]. split; [exact H1|].
  intros k v Hin. destruct (H2 k v Hin) as [[]|H]. exact H.
Qed.

Lemma wire_valid_list (l ws : list Value) :
  Forall (fun v => forall w, encode v = Return w -> wire w = true /\ valid w = true) l ->
  Forall2 (fun x y => encode x = Return y) l ws ->
  Forall (fun y => wire y = true) ws /\ Forall (fun y => valid y = true) ws.
Proof.
  intros IH H. induction H as [|x y l ws Hxy Hws IHl]; [split; constructor|].
  inversion IH as [|? ? Hx Hl]; subst. destruct (Hx y Hxy) as [H1 H2].
  destruct (IHl Hl) as [H3 H4]. split; constructor; assumption.
Qed.

(** What [encode] returns is a wire value in which no object has a key
    twice. *)
Lemma encode_wire_valid (v : Value) :
  forall w, encode v = Return w -> wire w = true /\ valid w = true.
Proof.
  induction v as [| |b|n|s|h|ms|l IH|l IH|l IH|l IH] using Value_nested_ind;
    intros w Hw; try (cbn in Hw; injection Hw as <-; split; reflexivity);
    try discriminate Hw.
  - rewrite encode_Arr in Hw. apply bind_Return in Hw as (ws & Hws & Hw).
    injection Hw as <-. apply mapM_Forall2 in Hws. cbn [wire valid].
    rewrite !forallb_Forall. exact (wire_valid_list l ws IH Hws).
  - destruct (encode_JSSet_inv l w Hw) as (ws & Hws & ->).
    apply mapM_Forall2 in Hws. cbn [wire valid forallb snd keys List.map fst].
    rewrite ?andb_true_r. change (nodup_keys [SET_TAG]) with true. rewrite ?andb_true_r.
    rewrite !forallb_Forall. exact (wire_valid_list l ws IH Hws).
  - destruct (encode_JSMap_inv l w Hw) as (ws & Hws & ->).
    apply mapM_Forall2 in Hws. cbn [wire valid forallb snd keys List.map fst].
    rewrite ?andb_true_r. change (nodup_keys [MAP_TAG]) with true. rewrite ?andb_true_r.
    rewrite !forallb_Forall. apply (wire_valid_list (Array_from_Map l) ws); [|exact Hws].
    clear Hw Hws. induction IH as [|[k e] l [Hk He] Hl IHl]; [constructor|].
    cbn [fst snd] in *. cbn [Array_from_Map List.map fst snd]. constructor; [|exact IHl].
    intros w' Hw'. rewrite encode_Arr in Hw'. apply bind_Return in Hw' as (kv & Hkv & Hw').
    injection Hw' as <-. cbn [mapM] in Hkv.
    apply bind_Return in Hkv as (k' & Hk' & Hkv).
    apply bind_Return in Hkv as (rest & Hrest & Hkv). injection Hkv as <-.
    apply bind_Return in Hrest as (e' & He' & Hrest).
    cbn [bind] in Hrest. injection Hrest as <-.
    destruct (Hk k' Hk') as [A1 A2]. destruct (He e' He') as [B1 B2].
    cbn. rewrite A1, A2, B1, B2. split; reflexivity.
  - rewrite encode_Obj in Hw. apply bind_Return in Hw as (es & Hes & Hw).
    injection Hw as <-. apply mapM_Forall2 in Hes.
    destruct (fromEntries_spec es) as [Hnd Hin].
    assert (Hall : forall k y, In (k, y) es -> wire y = true /\ valid y = true).
    { clear Hnd Hin. induction Hes as [|[k0 x] [k1 y] l es Hxy Hes IHl]; [intros ? ? []|].
      inversion IH as [|? ? Hx Hl]; subst. cbn [fst snd] in *.
      apply bind_Return in Hxy as (y' & Hy' & Hxy). injection Hxy as <- <-.
      intros k y0 [E|Hi]; [injection E as <- <-; exact (Hx y' Hy') | exact (IHl Hl k y0 Hi)]. }
    cbn [wire valid]. rewrite andb_true_iff, !forallb_Forall, !List.Forall_forall.
    split; [|split].
    + intros [k y] Hi. apply (Hall k y), Hin, Hi.
    + intros [k y] Hi. apply (Hall k y), Hin, Hi.
    + apply nodup_keys_NoDup. exact Hnd.
Qed.

(** X2: a value that [encode] returns holds no [undefined], no [Set] and no
    [Map] at any depth: sets and maps have become tagged objects. *)
Theorem encode_yields_wire (v w : Value) :
  encode v = Return w -> wire w = true.
Proof. intros H. apply (encode_wire_valid v w H). Qed.

Lemma encode_yields_wire_witness :
  exists w, encode roundtrip_sample = Return w /\ wire w = true.
Proof.
  eexists. split; [vm_compute; reflexivity|].
  apply (encode_yields_wire roundtrip_sample). vm_compute. reflexivity.
Defined.

Lemma mapM_fixed {A} (f : A -> result A) (l : list A) :
  Forall (fun x => f x = Return x) l -> mapM f l = Return l.
Proof.
  induction 1 as [|x l Hx Hl IH]; [reflexivity|].
  cbn [mapM]. rewrite Hx. cbn [bind]. rewrite IH. reflexivity.
Qed.

(** A wire value in which no object has a key twice is encoded to
    itself. *)
Lemma encode_wire_fixed (w : Value) :
  wire w = true -> valid w = true -> encode w = Return w.
Proof.
  induction w as [| |b|n|s|h|ms|l IH|l IH|l IH|l IH] using Value_nested_ind;
    intros Hw Hv; try reflexivity; try discriminate Hw.
  - rewrite encode_Arr. cbn [wire valid] in Hw, Hv. apply forallb_Forall in Hw, Hv.
    rewrite mapM_fixed; [reflexivity|]. rewrite List.Forall_forall in *.
    intros x Hx. apply (IH x Hx); [apply Hw | apply Hv]; exact Hx.
  - rewrite encode_Obj. cbn [wire valid] in Hw, Hv. apply andb_true_iff in Hv as [Hv Hnd].
    apply forallb_Forall in Hw, Hv. apply nodup_keys_NoDup in Hnd.
    rewrite mapM_fixed; [cbn [bind]; rewrite (fromEntries_NoDup l Hnd); reflexivity|].
    rewrite List.Forall_forall in *. intros [k x] Hx. cbn [fst snd].
    pose proof (IH (k, x) Hx (Hw (k, x) Hx) (Hv (k, x) Hx)) as E. cbn [snd] in E.
    rewrite E. reflexivity.
Qed.

(** X3: on a value built from [null], booleans, integers, strings, object
    ids, dates, arrays, sets, maps and plain objects, [encode] is
    idempotent: encoding the value it returned gives that value again. *)
Theorem encode_idempotent (v w : Value) :
  encode v = Return w -> encode w = Return w.
Proof.
  intros H. destruct (encode_wire_valid v w H) as [Hw Hv].
  exact (encode_wire_fixed w Hw Hv).
Qed.

Lemma encode_idempotent_witness :
  exists w, encode roundtrip_sample = Return w /\ encode w = Return w.
Proof.
  eexists. split; [vm_compute; reflexivity|].
  apply (encode_idempotent roundtrip_sample). vm_compute. reflexivity.
Defined.

(** X4: [decode] leaves a wire value without reserved tag keys as it is:
    a stored document that holds no encoded set or map reads back
    unchanged. *)
Theorem decode_plain_wire (w : Value) :
  wire w = true -> valid w = true -> untagged w = true -> decode w = Return w.
Proof.
  induction w as [| |b|n|s|h|ms|l IH|l IH|l IH|l IH] using Value_nested_ind;
    intros Hw Hv Hu; try reflexivity; try discriminate Hw.
  - cbn [wire valid untagged] in Hw, Hv, Hu. apply forallb_Forall in Hw, Hv, Hu.
    change (decode (Arr l)) with (rmap Arr (mapM decode l)).
    rewrite mapM_fixed; [reflexivity|]. rewrite List.Forall_forall in *.
    intros x Hx. apply (IH x Hx); [apply Hw | apply Hv | apply Hu]; exact Hx.
  - cbn [wire valid untagged] in Hw, Hv, Hu. apply andb_true_iff in Hv as [Hv Hnd].
    apply forallb_Forall in Hw, Hv, Hu. apply nodup_keys_NoDup in Hnd.
    rewrite decode_Obj, (decode_entries_all l l []).
    + cbn [app]. rewrite (fromEntries_NoDup l Hnd). reflexivity.
    + rewrite List.Forall_forall in *. apply Forall2_diag. apply List.Forall_forall.
      intros [k x] Hx. cbn [fst snd]. specialize (Hu (k, x) Hx). cbn [fst snd] in Hu.
      apply andb_true_iff in Hu as [Hk Hux]. apply negb_true_iff in Hk.
      split; [reflexivity|]. split; [exact Hk|].
      apply (IH (k, x) Hx (Hw (k, x) Hx) (Hv (k, x) Hx) Hux).
Qed.

Lemma decode_plain_wire_witness :
  decode (Obj [("_id", ObjectId "65f0"); ("a", Arr [Num 1; Obj [("b", Null)]])])
  = Return (Obj [("_id", ObjectId "65f0"); ("a", Arr [Num 1; Obj [("b", Null)]])]).
Proof. apply decode_plain_wire; reflexivity. Defined.

Lemma distinct_snoc (acc : list Value) (v : Value) :
  distinct acc = true -> has acc v = false -> distinct (acc ++ [v]) = true.
Proof.
  induction acc as [|x acc IH]; intros Hd Hv; [reflexivity|].
  cbn [distinct app] in *. apply andb_true_iff in Hd as [Hx Hd].
  unfold has in Hv. cbn [existsb] in Hv. apply orb_false_iff in Hv as [Hvx Hv].
  rewrite has_app, (IH Hd Hv), andb_true_r. apply negb_true_iff in Hx. rewrite Hx.
  unfold has. cbn [existsb]. rewrite sameValueZero_sym, Hvx. reflexivity.
Qed.

Lemma has_object (l : list Value) (x : Value) : isObject x = true -> has l x = false.
Proof.
  intros H. unfold has. induction l as [|y l IH]; [reflexivity|].
  cbn [existsb]. rewrite (sameValueZero_object x y H), IH. reflexivity.
Qed.

Lemma fold_set_add_spec (l acc : list Value) :
  distinct acc = true ->
  exists s', fold_left set_add l acc = acc ++ s'
    /\ distinct (acc ++ s') = true
    /\ sublist s' l
    /\ forall x, In x l -> if isObject x then In x s' else has (acc ++ s') x = true.
Proof.
  revert acc. induction l as [|v l IH]; intros acc Hd; cbn [fold_left].
  - exists []. rewrite app_nil_r. repeat split; [exact Hd | constructor | intros x []].
  - unfold set_add at 2. destruct (has acc v) eqn:Hv.
    + destruct (IH acc Hd) as (s' & E & Hd' & Hsub & Hall).
      exists s'. split; [exact E|]. split; [exact Hd'|].
      split; [apply sublist_cons; exact Hsub|].
      intros x [<-|Hx]; [|apply Hall; exact Hx].
      destruct (isObject v) eqn:Ho; [rewrite (has_object acc v Ho) in Hv; discriminate|].
      rewrite has_app, Hv. reflexivity.
    + destruct (IH (acc ++ [v]) (distinct_snoc acc v Hd Hv)) as (s' & E & Hd' & Hsub & Hall).
      rewrite <- app_assoc in E, Hd'. cbn [app] in E, Hd'.
      exists (v :: s'). split; [exact E|]. split; [exact Hd'|].
      split; [apply sublist_skip; exact Hsub|].
      intros x [<-|Hx].
      * destruct (isObject v) eqn:Ho; [left; reflexivity|].
        rewrite has_app. unfold has at 2. cbn [existsb].
        rewrite (sameValueZero_refl v Ho). cbn. apply orb_true_r.
      * specialize (Hall x Hx). destruct (isObject x); [right; exact Hall|].
        rewrite <- app_assoc in Hall. exact Hall.
Qed.

Lemma fold_set_add_first (l : list Value) :
  forall acc seen,
    (forall x, has acc x = has seen x) ->
    fold_left set_add l acc = acc ++ first_occurrences seen l.
Proof.
  induction l as [|v l IH]; intros acc seen Hs; cbn [fold_left first_occurrences].
  - rewrite app_nil_r. reflexivity.
  - unfold set_add at 2. rewrite <- (Hs v). destruct (has acc v) eqn:Hv.
    + cbn [app]. apply IH. intros x. rewrite has_app, <- Hs.
      unfold has at 3. cbn [existsb]. rewrite orb_false_r.
      destruct (sameValueZero x v) eqn:E; [|rewrite orb_false_r; reflexivity].
      apply sameValueZero_eq in E. subst x. rewrite Hv. reflexivity.
    + rewrite (IH (acc ++ [v]) (seen ++ [v])).
      * rewrite <- app_assoc. reflexivity.
      * intros x. rewrite !has_app, Hs. reflexivity.
Qed.

(** X5: an object tagged [_JSSet] whose array elements decode decodes to
    a set with set semantics: its members are, in the order of the array,
    the decoded elements that are not the same value (SameValueZero) as an
    element before them, so of the elements that are the same primitive
    the first stays and the later ones are dropped; no two members are the
    same value, and every decoded element is in the set (an object is never
    the same value as another element, and stays). *)
Theorem decode_set_collapses (ws ds : list Value) :
  mapM decode ws = Return ds ->
  exists s, decode (Obj [(SET_TAG, Arr ws)]) = Return (JSSet s)
    /\ s = first_occurrences [] ds
    /\ distinct s = true
    /\ sublist s ds
    /\ forall x, In x ds -> if isObject x then In x s else has s x = true.
Proof.
  intros H. rewrite decode_set_tag, H. cbn [rmap bind]. unfold new_Set.
  destruct (fold_set_add_spec ds [] eq_refl) as (s & E & Hd & Hsub & Hall).
  exists s. rewrite E. repeat split; auto.
  rewrite (fold_set_add_first ds [] []) in E by reflexivity. symmetry. exact E.
Qed.

Lemma decode_set_collapses_witness :
  decode (Obj [(SET_TAG, Arr [Num 1; Num 2; Num 1; Obj []; Num 2; Obj []; Num 3])])
  = Return (JSSet [Num 1; Num 2; Obj []; Obj []; Num 3])
  /\ distinct [Num 1; Num 2; Obj []; Obj []; Num 3] = true.
Proof.
  destruct (decode_set_collapses
              [Num 1; Num 2; Num 1; Obj []; Num 2; Obj []; Num 3]%Z
              [Num 1; Num 2; Num 1; Obj []; Num 2; Obj []; Num 3]%Z eq_refl)
    as (s & E & Hs & Hd & _).
  subst s. split; [exact E | exact Hd].
Defined.

(** X6: deep equality does not look at the order of the keys: two objects
    with the same properties in any order are equal. *)
Theorem equal_key_order (l1 l2 : Props) :
  valid (Obj l1) = true -> Permutation l1 l2 -> equal (Obj l1) (Obj l2) = true.
Proof.
  intros Hv Hp. rewrite equal_Obj. cbn [valid] in Hv.
  apply andb_true_iff in Hv as [Hv Hnd]. apply forallb_Forall in Hv.
  apply nodup_keys_NoDup in Hnd.
  rewrite (Permutation_length Hp), Nat.eqb_refl. cbn [andb].
  apply own_equal_Forall. apply List.Forall_forall. intros [k v] Hin. cbn [fst snd].
  exists v. split.
  - apply get_NoDup.
    + unfold keys. apply NoDup_ListNoDup. rewrite <- Hp. apply NoDup_ListNoDup. exact Hnd.
    + apply list_elem_of_In. rewrite <- Hp. apply list_elem_of_In. exact Hin.
  - apply equal_refl. rewrite List.Forall_forall in Hv. apply (Hv (k, v) Hin).
Qed.

Lemma equal_key_order_witness :
  equal (Obj [("a", Num 1); ("b", JSSet [Num 2]); ("c", Null)])
        (Obj [("c", Null); ("a", Num 1); ("b", JSSet [Num 2])]) = true.
Proof.
  apply equal_key_order; [reflexivity|].
  symmetry. apply (Permutation_cons_append [("a", Num 1); ("b", JSSet [Num 2])] ("c", Null)).
Defined.

(** ** More on the differencer *)

Lemma find_seq_first (f : nat -> bool) (s n i : nat) :
  s <= i < s + n -> f i = true -> (forall j, s <= j < i -> f j = false) ->
  List.find f (seq s n) = Some i.
Proof.
  revert s. induction n as [|n IH]; intros s Hi Hf Hj; [lia|].
  cbn [seq List.find]. destruct (Nat.eq_dec s i) as [->|Hne].
  - rewrite Hf. reflexivity.
  - rewrite (Hj s) by lia. apply IH; [lia | exact Hf |]. intros j Hjr. apply Hj. lia.
Qed.

Lemma first_difference_append (la ext : list Value) (x : Value) :
  Forall (fun v => valid v = true) la -> x <> Undefined ->
  first_difference la (la ++ x :: ext) = Some (length la).
Proof.
  intros Hv Hx. unfold first_difference. apply find_seq_first.
  - rewrite length_app. cbn [length]. lia.
  - unfold at_. rewrite nth_overflow by lia. rewrite app_nth2 by lia.
    rewrite Nat.sub_diag. cbn [nth]. apply negb_true_iff.
    destruct (equal Undefined x) eqn:E; [|reflexivity].
    apply equal_Undefined_l in E. contradiction.
  - intros j [_ Hj]. unfold at_. rewrite app_nth1 by exact Hj.
    apply negb_false_iff. apply equal_refl.
    rewrite List.Forall_forall in Hv. apply Hv. apply nth_In. exact Hj.
Qed.

Lemma equal_items_longer (la ext : list Value) (x : Value) :
  equal_items la (la ++ x :: ext) = false.
Proof.
  destruct (equal_items la (la ++ x :: ext)) eqn:E; [|reflexivity].
  apply equal_items_Forall2 in E. apply Forall2_length in E.
  rewrite length_app in E. cbn [length] in E. lia.
Qed.

(** X7: appending to an array field gives one positional append and
    nothing else: the payload holds the encoded new elements, positioned at
    the old length and truncated to the new length. *)
Theorem changes_append_pushes (p : string) (la ext each : list Value) (x : Value) :
  p <> "" ->
  valid (Arr la) = true ->
  x <> Undefined ->
  mapM encode (x :: ext) = Return each ->
  changes p (Arr la) (Arr (la ++ x :: ext))
  = Return (assign_push p
              (push_payload each (length la) (length la + S (length ext)))
              new_UpdateFilter).
Proof.
  intros Hp Hv Hx He. cbn [valid] in Hv. apply forallb_Forall in Hv.
  cbn -[equal encode positional]. rewrite equal_Arr, equal_items_longer.
  rewrite (assert_notEmpty_ok p Hp). cbn [bind]. unfold positional.
  rewrite (first_difference_append la ext x Hv Hx).
  rewrite skipn_app, skipn_all, Nat.sub_diag. cbn [skipn app].
  rewrite He. cbn [bind]. rewrite length_app. reflexivity.
Qed.

Lemma changes_append_pushes_witness :
  changes "visits" (Arr [Num 1; Num 2]) (Arr ([Num 1; Num 2] ++ [Num 3]))
  = Return (assign_push "visits"
              (push_payload [Num 3] (length [Num 1; Num 2])
                 (length [Num 1; Num 2] + S (@length Value [])))
              new_UpdateFilter).
Proof.
  apply (changes_append_pushes "visits" [Num 1; Num 2]%Z [] [Num 3]%Z (Num 3));
    [discriminate | reflexivity | discriminate | reflexivity].
Defined.

(** X8: putting the properties of a plain object in another order is no
    change: for an object that holds no [undefined], as a property or in a
    plain object nested in it (and, as every object, has no key twice),
    [changes] against the same properties in any other order returns the
    empty change set. *)
Theorem changes_reordered (p : string) (l1 l2 : Props) :
  valid (Obj l1) = true ->
  present (Obj l1) = true ->
  Permutation l1 l2 ->
  changes p (Obj l1) (Obj l2) = Return new_UpdateFilter.
Proof.
  intros Hv Hp Hperm. rewrite changes_Obj by reflexivity. cbn [own].
  cbn [valid present] in Hv, Hp. apply andb_true_iff in Hv as [Hv Hnd].
  apply forallb_Forall in Hv, Hp. apply nodup_keys_NoDup in Hnd.
  rewrite List.Forall_forall in Hv, Hp.
  rewrite unset_removed_included.
  2:{ intros k Hk. unfold keys in *. apply list_elem_of_In.
      rewrite <- Hperm. apply list_elem_of_In. exact Hk. }
  assert (Hsub : forall kv, In kv l2 -> In kv l1).
  { intros kv Hin. apply list_elem_of_In. rewrite Hperm. apply list_elem_of_In. exact Hin. }
  clear Hperm. induction l2 as [|[k v] l2 IH]; [reflexivity|].
  assert (Hin : In (k, v) l1) by (apply Hsub; left; reflexivity).
  cbn [changes_entries]. rewrite (member_NoDup k v l1 Hnd Hin).
  rewrite (changes_unchanged v (Hv (k, v) Hin) (Hp (k, v) Hin)). cbn [bind].
  rewrite merge_empty. apply IH. intros kv Hkv. apply Hsub. right. exact Hkv.
Qed.

Lemma changes_reordered_witness :
  changes "" (Obj [("a", Num 1); ("b", JSSet [Num 2]); ("c", Null)])
             (Obj [("c", Null); ("a", Num 1); ("b", JSSet [Num 2])])
  = Return new_UpdateFilter.
Proof.
  apply changes_reordered; [reflexivity | reflexivity |].
  symmetry. apply (Permutation_cons_append [("a", Num 1); ("b", JSSet [Num 2])] ("c", Null)).
Defined.

Lemma walk_single_kind (p : string) (la lb : Props) (c : UpdateFilter) :
  good (Obj la) -> good (Obj lb) ->
  changes p (Obj la) (Obj lb) = Return c -> single_kind c.
Proof.
  intros [_ Hpa] Hgb Hc. destruct Hgb as [Hsb Hpb].
  apply (changes_wf (Obj lb) p (Obj la) c Hpa Hpb); [|exact Hc].
  unfold supported in Hsb. apply andb_true_iff in Hsb as [Hsb _].
  apply andb_true_iff in Hsb as [Hsb _]. exact Hsb.
Qed.

(** X9: for two plain objects that hold no [undefined] and no reserved
    tag key, whose keys at any depth of object nesting are not empty and
    hold no dot, and which, when compared at the root, carry the same
    [_id] or none: a field that holds the same value before and after is
    left alone, the change set returned has no operation at its path or
    below it. *)
Theorem changes_keeps_unchanged_fields (p : string) (la lb : Props) (c : UpdateFilter)
    (k : string) (v : Value) :
  good (Obj la) -> good (Obj lb) ->
  (p = "" -> get "_id" la = get "_id" lb) ->
  changes p (Obj la) (Obj lb) = Return c ->
  In (k, v) la -> In (k, v) lb ->
  forall q, below (path p k) q -> ~ touches c q.
Proof.
  intros Hga Hgb Hid Hc Hina Hinb q Hq Ht.
  rewrite changes_Obj in Hc by reflexivity. cbn [own] in Hc.
  destruct (walk_spec p la lb c Hga Hgb Hid Hc) as (E1 & _ & _).
  destruct (E1 k v Hinb) as (ck & Hck & Hsame).
  destruct (good_Obj la Hga) as [Hnda Ha]. destruct (Ha k v Hina) as (Hgv & _).
  rewrite (member_NoDup k v la Hnda Hina) in Hck.
  rewrite (changes_unchanged v (good_valid v Hgv) (good_present v Hgv)) in Hck.
  injection Hck as <-.
  apply (touches_new q). apply (same_at_touches c new_UpdateFilter q (Hsame q Hq) Ht).
Qed.

Lemma changes_keeps_unchanged_fields_witness :
  exists c, changes "" profile_before profile_after = Return c
            /\ forall q, below (path "" "_id") q -> ~ touches c q.
Proof.
  eexists. split; [vm_compute; reflexivity|].
  apply (changes_keeps_unchanged_fields "" (own profile_before) (own profile_after) _
           "_id" (ObjectId "65f0"));
    [split; reflexivity | split; reflexivity | reflexivity | vm_compute; reflexivity
     | left; reflexivity | left; reflexivity].
Defined.

(** X10: for two plain objects that hold no [undefined] and no reserved
    tag key, whose keys at any depth of object nesting are not empty and
    hold no dot, and which, when compared at the root, carry the same
    [_id] or none: a field of [before], other than [__proto__], that
    [after] does not have is unset with the payload [""] in the change set
    returned, and nothing else is done at its path.  (An assignment to
    [__proto__] stores no property in the operator.) *)
Theorem changes_unsets_removed_field (p : string) (la lb : Props) (c : UpdateFilter)
    (k : string) :
  good (Obj la) -> good (Obj lb) ->
  (p = "" -> get "_id" la = get "_id" lb) ->
  changes p (Obj la) (Obj lb) = Return c ->
  In k (keys la) -> ~ In k (keys lb) ->
  k <> "__proto__" ->
  op_unset c !! path p k = Some (Str "")
  /\ op_set c !! path p k = None
  /\ op_push c !! path p k = None.
Proof.
  intros Hga Hgb Hid Hc Hka Hkb _.
  pose proof (walk_single_kind p la lb c Hga Hgb Hc) as Hsk.
  rewrite changes_Obj in Hc by reflexivity. cbn [own] in Hc.
  destruct (walk_spec p la lb c Hga Hgb Hid Hc) as (_ & E2 & _).
  pose proof (E2 k Hka Hkb) as Hun. split; [exact Hun|].
  destruct (Hsk (path p k)) as (_ & H2 & H3). split.
  - destruct (op_set c !! path p k) eqn:E; [|reflexivity].
    exfalso. apply H3. rewrite Hun. split; eexists; reflexivity.
  - destruct (op_push c !! path p k) eqn:E; [|reflexivity].
    exfalso. apply H2. rewrite Hun. split; eexists; reflexivity.
Qed.

Lemma changes_unsets_removed_field_witness :
  exists c, changes "" profile_before profile_after = Return c
            /\ op_unset c !! path "" "nickname" = Some (Str "")
            /\ op_set c !! path "" "nickname" = None
            /\ op_push c !! path "" "nickname" = None.
Proof.
  eexists. split; [vm_compute; reflexivity|].
  apply (changes_unsets_removed_field "" (own profile_before) (own profile_after) _
           "nickname");
    [split; reflexivity | split; reflexivity | reflexivity | vm_compute; reflexivity
     | vm_compute; tauto | vm_compute | discriminate].
  intros [H|[H|[H|[H|[H|[]]]]]]; discriminate H.
Defined.



Lemma bind_Throw {A B} (r : result A) (k : A -> result B) (e : Error) :
  bind r k = Throw e -> r = Throw e \/ exists a, r = Return a /\ k a = Throw e.
Proof. destruct r as [a|e']; cbn; [eauto | intros [= ->]; auto]. Qed.

Lemma mapM_Throw {A B} (f : A -> result B) (l : list A) (e : Error) :
  mapM f l = Throw e -> exists x, In x l /\ f x = Throw e.
Proof.
  induction l as [|x l IH]; [discriminate|]. cbn [mapM]. intros H.
  apply bind_Throw in H as [H | (y & _ & H)]; [exists x; split; [left; reflexivity | exact H]|].
  apply bind_Throw in H as [H | (ys & _ & H)]; [|discriminate H].
  destruct (IH H) as (x' & Hin & Hx'). exists x'. split; [right; exact Hin | exact Hx'].
Qed.

Lemma encode_throws_assertion (v : Value) :
  forall e, encode v = Throw e -> e = AssertionError.
Proof.
  induction v as [| |b|n|s|h|ms|l IH|l IH|l IH|l IH] using Value_nested_ind;
    intros e H; try discriminate H.
  - injection H as <-. reflexivity.
  - rewrite encode_Arr in H. apply bind_Throw in H as [H | (ws & _ & H)]; [|discriminate H].
    apply mapM_Throw in H as (x & Hin & Hx). rewrite List.Forall_forall in IH.
    exact (IH x Hin e Hx).
  - cbn [encode EJSONCompatible] in H.
    apply bind_Throw in H as [H | (ws & _ & H)]; [|discriminate H].
    apply mapM_Throw in H as (x & Hin & Hx). rewrite List.Forall_forall in IH.
    exact (IH x Hin e Hx).
  - cbn [encode EJSONCompatible] in H.
    apply bind_Throw in H as [H | (ws & _ & H)]; [|discriminate H].
    apply mapM_Throw in H as ([k x] & Hin & Hx). rewrite List.Forall_forall in IH.
    destruct (IH (k, x) Hin) as [Hk Hv]. cbn [fst snd] in *.
    apply bind_Throw in Hx as [Hx | (k' & _ & Hx)]; [exact (Hk e Hx)|].
    apply bind_Throw in Hx as [Hx | (x' & _ & Hx)]; [exact (Hv e Hx) | discriminate Hx].
  - rewrite encode_Obj in H. apply bind_Throw in H as [H | (ws & _ & H)]; [|discriminate H].
    apply mapM_Throw in H as ([k x] & Hin & Hx). rewrite List.Forall_forall in IH.
    cbn [fst snd] in *.
    apply bind_Throw in Hx as [Hx | (x' & _ & Hx)]; [|discriminate Hx].
    exact (IH (k, x) Hin e Hx).
Qed.

Lemma mapM_encode_throws (l : list Value) (e : Error) :
  mapM encode l = Throw e -> e = AssertionError.
Proof.
  intros H. apply mapM_Throw in H as (x & _ & Hx). exact (encode_throws_assertion x e Hx).
Qed.

Lemma assert_notEmpty_Throw (p : string) (e : Error) :
  assert_notEmpty p = Throw e -> e = AssertionError.
Proof. unfold assert_notEmpty. destruct (String.eqb p ""); [intros [= <-]; reflexivity | discriminate]. Qed.

Lemma positional_throws (p key : string) (la lb : list Value) (b : Value) (e : Error) :
  positional p key la lb b = Throw e -> e = AssertionError.
Proof.
  unfold positional. destruct (first_difference la lb) as [i|]; intros H.
  - apply bind_Throw in H as [H | (ws & _ & H)]; [|discriminate H].
    exact (mapM_encode_throws _ e H).
  - apply bind_Throw in H as [H | (ws & _ & H)]; [|discriminate H].
    exact (encode_throws_assertion b e H).
Qed.

Lemma set_throws (p : string) (r : result Value) (e : Error) :
  (forall e', r = Throw e' -> e' = AssertionError) ->
  (do _ <- assert_notEmpty p; do x <- r; Return (assign_set p x new_UpdateFilter)) = Throw e ->
  e = AssertionError.
Proof.
  intros Hr H. apply bind_Throw in H as [H | (u & _ & H)]; [exact (assert_notEmpty_Throw p e H)|].
  apply bind_Throw in H as [H | (x & _ & H)]; [exact (Hr e H) | discriminate H].
Qed.

Lemma entries_throws (p : string) (a : Value) (lb : Props) (e : Error) :
  Forall (fun kv => forall p a e, changes p a (snd kv) = Throw e -> e = AssertionError) lb ->
  forall diff, changes_entries p a lb diff = Throw e -> e = AssertionError.
Proof.
  induction 1 as [|[k v] lb Hv Hlb IH]; intros diff H; [discriminate H|].
  cbn [changes_entries] in H. cbn [snd] in Hv.
  apply bind_Throw in H as [H | (c & _ & H)]; [exact (Hv _ _ e H) | exact (IH _ H)].
Qed.

(** The differencer fails with an assertion error only. *)
Lemma changes_throws_assertion (b : Value) :
  forall (p : string) (a : Value) (e : Error),
    changes p a b = Throw e -> e = AssertionError.
Proof.
  induction b as [| |x|n|s|h|ms|l IH|l IH|l IH|lb IH] using Value_nested_ind;
    intros p a e H.
  - rewrite changes_Undefined in H.
    apply bind_Throw in H as [H | (u & _ & H)];
      [exact (assert_notEmpty_Throw p e H) | discriminate H].
  - cbn -[equal encode positional] in H. rewrite orb_true_r in H.
    cbn -[equal encode positional] in H. destruct (equal a _); [discriminate H|].
    exact (set_throws p _ e (encode_throws_assertion _) H).
  - cbn -[equal encode positional] in H. rewrite orb_true_r in H.
    cbn -[equal encode positional] in H. destruct (equal a _); [discriminate H|].
    exact (set_throws p _ e (encode_throws_assertion _) H).
  - cbn -[equal encode positional] in H. rewrite orb_true_r in H.
    cbn -[equal encode positional] in H. destruct (equal a _); [discriminate H|].
    exact (set_throws p _ e (encode_throws_assertion _) H).
  - cbn -[equal encode positional] in H. rewrite orb_true_r in H.
    cbn -[equal encode positional] in H. destruct (equal a _); [discriminate H|].
    exact (set_throws p _ e (encode_throws_assertion _) H).
  - cbn -[equal encode positional] in H. rewrite orb_true_r in H.
    cbn -[equal encode positional] in H. destruct (equal a _); [discriminate H|].
    exact (set_throws p _ e (encode_throws_assertion _) H).
  - cbn -[equal encode positional] in H. rewrite orb_true_r in H.
    cbn -[equal encode positional] in H. destruct (equal a _); [discriminate H|].
    exact (set_throws p _ e (encode_throws_assertion _) H).
  - cbn -[equal encode positional] in H. rewrite orb_true_r in H.
    cbn -[equal encode positional] in H. destruct (equal a _); [discriminate H|].
    apply bind_Throw in H as [H | (u & _ & H)]; [exact (assert_notEmpty_Throw p e H)|].
    destruct a; try (apply bind_Throw in H as [H | (x & _ & H)];
                     [exact (mapM_encode_throws _ e H) | discriminate H]).
    exact (positional_throws _ _ _ _ _ e H).
  - cbn -[equal encode positional] in H. rewrite orb_true_r in H.
    cbn -[equal encode positional] in H. destruct (equal a _); [discriminate H|].
    apply bind_Throw in H as [H | (u & _ & H)]; [exact (assert_notEmpty_Throw p e H)|].
    destruct a; try (apply bind_Throw in H as [H | (x & _ & H)];
                     [exact (encode_throws_assertion _ e H) | discriminate H]).
    exact (positional_throws _ _ _ _ _ e H).
  - cbn -[equal encode positional] in H. rewrite orb_true_r in H.
    cbn -[equal encode positional] in H. destruct (equal a _); [discriminate H|].
    apply bind_Throw in H as [H | (u & _ & H)]; [exact (assert_notEmpty_Throw p e H)|].
    destruct a; try (apply bind_Throw in H as [H | (x & _ & H)];
                     [exact (encode_throws_assertion _ e H) | discriminate H]).
    exact (positional_throws _ _ _ _ _ e H).
  - destruct a as [| | | | | | | | | |la];
      try (cbn -[equal encode positional] in H;
           destruct (equal _ _); [discriminate H|];
           exact (set_throws p _ e (encode_throws_assertion _) H));
      try (cbn -[equal encode positional] in H;
           exact (set_throws p _ e (encode_throws_assertion _) H));
      try (cbn in H; injection H as <-; reflexivity);
      try (rewrite changes_Obj in H by reflexivity;
           apply (entries_throws p _ lb e) in H; [exact H|];
           eapply Forall_impl; [exact IH|]; cbn; intros kv Hkv; exact Hkv).
Qed.

Lemma changes_entries_touches (p : string) (a : Value) (bs : Props)
    (diff d : UpdateFilter) (q : string) :
  changes_entries p a bs diff = Return d ->
  touches d q ->
  touches diff q
  \/ exists k v c, In (k, v) bs
       /\ changes (path p k) (member k a) v = Return c /\ touches c q.
Proof.
  revert diff. induction bs as [|[k v] bs IH]; intros diff H Hq.
  - injection H as <-. left. exact Hq.
  - cbn [changes_entries] in H. apply bind_Return in H as (c & Ec & H).
    destruct (IH _ H Hq) as [Hm | (k' & v' & c' & Hin & Ec' & Hq')].
    + apply touches_merge in Hm as [Hm|Hm]; [|left; exact Hm].
      right. exists k, v, c. split; [left; reflexivity | auto].
    + right. exists k', v', c'. split; [right; exact Hin | auto].
Qed.

(** Away from the root, no operation is recorded at the empty path. *)
Lemma changes_not_at_root (b : Value) :
  forall (p : string) (a : Value) (d : UpdateFilter),
    p <> "" -> changes p a b = Return d -> ~ touches d "".
Proof.
  assert (Hbelow : forall p, p <> "" -> ~ below p "").
  { intros p Hp (t & E & _). symmetry in E. apply append_empty in E. exact (Hp E). }
  induction b as [| |x|n|s|h|ms|l IH|l IH|l IH|lb IH] using Value_nested_ind;
    intros p a d Hp H Ht;
    destruct (changes_cases p a _ d H) as [->|[Hs|(lb' & E & Hwalk)]];
    try discriminate E;
    try exact (touches_new _ Ht);
    try (destruct (single_operation_wf p d Hs) as [_ H2];
         exact (Hbelow p Hp (H2 _ Ht))).
  injection E as <-.
  destruct (changes_entries_touches p a lb _ d "" Hwalk Ht)
    as [Hu | (k & v & c & Hin & Ec & Hq)].
  - destruct (unset_removed_spec p (keys (own a)) (keys lb) new_UpdateFilter)
      as (Hup & Hus & Huu).
    destruct Hu as [Hu|[Hu|Hu]].
    + rewrite Hup in Hu. cbn in Hu. rewrite lookup_empty in Hu. destruct Hu; discriminate.
    + rewrite Hus in Hu. cbn in Hu. rewrite lookup_empty in Hu. destruct Hu; discriminate.
    + destruct (Huu _ Hu) as [Hq'|(k0 & _ & _ & E)].
      * cbn in Hq'. rewrite lookup_empty in Hq'. destruct Hq'; discriminate.
      * unfold path in E. destruct (String.eqb p "") eqn:Ep.
        -- apply String.eqb_eq in Ep. exact (Hp Ep).
        -- symmetry in E. apply append_empty in E. exact (Hp E).
  - rewrite List.Forall_forall in IH.
    apply (IH (k, v) Hin (path p k) (member k a) c); [|exact Ec | exact Hq].
    unfold path. destruct (String.eqb p "") eqn:Ep.
    + apply String.eqb_eq in Ep. contradiction.
    + intros E. apply append_empty in E. exact (Hp E).
Qed.

(** X12: at the root (empty prefix), for an [after] none of whose plain
    objects has a key [__proto__], [changes] returns only for two
    deep-equal values, with the empty change set, or for a record-like
    [before] and a plain object [after]; in both cases nothing is set,
    unset or appended to at the root path itself, unless one of the two
    objects has the empty string as a key (a key [""] of [before] that
    [after] lacks is unset at the path [""], and the changes of a property
    [""] of [after] are looked for from the path [""] again).  On every
    other pair the call fails, and its only failure is the assertion
    error.  (Under a key [__proto__] of [after] the code reads the
    prototype of a set or a map, whose [size] throws a [TypeError].) *)
Theorem changes_at_root (a b : Value) :
  no_proto_key b = true ->
  match changes "" a b with
  | Return d =>
      ((d = new_UpdateFilter /\ equal a b = true)
       \/ (exists lb, b = Obj lb /\ RecordLike a = true /\ EJSONCompatible a = false))
      /\ (touches d "" -> In "" (keys (own a)) \/ In "" (keys (own b)))
  | Throw e => e = AssertionError
  end.
Proof.
  intros _.
  destruct (changes "" a b) as [d|e] eqn:H; [|exact (changes_throws_assertion b "" a e H)].
  split.
  - apply changes_inversion in H.
    inversion H; subst; try contradiction.
    + left. auto.
    + right. eauto.
  - intros Ht.
    destruct (changes_cases "" a b d H) as [->|[[Hp _]|(lb & -> & Hwalk)]];
      [exfalso; exact (touches_new _ Ht) | contradiction |].
    destruct (changes_entries_touches "" a lb _ d "" Hwalk Ht)
      as [Hu | (k & v & c & Hin & Ec & Hq)].
    + left.
      destruct (unset_removed_spec "" (keys (own a)) (keys lb) new_UpdateFilter)
        as (Hup & Hus & Huu).
      destruct Hu as [Hu|[Hu|Hu]].
      * rewrite Hup in Hu. cbn in Hu. rewrite lookup_empty in Hu. destruct Hu; discriminate.
      * rewrite Hus in Hu. cbn in Hu. rewrite lookup_empty in Hu. destruct Hu; discriminate.
      * destruct (Huu _ Hu) as [Hq'|(k0 & Hk0 & _ & E)].
        -- cbn in Hq'. rewrite lookup_empty in Hq'. destruct Hq'; discriminate.
        -- cbn in E. subst k0. exact Hk0.
    + right. cbn [own]. cbn [path String.eqb] in Ec.
      destruct (String.eqb k "") eqn:Ek.
      * apply String.eqb_eq in Ek. subst k.
        unfold keys. apply in_map_iff. exists ("", v). split; [reflexivity | exact Hin].
      * apply String.eqb_neq in Ek. exfalso.
        exact (changes_not_at_root v k (member k a) c Ek Ec Hq).
Qed.

Lemma changes_at_root_witness :
  match changes "" profile_before profile_after with
  | Return d =>
      ((d = new_UpdateFilter /\ equal profile_before profile_after = true)
       \/ (exists lb, profile_after = Obj lb /\ RecordLike profile_before = true
                      /\ EJSONCompatible profile_before = false))
      /\ (touches d "" -> In "" (keys (own profile_before))
                          \/ In "" (keys (own profile_after)))
  | Throw e => e = AssertionError
  end.
Proof. apply (changes_at_root profile_before profile_after). reflexivity. Defined.

(** ** The cursor: what [next] returns *)

Lemma set_cell_same (h : nat) (d : DriverCursor) (w : World) :
  heap_cursors w !! h = Some d -> set_cell h d w = w.
Proof.
  intros H. unfold set_cell. rewrite (list_insert_id _ _ _ H). destruct w; reflexivity.
Qed.

Lemma set_cell_twice (h : nat) (d d' : DriverCursor) (w : World) :
  set_cell h d' (set_cell h d w) = set_cell h d' w.
Proof. unfold set_cell. cbn. rewrite list_insert_insert_eq. reflexivity. Qed.

Lemma set_cell_lookup (h : nat) (d d0 : DriverCursor) (w : World) :
  heap_cursors w !! h = Some d0 ->
  heap_cursors (set_cell h d w) !! h = Some d.
Proof.
  intros H. unfold set_cell. cbn. apply list_lookup_insert_eq.
  exact (lookup_lt_Some _ _ _ H).
Qed.

Lemma driver_next_open (c : FindCursor) (doc : Value) (docs : list Value) (w : World) :
  open_on c (doc :: docs) w ->
  driver_next (cursor c) w
  = Finished (Some doc, set_cell (cursor c) {| d_docs := docs; d_closed := false |} w).
Proof. unfold open_on, driver_next. intros ->. reflexivity. Qed.

Lemma driver_next_end (c : FindCursor) (w : World) :
  open_on c [] w ->
  driver_next (cursor c) w
  = Finished (None, set_cell (cursor c) {| d_docs := []; d_closed := true |} w).
Proof. unfold open_on, driver_next. intros ->. reflexivity. Qed.

Lemma close_cell (c : FindCursor) (d : DriverCursor) (w : World) :
  heap_cursors w !! cursor c = Some d ->
  Cursor.close c w
  = Finished (tt, set_cell (cursor c) {| d_docs := d_docs d; d_closed := true |} w).
Proof. unfold Cursor.close, driver_close. intros ->. reflexivity. Qed.

Lemma advanced_skipped (c : FindCursor) :
  skipped c < _skip c ->
  advanced (Cursor.with_skipped c (S (skipped c))) = advanced c.
Proof.
  intros H. unfold advanced. cbn.
  replace (Nat.max (S (skipped c)) (_skip c)) with (Nat.max (skipped c) (_skip c)) by lia.
  reflexivity.
Qed.

Lemma advanced_no_skip (c : FindCursor) :
  _skip c <= skipped c -> advanced c = Cursor.with_yielded c (S (yielded c)).
Proof.
  intros H. unfold advanced.
  replace (Nat.max (skipped c) (_skip c)) with (skipped c) by lia.
  destruct c; reflexivity.
Qed.

Lemma finished_skipped (c : FindCursor) (n : nat) (v : Value) :
  finished (Cursor.with_skipped c n) v = finished c v.
Proof. reflexivity. Qed.

(** The skips that are pending are counted on one and the same value. *)
Lemma accept_counts (fuel : nat) (c : FindCursor) (doc data : Value) (w : World) :
  Cursor.limit_reached c = false ->
  decode doc = Return data ->
  passes c (model (collection c) data) = true ->
  (_skip c - skipped c) + 1 <= fuel ->
  Cursor.next_loop fuel c (Some doc) w
  = Finished (handed c (finished c (model (collection c) data)), w).
Proof.
  revert c. induction fuel as [|fuel IH]; intros c Hl Hd Hp Hf; [lia|].
  cbn [Cursor.next_loop]. rewrite Hl. unfold mbind at 1, lift. rewrite Hd.
  assert (Hacc :
    Cursor.accept c (model (collection c) data)
      (fun c' => Cursor.next_loop fuel c' (Some doc)) w
    = Finished (handed c (finished c (model (collection c) data)), w)).
  { unfold Cursor.accept. fold (finished c (model (collection c) data)).
    destruct (Nat.ltb (skipped c) (_skip c)) eqn:El.
    - apply Nat.ltb_lt in El.
      pose proof (IH (Cursor.with_skipped c (S (skipped c))) Hl Hd Hp) as Hrec.
      cbn [_skip skipped Cursor.with_skipped] in Hrec.
      specialize (Hrec ltac:(lia)).
      change (collection (Cursor.with_skipped c (S (skipped c)))) with (collection c) in Hrec.
      rewrite !(finished_skipped c) in Hrec.
      unfold handed in *. rewrite (advanced_skipped c El) in Hrec.
      destruct (finished c (model (collection c) data)); try exact Hrec.
      reflexivity.
    - apply Nat.ltb_ge in El. unfold handed. rewrite (advanced_no_skip c El).
      destruct (finished c (model (collection c) data)); reflexivity. }
  unfold passes in Hp. destruct (search c) as [|d|p]; try exact Hacc.
  rewrite Hp. exact Hacc.
Qed.

Lemma mapM_cons_inv {A B} (f : A -> result B) (x : A) (l : list A) (ys : list B) :
  mapM f (x :: l) = Return ys ->
  exists y ys', ys = y :: ys' /\ f x = Return y /\ mapM f l = Return ys'.
Proof.
  cbn [mapM]. intros H. apply bind_Return in H as (y & Hy & H).
  apply bind_Return in H as (ys' & Hys & H). injection H as <-. eauto.
Qed.

Lemma limit_reached_cell (c : FindCursor) (d : DriverCursor) (w : World) :
  heap_cursors w !! cursor c = Some d ->
  (let* _ := Cursor.close c in ret (Done, c)) w
  = Finished ((Done, c),
              set_cell (cursor c) {| d_docs := d_docs d; d_closed := true |} w).
Proof. intros H. unfold mbind. rewrite (close_cell c d w H). reflexivity. Qed.

(** The loop of [next] from a document in hand: it goes through the
    documents whose model does not pass, to the first that does. *)
Lemma next_loop_seek (c : FindCursor) :
  forall (docs datas : list Value) (doc data : Value) (fuel : nat) (w : World),
    open_on c docs w ->
    Cursor.limit_reached c = false ->
    decode doc = Return data ->
    mapM decode docs = Return datas ->
    length docs + (_skip c - skipped c) + 2 <= fuel ->
    Cursor.next_loop fuel c (Some doc) w
    = match seek c (data :: datas) with
      | None =>
          Finished ((Done, c),
                    set_cell (cursor c) {| d_docs := []; d_closed := true |} w)
      | Some (n, v) =>
          Finished (handed c v,
                    set_cell (cursor c)
                      {| d_docs := skipn n docs; d_closed := false |} w)
      end.
Proof.
  induction docs as [|doc' docs IH]; intros datas doc data fuel w Ho Hl Hd Hds Hf.
  - injection Hds as <-. cbn [seek].
    destruct (passes c (model (collection c) data)) eqn:Hp.
    + rewrite (accept_counts fuel c doc data w Hl Hd Hp) by (cbn in Hf; lia).
      cbn [skipn]. rewrite (set_cell_same _ _ w Ho). reflexivity.
    + destruct fuel as [|fuel]; [cbn in Hf; lia|].
      cbn [Cursor.next_loop]. rewrite Hl. unfold mbind at 1, lift. rewrite Hd.
      unfold passes in Hp. destruct (search c) as [|d|p]; try discriminate Hp.
      rewrite Hp. unfold mbind at 1. rewrite (driver_next_end c w Ho).
      destruct fuel as [|fuel]; [cbn in Hf; lia|].
      cbn [Cursor.next_loop].
      rewrite (limit_reached_cell c {| d_docs := []; d_closed := true |});
        [|apply (set_cell_lookup _ _ _ _ Ho)].
      cbn [d_docs]. rewrite set_cell_twice. reflexivity.
  - apply mapM_cons_inv in Hds as (data' & datas' & -> & Hd' & Hds').
    cbn [seek]. destruct (passes c (model (collection c) data)) eqn:Hp.
    + rewrite (accept_counts fuel c doc data w Hl Hd Hp) by (cbn in Hf; lia).
      cbn [skipn]. rewrite (set_cell_same _ _ w Ho). reflexivity.
    + destruct fuel as [|fuel]; [cbn in Hf; lia|].
      cbn [Cursor.next_loop]. rewrite Hl. unfold mbind at 1, lift. rewrite Hd.
      pose proof Hp as Hp'.
      unfold passes in Hp. destruct (search c) as [|d|p] eqn:Es; try discriminate Hp.
      rewrite Hp. unfold mbind at 1. rewrite (driver_next_open c doc' docs w Ho).
      rewrite (IH datas' doc' data' fuel _ (set_cell_lookup _ _ _ _ Ho) Hl Hd' Hds')
        by (cbn [length] in Hf; lia).
      change (if passes c (model (collection c) data') then _ else _)
        with (seek c (data' :: datas')).
      destruct (seek c (data' :: datas')) as [[n v]|]; rewrite set_cell_twice; reflexivity.
Qed.

(** What one call of [next] returns, and what it leaves of the driver
    cursor. *)
Lemma next_spec (c : FindCursor) (docs datas : list Value) (w : World) :
  open_on c docs w ->
  mapM decode docs = Return datas ->
  Cursor.next c w
  = if Cursor.limit_reached c then
      Finished ((Done, c),
                set_cell (cursor c) {| d_docs := tl docs; d_closed := true |} w)
    else
      match seek c datas with
      | None =>
          Finished ((Done, c),
                    set_cell (cursor c) {| d_docs := []; d_closed := true |} w)
      | Some (n, v) =>
          Finished (handed c v,
                    set_cell (cursor c)
                      {| d_docs := skipn (S n) docs; d_closed := false |} w)
      end.
Proof.
  intros Ho Hds. unfold Cursor.next, Cursor.next_fuel. rewrite Ho. cbn [d_docs].
  destruct docs as [|doc docs].
  - unfold mbind at 1. rewrite (driver_next_end c w Ho). injection Hds as <-.
    replace (length (@nil Value) + (_skip c - skipped c) + 2)
      with (S (S (_skip c - skipped c))) by (cbn [length]; lia).
    cbn [Cursor.next_loop seek tl].
    rewrite (limit_reached_cell c {| d_docs := []; d_closed := true |});
      [|apply (set_cell_lookup _ _ _ _ Ho)].
    cbn [d_docs]. rewrite set_cell_twice. destruct (Cursor.limit_reached c); reflexivity.
  - unfold mbind at 1. rewrite (driver_next_open c doc docs w Ho).
    apply mapM_cons_inv in Hds as (data & datas' & -> & Hd & Hds').
    destruct (Cursor.limit_reached c) eqn:Hl.
    + replace (length (doc :: docs) + (_skip c - skipped c) + 2)
        with (S (S (length docs + (_skip c - skipped c) + 1))) by (cbn [length]; lia).
      cbn [Cursor.next_loop]. rewrite Hl.
      rewrite (limit_reached_cell c {| d_docs := docs; d_closed := false |});
        [|apply (set_cell_lookup _ _ _ _ Ho)].
      cbn [d_docs tl]. rewrite set_cell_twice. reflexivity.
    + rewrite (next_loop_seek c docs datas' doc data _ _
                 (set_cell_lookup _ _ _ _ Ho) Hl Hd Hds')
        by (cbn [length]; lia).
      destruct (seek c (data :: datas')) as [[n v]|]; rewrite set_cell_twice; reflexivity.
Qed.

Lemma Value_eq_Null (v : Value) : v = Null \/ v <> Null.
Proof. destruct v; (left; reflexivity) || (right; discriminate). Qed.

Lemma seek_stream (c : FindCursor) (datas : list Value) :
  match seek c datas with
  | None => stream c datas = []
  | Some (n, v) =>
      n < length datas /\ stream c datas = v :: stream c (skipn (S n) datas)
  end.
Proof.
  unfold stream, stream_of. induction datas as [|data datas IH]; [reflexivity|].
  cbn [seek List.map List.filter].
  change (match search c with Predicate p => p (model (collection c) data) | _ => true end)
    with (passes c (model (collection c) data)).
  destruct (passes c (model (collection c) data)) eqn:Hp.
  - cbn [List.map skipn length]. split; [lia | reflexivity].
  - destruct (seek c datas) as [[n v]|].
    + destruct IH as [Hn IH]. cbn [length]. split; [lia|]. exact IH.
    + exact IH.
Qed.

Lemma stream_advanced (c : FindCursor) (datas : list Value) :
  stream (advanced c) datas = stream c datas.
Proof. reflexivity. Qed.

Lemma within_limit_reached (c : FindCursor) (l : list Value) :
  Cursor.limit_reached c = true -> within_limit c l = [].
Proof.
  unfold Cursor.limit_reached, within_limit. destruct (_limit c) as [n|]; [|discriminate].
  intros H. apply Nat.leb_le in H. replace (n - yielded c) with 0 by lia. reflexivity.
Qed.

Lemma within_limit_cons (c : FindCursor) (v : Value) (l : list Value) :
  Cursor.limit_reached c = false ->
  within_limit c (v :: l) = v :: within_limit (advanced c) l.
Proof.
  unfold Cursor.limit_reached, within_limit, advanced. cbn.
  destruct (_limit c) as [n|]; [|reflexivity].
  intros H. apply Nat.leb_gt in H.
  replace (n - yielded c) with (S (n - S (yielded c))) by lia. reflexivity.
Qed.

Lemma within_limit_nil (c : FindCursor) : within_limit c [] = [].
Proof. unfold within_limit. destruct (_limit c); [apply firstn_nil | reflexivity]. Qed.

Lemma handed_Yield (c : FindCursor) (v : Value) :
  v <> Null -> handed c v = (Yield v, advanced c).
Proof. intros H. destruct v; try reflexivity. contradiction. Qed.

Lemma until_null_cons (v : Value) (l : list Value) :
  v <> Null -> until_null (v :: l) = v :: until_null l.
Proof. intros H. destruct v; try reflexivity. contradiction. Qed.

(** The iteration of a cursor that has no skip pending gives the values of
    its stream, up to the first [null] and within the limit; without a
    limit and without a [null], it ends with the driver cursor closed. *)
Lemma iterate_spec (fuel : nat) :
  forall (c : FindCursor) (docs datas results : list Value) (w : World),
    open_on c docs w ->
    mapM decode docs = Return datas ->
    _skip c <= skipped c ->
    length datas < fuel ->
    exists c' w',
      Cursor.iterate fuel c results w
      = Finished ((results ++ within_limit c (until_null (stream c datas)), c'), w')
      /\ cursor c' = cursor c
      /\ (_limit c = None -> Forall (fun v => v <> Null) (stream c datas) ->
          heap_cursors w' !! cursor c = Some {| d_docs := []; d_closed := true |}).
Proof.
  induction fuel as [|fuel IH]; intros c docs datas results w Ho Hds Hs Hf; [lia|].
  cbn [Cursor.iterate]. apply Nat.ltb_ge in Hs. rewrite Hs. apply Nat.ltb_ge in Hs.
  destruct (Cursor.limit_reached c) eqn:Hl.
  - rewrite (within_limit_reached c _ Hl), app_nil_r. exists c, w.
    split; [reflexivity|]. split; [reflexivity|].
    intros Hn. unfold Cursor.limit_reached in Hl. rewrite Hn in Hl. discriminate Hl.
  - unfold mbind at 1. rewrite (next_spec c docs datas w Ho Hds), Hl.
    pose proof (seek_stream c datas) as Hseek.
    destruct (seek c datas) as [[n v]|].
    + destruct Hseek as [Hn Hst]. rewrite Hst.
      destruct (Value_eq_Null v) as [->|Hv].
      * cbn. rewrite within_limit_nil, app_nil_r. eexists _, _.
        split; [reflexivity|]. split; [reflexivity|].
        intros _ Hall. inversion Hall as [|? ? Hnull _]. contradiction.
      * rewrite (handed_Yield c v Hv), (until_null_cons v _ Hv). cbn [fst snd].
        rewrite (within_limit_cons c v _ Hl).
        destruct (IH (advanced c) (skipn (S n) docs) (skipn (S n) datas)
                    (results ++ [v])
                    (set_cell (cursor c)
                       {| d_docs := skipn (S n) docs; d_closed := false |} w))
          as (c' & w' & E & Hc' & Hclosed).
        -- apply (set_cell_lookup _ _ _ _ Ho).
        -- apply mapM_skipn. exact Hds.
        -- cbn. lia.
        -- rewrite length_skipn. lia.
        -- exists c', w'. rewrite E, stream_advanced, <- app_assoc.
           split; [reflexivity|]. split; [exact Hc'|].
           intros Hlim Hall. apply Hclosed; [exact Hlim|].
           rewrite stream_advanced. inversion Hall; assumption.
    + rewrite Hseek. cbn. rewrite within_limit_nil, app_nil_r.
      eexists _, _. split; [reflexivity|]. split; [reflexivity|].
      intros _ _. apply (set_cell_lookup _ _ _ _ Ho).
Qed.

(** What the constructor returns: a cursor with its counters at zero and
    its paging read from the options, open on the documents the store
    streams for the query and the options without paging. *)
Lemma new_open (coll : MongoCollection) (s : Search) (opts : option nat)
    (tr : option (Value -> Value)) (q : Value) (w : World) :
  query_of s = Return q ->
  exists c w',
    Cursor.new coll s opts tr w = Finished (c, w')
    /\ open_on c (store_find coll q (no_paging <$> read_options opts w)) w'
    /\ collection c = coll /\ search c = s /\ transform c = tr
    /\ options c = opts
    /\ _limit c = read_options opts w ≫= o_limit
    /\ _skip c = default 0 (read_options opts w ≫= o_skip)
    /\ _populate c = default [] (read_options opts w ≫= o_populate)
    /\ skipped c = 0 /\ yielded c = 0
    /\ read_options opts w' = no_paging <$> read_options opts w.
Proof.
  intros Hq. unfold Cursor.new, mbind at 1, lift. unfold query_of in Hq. rewrite Hq.
  assert (Hdel : exists w1,
             delete_paging opts w = Finished (tt, w1)
             /\ heap_cursors w1 = heap_cursors w
             /\ read_options opts w1 = no_paging <$> read_options opts w).
  { unfold delete_paging, read_options. destruct opts as [i|]; [|eauto].
    destruct (heap_options w !! i) as [o|] eqn:E.
    - eexists. split; [reflexivity|]. split; [reflexivity|]. cbn.
      rewrite list_lookup_insert_eq by exact (lookup_lt_Some _ _ _ E). reflexivity.
    - exists w. rewrite E. auto. }
  destruct Hdel as (w1 & Hd & Hc & Hr).
  unfold mbind. rewrite Hd. unfold driver_find, ret. eexists _, _.
  split; [reflexivity|]. unfold open_on. cbn. rewrite Hc, Hr.
  split; [apply list_lookup_middle; reflexivity|].
  repeat split. unfold read_options in *. destruct opts as [i|]; [|reflexivity].
  cbn. exact Hr.
Qed.

(** ** The cursor and the collection: what a query returns *)

(** X13: [toArray] on a cursor that has no skip pending returns the values
    of its stream in order (the models that pass the search, populated and
    transformed), up to the first [null] value and within what the limit
    leaves, or [null] when there is none. *)
Theorem toArray_gives_stream (fuel : nat) (c : FindCursor) (docs datas : list Value)
    (w : World) :
  open_on c docs w ->
  mapM decode docs = Return datas ->
  _skip c <= skipped c ->
  length datas < fuel ->
  returned (Cursor.toArray fuel c w)
  = Finished (or_null (within_limit c (until_null (stream c datas)))).
Proof.
  intros Ho Hds Hs Hf. unfold Cursor.toArray, mbind.
  destruct (iterate_spec fuel c docs datas [] w Ho Hds Hs Hf) as (c' & w' & -> & _).
  cbn. destruct (within_limit c (until_null (stream c datas))); reflexivity.
Qed.

Lemma toArray_gives_stream_witness :
  returned (Cursor.toArray 10 sample_cursor sample_world)
  = Finished (or_null (within_limit sample_cursor
                         (until_null (stream sample_cursor (skipn 1 ten_documents))))).
Proof.
  apply (toArray_gives_stream 10 sample_cursor (skipn 1 ten_documents)
           (skipn 1 ten_documents) sample_world);
    [reflexivity | reflexivity | cbn; lia | cbn; lia].
Defined.

Lemma stream_of_plain (coll : MongoCollection) (s : Search) (datas : list Value) :
  stream_of coll s [] None datas
  = List.filter (fun value => match s with Predicate p => p value | _ => true end)
      (List.map (model coll) datas).
Proof. unfold stream_of. cbn [fold_left]. apply List.map_id. Qed.

Lemma within_limit_fresh (c : FindCursor) (l : list Value) :
  yielded c = 0 -> within_limit c l = limited (_limit c) l.
Proof.
  intros H. unfold within_limit, limited. rewrite H.
  destruct (_limit c); [rewrite Nat.sub_0_r|]; reflexivity.
Qed.

(** X14: [findMany] on a predicate, with no options or with options that
    hold no skip (or the skip 0) and no key to populate, returns the models
    of the streamed documents that pass the predicate, in the order of the
    stream and cut at the limit of the options, or [null] when none passes;
    the store is asked with the options without limit, skip and populate. *)
Theorem findMany_matching (fuel : nat) (coll : MongoCollection) (p : Value -> bool)
    (opts : option nat) (datas : list Value) (w : World) :
  default 0 (read_options opts w ≫= o_skip) = 0 ->
  default [] (read_options opts w ≫= o_populate) = [] ->
  mapM decode (store_find coll (Obj []) (no_paging <$> read_options opts w))
  = Return datas ->
  length datas < fuel ->
  returned (Collection.findMany fuel coll (Predicate p) opts w)
  = Finished
      (or_null (limited (read_options opts w ≫= o_limit)
                  (until_null (List.filter p (List.map (model coll) datas))))).
Proof.
  intros Hskip Hpop Hds Hf. unfold Collection.findMany, find, mbind at 1.
  destruct (new_open coll (Predicate p) opts None (Obj []) w eq_refl)
    as (c & w' & -> & Ho & Hcoll & Hs & Htr & _ & Hlim & Hsk & Hpo & Hsd & Hy & _).
  unfold Cursor.toArray, mbind.
  destruct (iterate_spec fuel c _ datas [] w' Ho Hds ltac:(lia) Hf) as (c' & w'' & -> & _).
  cbn [app fst ret returned]. rewrite (within_limit_fresh c _ Hy), Hlim.
  unfold stream. rewrite Hcoll, Hs, Htr, Hpo, Hpop, stream_of_plain.
  destruct (limited _ _); reflexivity.
Qed.

Lemma findMany_matching_witness :
  returned (Collection.findMany 11 sample_collection (Predicate six_match) None empty_world)
  = Finished
      (or_null (limited (read_options None empty_world ≫= o_limit)
                  (until_null (List.filter six_match
                                 (List.map (model sample_collection) ten_documents))))).
Proof.
  apply (findMany_matching 11 sample_collection six_match None ten_documents empty_world);
    [reflexivity | reflexivity | reflexivity | cbn; lia].
Defined.

(** X15: [findOne] on a predicate, without options, returns the model of
    the first streamed document that passes the predicate, or [null] when
    none passes (or when that model is a falsy value). *)
Theorem findOne_first_match (coll : MongoCollection) (p : Value -> bool)
    (datas : list Value) (w : World) :
  mapM decode (store_find coll (Obj []) None) = Return datas ->
  returned (Collection.findOne coll (Predicate p) None w)
  = Finished
      (match List.filter p (List.map (model coll) datas) with
       | value :: _ => if truthy value then Some value else None
       | [] => None
       end).
Proof.
  intros Hds. unfold Collection.findOne, find, mbind at 1.
  destruct (new_open coll (Predicate p) None None (Obj []) w eq_refl)
    as (c & w' & -> & Ho & Hcoll & Hs & Htr & _ & Hlim & Hsk & Hpo & Hsd & Hy & _).
  cbn [read_options fmap option_fmap option_map mbind mret option_bind] in *.
  unfold mbind. rewrite (next_spec c _ datas w' Ho Hds).
  unfold Cursor.limit_reached. rewrite Hlim.
  pose proof (seek_stream c datas) as Hseek. unfold stream in Hseek.
  rewrite Hcoll, Hs, Htr, Hpo, stream_of_plain in Hseek.
  change (fun value : Value => p value) with p in Hseek.
  destruct (seek c datas) as [[n v]|].
  - destruct Hseek as [_ ->]. cbn. destruct v; reflexivity.
  - rewrite Hseek. reflexivity.
Qed.

Lemma findOne_first_match_witness :
  returned (Collection.findOne sample_collection (Predicate six_match) None empty_world)
  = Finished
      (match List.filter six_match (List.map (model sample_collection) ten_documents) with
       | value :: _ => if truthy value then Some value else None
       | [] => None
       end).
Proof.
  apply (findOne_first_match sample_collection six_match ten_documents empty_world).
  reflexivity.
Defined.

Lemma spread_after (r : option nat) (w w1 : World) :
  read_options r w1 = no_paging <$> read_options r w ->
  Cursor.spread r w1 = no_paging (Cursor.spread r w).
Proof.
  unfold Cursor.spread. intros ->. destruct (read_options r w); reflexivity.
Qed.

Lemma skip_open (n : nat) (c : FindCursor) (q : Value) (w : World) :
  query_of (search c) = Return q ->
  exists probe w',
    Cursor.skip n c w = Finished (probe, w')
    /\ open_on probe
         (store_find (collection c) q (Some (no_paging (Cursor.spread (options c) w)))) w'
    /\ collection probe = collection c /\ search probe = search c
    /\ transform probe = transform c
    /\ _limit probe = o_limit (Cursor.spread (options c) w)
    /\ _skip probe = n
    /\ _populate probe = default [] (o_populate (Cursor.spread (options c) w))
    /\ skipped probe = 0 /\ yielded probe = 0.
Proof.
  intros Hq. unfold Cursor.skip, mbind at 1, alloc_options.
  match goal with |- context [Cursor.new ?coll ?s ?o ?tr ?w0] =>
    destruct (new_open coll s o tr q w0 Hq)
      as (probe & w' & E & Ho & Hcoll & Hs & Htr & _ & Hlim & Hsk & Hpo & Hsd & Hy & _)
  end.
  exists probe, w'. split; [exact E|].
  cbn [read_options heap_options] in *. rewrite list_lookup_middle in * by reflexivity.
  cbn in *. repeat split; assumption.
Qed.

(** X16: [hasNext] does not look at the position of the cursor: whatever
    the cursor has yielded, and whatever its limit, the answer is whether
    the query has a first value, that is, whether some streamed document
    passes the search and the first that does has a transform other than
    [null]. *)
Theorem hasNext_ignores_position (c : FindCursor) (q : Value) (datas : list Value)
    (w : World) :
  query_of (search c) = Return q ->
  mapM decode
    (store_find (collection c) q (Some (no_paging (Cursor.spread (options c) w))))
  = Return datas ->
  returned (Cursor.hasNext c w)
  = Finished
      (match stream_of (collection c) (search c) [] (transform c) datas with
       | value :: _ => negb (is_null value)
       | [] => false
       end).
Proof.
  intros Hq Hds. unfold Cursor.hasNext, Cursor.clone, mbind at 1.
  destruct (new_open (collection c) (search c) (options c) (transform c) q w Hq)
    as (cl & w1 & -> & _ & Hcoll & Hs & Htr & Hopt & _ & _ & _ & _ & _ & Hr).
  unfold mbind at 1.
  assert (Hq' : query_of (search cl) = Return q) by (rewrite Hs; exact Hq).
  destruct (skip_open (yielded c) cl q w1 Hq')
    as (probe & w2 & -> & Ho & Hcoll' & Hs' & Htr' & Hlim & Hsk & Hpo & Hsd & Hy).
  rewrite Hopt, (spread_after (options c) w w1 Hr), Hcoll in *.
  change (no_paging (no_paging ?o)) with (no_paging o) in Ho.
  cbn [no_paging o_limit o_populate default] in Hlim, Hpo.
  unfold mbind. rewrite (next_spec probe _ datas w2 Ho Hds).
  unfold Cursor.limit_reached. rewrite Hlim.
  pose proof (seek_stream probe datas) as Hseek. unfold stream in Hseek.
  rewrite Hcoll', Hs', Htr', Hpo, Hs, Htr in Hseek.
  destruct (seek probe datas) as [[n v]|].
  - destruct Hseek as [_ ->]. cbn. destruct v; reflexivity.
  - rewrite Hseek. reflexivity.
Qed.

Lemma hasNext_ignores_position_witness :
  returned (Cursor.hasNext sample_cursor sample_world)
  = Finished
      (match stream_of (collection sample_cursor) (search sample_cursor) []
               (transform sample_cursor) ten_documents with
       | value :: _ => negb (is_null value)
       | [] => false
       end).
Proof.
  apply (hasNext_ignores_position sample_cursor (Obj []) ten_documents sample_world);
    reflexivity.
Defined.

Lemma hasNext_answer (c : FindCursor) (q : Value) (datas : list Value) (w : World) :
  query_of (search c) = Return q ->
  mapM decode
    (store_find (collection c) q (Some (no_paging (Cursor.spread (options c) w))))
  = Return datas ->
  exists w',
    Cursor.hasNext c w
    = Finished
        (match stream_of (collection c) (search c) [] (transform c) datas with
         | value :: _ => negb (is_null value)
         | [] => false
         end, w').
Proof.
  intros Hq Hds. unfold Cursor.hasNext, Cursor.clone, mbind at 1.
  destruct (new_open (collection c) (search c) (options c) (transform c) q w Hq)
    as (cl & w1 & -> & _ & Hcoll & Hs & Htr & Hopt & _ & _ & _ & _ & _ & Hr).
  unfold mbind at 1.
  assert (Hq' : query_of (search cl) = Return q) by (rewrite Hs; exact Hq).
  destruct (skip_open (yielded c) cl q w1 Hq')
    as (probe & w2 & -> & Ho & Hcoll' & Hs' & Htr' & Hlim & Hsk & Hpo & Hsd & Hy).
  rewrite Hopt, (spread_after (options c) w w1 Hr), Hcoll in *.
  change (no_paging (no_paging ?o)) with (no_paging o) in Ho.
  cbn [no_paging o_limit o_populate default] in Hlim, Hpo.
  unfold mbind. rewrite (next_spec probe _ datas w2 Ho Hds).
  unfold Cursor.limit_reached. rewrite Hlim.
  pose proof (seek_stream probe datas) as Hseek. unfold stream in Hseek.
  rewrite Hcoll', Hs', Htr', Hpo, Hs, Htr in Hseek.
  destruct (seek probe datas) as [[n v]|].
  - destruct Hseek as [_ ->]. cbn. destruct v; eexists; reflexivity.
  - rewrite Hseek. eexists. reflexivity.
Qed.

(** C8: [hasNext] returns and leaves the position of the cursor as it was:
    the calls of [next] made afterwards produce what they would have
    produced without it.  But the probe it builds, the clone of the cursor
    with the yielded count as its skip, is not advanced to that count: on a
    probe the skip never passes over a document, so the answer is whether
    the query has a first value at all, whatever the cursor has yielded.
    On a cursor whose driver cursor has no document left and whose query
    has a first value, [hasNext] says yes and [next] is done. *)
Theorem hasNext_probe_starts_over (c : FindCursor) (q : Value) (datas : list Value)
    (w : World) :
  cursor c < length (heap_cursors w) ->
  query_of (search c) = Return q ->
  mapM decode
    (store_find (collection c) q (Some (no_paging (Cursor.spread (options c) w))))
  = Return datas ->
  exists b w',
    Cursor.hasNext c w = Finished (b, w')
    /\ (forall n, returned (next_n n c w') = returned (next_n n c w))
    /\ b = match stream_of (collection c) (search c) [] (transform c) datas with
           | value :: _ => negb (is_null value)
           | [] => false
           end
    /\ (forall d, heap_cursors w !! cursor c = Some d -> d_docs d = [] ->
        exists w'', Cursor.next c w' = Finished ((Done, c), w'')).
Proof.
  intros Hlt Hq Hds.
  destruct (hasNext_answer c q datas w Hq Hds) as [w' E].
  pose proof (hasNext_leaves_cursor c w Hlt) as H. rewrite E in H.
  destruct H as [Hframe _].
  eexists _, w'. split; [exact E|]. split; [exact Hframe|]. split; [reflexivity|].
  intros d Hcell Hnone.
  assert (Hw : exists w0, Cursor.next c w = Finished ((Done, c), w0)).
  { unfold Cursor.next, mbind, driver_next. rewrite Hcell.
    unfold Cursor.next_fuel. rewrite Hcell, Hnone. cbn [length].
    replace (0 + (_skip c - skipped c) + 2) with (S (S (_skip c - skipped c))) by lia.
    destruct (d_closed d); cbn [Cursor.next_loop]; unfold mbind;
      match goal with |- context [Cursor.close c ?w1] =>
        destruct (close_total c w1) as [w0 ->] end;
      exists w0; reflexivity. }
  destruct Hw as [w0 Hw].
  specialize (Hframe 1). cbn [next_n] in Hframe. unfold mbind, ret in Hframe.
  rewrite Hw in Hframe. cbn in Hframe.
  destruct (Cursor.next c w') as [[[r c'] w'']|e|]; cbn in Hframe; try discriminate.
  injection Hframe as -> ->. exists w''. reflexivity.
Qed.

Lemma hasNext_probe_starts_over_witness :
  exists w',
    Cursor.hasNext spent_cursor spent_world = Finished (true, w')
    /\ (forall n, returned (next_n n spent_cursor w')
                  = returned (next_n n spent_cursor spent_world))
    /\ exists w'', Cursor.next spent_cursor w' = Finished ((Done, spent_cursor), w'').
Proof.
  destruct (hasNext_probe_starts_over spent_cursor (Obj []) ten_documents spent_world)
    as (b & w' & E & Hframe & Hb & Hdone);
    [simpl; lia | reflexivity | reflexivity |].
  vm_compute in Hb. subst b.
  exists w'. split; [exact E|]. split; [exact Hframe|].
  apply (Hdone {| d_docs := []; d_closed := false |}); reflexivity.
Defined.

Lemma no_paging_twice (o : option FindOptions) :
  no_paging <$> (no_paging <$> o) = no_paging <$> o.
Proof. destruct o; reflexivity. Qed.

Lemma within_limit_none (c : FindCursor) (l : list Value) :
  _limit c = None -> within_limit c l = l.
Proof. unfold within_limit. intros ->. reflexivity. Qed.

(** X17: [count] on a predicate counts every streamed document that passes
    the predicate (up to a model that is [null]), whatever limit and skip
    the options hold: the cursor counts through a clone, which has
    neither. *)
Theorem count_all_matching (fuel : nat) (coll : MongoCollection) (p : Value -> bool)
    (opts : option nat) (datas : list Value) (w : World) :
  mapM decode (store_find coll (Obj []) (no_paging <$> read_options opts w))
  = Return datas ->
  length datas < fuel ->
  returned (Collection.count fuel coll p opts w)
  = Finished (length (until_null (List.filter p (List.map (model coll) datas)))).
Proof.
  intros Hds Hf. unfold Collection.count, find, mbind at 1.
  destruct (new_open coll (Predicate p) opts None (Obj []) w eq_refl)
    as (c & w1 & -> & _ & Hcoll & Hs & Htr & Hopt & _ & _ & _ & _ & _ & Hr).
  unfold Cursor.count, Cursor.clone, mbind at 1. rewrite Hcoll, Hs, Htr, Hopt.
  destruct (new_open coll (Predicate p) opts None (Obj []) w1 eq_refl)
    as (cl & w2 & -> & Ho & Hcoll' & Hs' & Htr' & _ & Hlim & Hsk & Hpo & Hsd & Hy & _).
  rewrite Hr, no_paging_twice in Ho.
  rewrite Hr in Hlim, Hsk, Hpo.
  assert (Hlim' : _limit cl = None) by (rewrite Hlim; destruct (read_options opts w); reflexivity).
  assert (Hsk' : _skip cl = 0) by (rewrite Hsk; destruct (read_options opts w); reflexivity).
  assert (Hpo' : _populate cl = []) by (rewrite Hpo; destruct (read_options opts w); reflexivity).
  unfold mbind.
  destruct (iterate_spec fuel cl _ datas [] w2 Ho Hds ltac:(lia) Hf) as (c' & w3 & -> & _).
  cbn [app fst ret returned]. rewrite (within_limit_none cl _ Hlim').
  unfold stream. rewrite Hcoll', Hs', Htr', Hpo', stream_of_plain. reflexivity.
Qed.

Lemma count_all_matching_witness :
  returned
    ((let* o := alloc_options {| o_limit := Some 3; o_skip := Some 2;
                                 o_populate := None; o_sort := None;
                                 o_hint := None |} in
      Collection.count 11 sample_collection six_match (Some o)) empty_world)
  = Finished (length (until_null (List.filter six_match
                                    (List.map (model sample_collection) ten_documents)))).
Proof.
  unfold mbind, alloc_options. cbn [length heap_options empty_world].
  apply (count_all_matching 11 sample_collection six_match (Some 0) ten_documents);
    [reflexivity | cbn; lia].
Defined.

(** X18: [transformMany] returns the transforms of the models that pass
    the search, in the order of the stream and up to the first transform
    that is [null], or [null] when there is none; the limit and the skip of
    the options have no effect, as [map] builds its cursor from the options
    the constructor has emptied. *)
Theorem transformMany_all_matching (fuel : nat) (coll : MongoCollection)
    (p : Value -> bool) (tr : Value -> Value) (opts : option nat)
    (datas : list Value) (w : World) :
  mapM decode (store_find coll (Obj []) (no_paging <$> read_options opts w))
  = Return datas ->
  length datas < fuel ->
  returned (Collection.transformMany fuel coll (Predicate p) tr opts w)
  = Finished
      (or_null (until_null
                  (List.map tr (List.filter p (List.map (model coll) datas))))).
Proof.
  intros Hds Hf. unfold Collection.transformMany, find, mbind at 1.
  destruct (new_open coll (Predicate p) opts None (Obj []) w eq_refl)
    as (c & w1 & -> & _ & Hcoll & Hs & Htr & Hopt & _ & _ & _ & _ & _ & Hr).
  unfold Cursor.map, mbind at 1. rewrite Hcoll, Hs, Hopt.
  destruct (new_open coll (Predicate p) opts (Some tr) (Obj []) w1 eq_refl)
    as (cl & w2 & -> & Ho & Hcoll' & Hs' & Htr' & _ & Hlim & Hsk & Hpo & Hsd & Hy & _).
  rewrite Hr, no_paging_twice in Ho.
  rewrite Hr in Hlim, Hsk, Hpo.
  assert (Hlim' : _limit cl = None) by (rewrite Hlim; destruct (read_options opts w); reflexivity).
  assert (Hsk' : _skip cl = 0) by (rewrite Hsk; destruct (read_options opts w); reflexivity).
  assert (Hpo' : _populate cl = []) by (rewrite Hpo; destruct (read_options opts w); reflexivity).
  unfold Cursor.toArray, mbind.
  destruct (iterate_spec fuel cl _ datas [] w2 Ho Hds ltac:(lia) Hf) as (c' & w3 & -> & _).
  cbn [app fst ret returned]. rewrite (within_limit_none cl _ Hlim').
  unfold stream, stream_of. rewrite Hcoll', Hs', Htr', Hpo'. cbn [fold_left].
  destruct (until_null _); reflexivity.
Qed.

Lemma transformMany_all_matching_witness :
  returned
    ((let* o := alloc_options {| o_limit := Some 3; o_skip := Some 2;
                                 o_populate := None; o_sort := None;
                                 o_hint := None |} in
      Collection.transformMany 11 sample_collection (Predicate six_match)
        (member "n") (Some o)) empty_world)
  = Finished
      (or_null (until_null
                  (List.map (member "n")
                     (List.filter six_match
                        (List.map (model sample_collection) ten_documents))))).
Proof.
  unfold mbind, alloc_options. cbn [length heap_options empty_world].
  apply (transformMany_all_matching 11 sample_collection six_match (member "n")
           (Some 0) ten_documents);
    [reflexivity | cbn; lia].
Defined.

(** X19: a cursor without limit that is iterated to the end of its stream
    leaves its driver cursor closed: when no value of the stream is [null],
    [toArray] ends with the driver cursor closed and empty. *)
Theorem toArray_closes_at_end (fuel : nat) (c : FindCursor) (docs datas : list Value)
    (w : World) :
  open_on c docs w ->
  mapM decode docs = Return datas ->
  _skip c <= skipped c ->
  _limit c = None ->
  Forall (fun v => v <> Null) (stream c datas) ->
  length datas < fuel ->
  exists r w',
    Cursor.toArray fuel c w = Finished (r, w')
    /\ heap_cursors w' !! cursor c = Some {| d_docs := []; d_closed := true |}.
Proof.
  intros Ho Hds Hs Hlim Hall Hf. unfold Cursor.toArray, mbind.
  destruct (iterate_spec fuel c docs datas [] w Ho Hds Hs Hf) as (c' & w' & -> & _ & H).
  eexists _, _. split; [reflexivity|]. exact (H Hlim Hall).
Qed.

Lemma toArray_closes_at_end_witness :
  exists r w',
    Cursor.toArray 10 sample_cursor sample_world = Finished (r, w')
    /\ heap_cursors w' !! cursor sample_cursor
       = Some {| d_docs := []; d_closed := true |}.
Proof.
  apply (toArray_closes_at_end 10 sample_cursor (skipn 1 ten_documents)
           (skipn 1 ten_documents) sample_world);
    [reflexivity | reflexivity | cbn; lia | reflexivity | | cbn; lia].
  vm_compute. repeat constructor; discriminate.
Defined.

(** ** The writing methods of the collection *)

Lemma parse_no_id (d : UpdateFilter) (oper : string) (m : gmap string Value) :
  In (oper, m) (parse d) -> m !! "_id" = None.
Proof.
  unfold parse. intros Hin. apply in_map_iff in Hin as (e & E & _).
  injection E as _ <-. apply lookup_delete_eq.
Qed.

(** X20: [updateOne] writes to the store at most once.  The write is
    addressed by the [_id] of the document [findOne] gave, its update has an
    operator and names the path [_id] under none; the call acknowledges
    exactly when the store gave the document back, and the model it returns
    is built from that document.  Without a write, nothing is
    acknowledged. *)
Theorem updateOne_writes_once (env : UpdateEnv) (update : Value -> Value)
    (r : UpdateResult) (calls : list StoreCall) :
  updateOne env update = Return (r, calls) ->
  match calls with
  | [] => acknowledged r = false
  | [(filter, diff)] =>
      (exists before, findOne env = Some before
                      /\ filter = Obj [("_id", member "_id" before)])
      /\ diff <> []
      /\ (forall oper m, In (oper, m) diff -> m !! "_id" = None)
      /\ match findOneAndUpdate env filter diff with
         | Replaced document =>
             acknowledged r = true /\ updated r = Some (construct env document)
         | _ => acknowledged r = false /\ updated r = None
         end
  | _ => False
  end.
Proof.
  unfold updateOne. destruct (findOne env) as [before|]; [|intros [= <- <-]; reflexivity].
  destruct (safeParse env _) as [issues|]; [intros [= <- <-]; reflexivity|].
  destruct (changes "" _ _) as [d|e]; [|discriminate]. cbn [bind].
  destruct (Nat.eqb (length (parse d)) 0) eqn:El; [intros [= <- <-]; reflexivity|].
  intros [= <- <-]. split; [eauto|]. split.
  - intros E. rewrite E in El. discriminate El.
  - split; [intros oper m; apply parse_no_id|].
    destruct (findOneAndUpdate env _ _); split; reflexivity.
Qed.

Lemma updateOne_writes_once_witness :
  exists r filter diff,
    updateOne env_accepting (fun m => Obj (put "attempts" (Num 1) (own m)))
    = Return (r, [(filter, diff)])
    /\ (exists before, findOne env_accepting = Some before
                       /\ filter = Obj [("_id", member "_id" before)])
    /\ diff <> []
    /\ (forall oper m, In (oper, m) diff -> m !! "_id" = None)
    /\ match findOneAndUpdate env_accepting filter diff with
       | Replaced document =>
           acknowledged r = true /\ updated r = Some (construct env_accepting document)
       | _ => acknowledged r = false /\ updated r = None
       end.
Proof.
  destruct (updateOne env_accepting (fun m => Obj (put "attempts" (Num 1) (own m))))
    as [[r calls]|e] eqn:E; [|vm_compute in E; discriminate E].
  pose proof (updateOne_writes_once env_accepting _ r calls E) as H.
  assert (Hc : exists filter diff, calls = [(filter, diff)]).
  { vm_compute in E. injection E as _ <-. eauto. }
  destruct Hc as (filter & diff & ->).
  exists r, filter, diff. split; [reflexivity | exact H].
Defined.







Lemma put_error_keys (k m : string) (e : list (string * string)) :
  List.map fst (put_error k m e)
  = if includes k (List.map fst e) then List.map fst e else List.map fst e ++ [k].
Proof.
  induction e as [|[k' m'] e IH]; [reflexivity|].
  cbn [put_error]. unfold includes in *. cbn [List.map existsb fst].
  destruct (String.eqb k k') eqn:E.
  - apply String.eqb_eq in E. subst k'. reflexivity.
  - cbn [List.map fst orb]. rewrite IH.
    destruct (existsb (String.eqb k) (List.map fst e)); reflexivity.
Qed.

Lemma put_error_In (k m : string) (e : list (string * string)) :
  In (k, m) (put_error k m e).
Proof.
  induction e as [|[k' m'] e IH]; cbn [put_error]; [left; reflexivity|].
  destruct (String.eqb k k'); [left; reflexivity | right; exact IH].
Qed.

Lemma put_error_NoDup (k m : string) (e : list (string * string)) :
  List.NoDup (List.map fst e) -> List.NoDup (List.map fst (put_error k m e)).
Proof.
  intros H. rewrite put_error_keys. destruct (includes k (List.map fst e)) eqn:E; [exact H|].
  apply includes_false in E. apply NoDup_ListNoDup, NoDup_app.
  apply NoDup_ListNoDup in H. split; [exact H|]. split.
  - intros x Hx Hx'. apply list_elem_of_In in Hx. apply list_elem_of_singleton in Hx'.
    subst x. exact (E Hx).
  - apply NoDup_singleton.
Qed.

(** The fold of [schemaFailure], from any errors collected so far. *)
Lemma schemaFailure_fold (issues : list Issue) (acc : list (string * string)) :
  let step := fun e (i : Issue) =>
                match fst i with
                | Some p => if String.eqb p "" then e else put_error p (snd i) e
                | None => e
                end in
  List.NoDup (List.map fst acc) ->
  List.NoDup (List.map fst (fold_left step issues acc))
  /\ (forall k m, In (k, m) (fold_left step issues acc) ->
                  In (k, m) acc \/ (k <> "" /\ In (Some k, m) issues))
  /\ (forall k, In k (List.map fst acc) -> In k (List.map fst (fold_left step issues acc)))
  /\ (forall k m, In (Some k, m) issues -> k <> "" ->
                  In k (List.map fst (fold_left step issues acc))).
Proof.
  intros step. revert acc. induction issues as [|[[p|] m0] issues IH]; intros acc Hnd;
    cbn [fold_left].
  - repeat split; auto. intros k m [].
  - cbn [step fst snd]. destruct (String.eqb p "") eqn:Ep.
    + destruct (IH acc Hnd) as (H1 & H2 & H3 & H4). split; [exact H1|]. split; [|split].
      * intros k m Hin. destruct (H2 k m Hin) as [H|[Hk H]]; [left; exact H|].
        right. split; [exact Hk | right; exact H].
      * exact H3.
      * intros k m [E|Hin] Hk; [|exact (H4 k m Hin Hk)].
        injection E as -> ->. apply String.eqb_eq in Ep. contradiction.
    + destruct (IH (put_error p m0 acc) (put_error_NoDup p m0 acc Hnd)) as (H1 & H2 & H3 & H4).
      apply String.eqb_neq in Ep.
      split; [exact H1|]. split; [|split].
      * intros k m Hin. destruct (H2 k m Hin) as [H|[Hk H]].
        -- apply put_error_from in H as [E|H]; [|left; exact H].
           injection E as -> ->. right. split; [exact Ep | left; reflexivity].
        -- right. split; [exact Hk | right; exact H].
      * intros k Hk. apply H3. rewrite put_error_keys.
        destruct (includes p (List.map fst acc)); [exact Hk | apply in_or_app; left; exact Hk].
      * intros k m [E|Hin] Hk; [|exact (H4 k m Hin Hk)].
        injection E as -> ->. apply H3.
        change k with (fst (k, m)). apply in_map. apply put_error_In.
  - cbn [step fst snd]. destruct (IH acc Hnd) as (H1 & H2 & H3 & H4).
    split; [exact H1|]. split; [|split].
    + intros k m Hin. destruct (H2 k m Hin) as [H|[Hk H]]; [left; exact H|].
      right. split; [exact Hk | right; exact H].
    + exact H3.
    + intros k m [E|Hin] Hk; [discriminate E | exact (H4 k m Hin Hk)].
Qed.

(** X22: the errors of a failed validation are keyed by field: each key is
    the first path segment of an issue and holds the message of such an
    issue, no key shows twice, every issue with a first path segment has its
    key among the errors, and the issue that comes last decides the message
    of its key.  Issues without a path leave no error. *)
Theorem schemaFailure_fields (issues : list Issue) :
  acknowledged (schemaFailure issues) = false
  /\ List.NoDup (List.map fst (errors (schemaFailure issues)))
  /\ (forall k m, In (k, m) (errors (schemaFailure issues)) ->
                  k <> "" /\ In (Some k, m) issues)
  /\ (forall k m, In (Some k, m) issues -> k <> "" ->
                  In k (List.map fst (errors (schemaFailure issues))))
  /\ (forall k m, k <> "" ->
                  In (k, m) (errors (schemaFailure (issues ++ [(Some k, m)])))).
Proof.
  split; [reflexivity|]. unfold schemaFailure. cbn [errors].
  destruct (schemaFailure_fold issues [] (List.NoDup_nil _)) as (H1 & H2 & _ & H4).
  split; [exact H1|]. split; [|split].
  - intros k m Hin. destruct (H2 k m Hin) as [[]|H]. exact H.
  - exact H4.
  - intros k m Hk. rewrite fold_left_app. cbn [fold_left fst snd].
    apply String.eqb_neq in Hk. rewrite Hk. apply put_error_In.
Qed.

(** ** [updateMany] *)

(** The loop of [updateMany] on a cursor with no skip pending takes the
    values the cursor yields through the turns, in order. *)
Lemma updateMany_loop_turns (env : UpdateEnv) (update : Value -> Value) (fuel : nat) :
  forall (c : FindCursor) (docs datas ms : list Value) (calls : list StoreCall)
         (w : World),
    open_on c docs w ->
    mapM decode docs = Return datas ->
    _skip c <= skipped c ->
    length datas < fuel ->
    returned (updateMany_loop fuel env update c ms calls w)
    = outcome_of (turns env update (within_limit c (until_null (stream c datas)))
                    ms calls).
Proof.
  induction fuel as [|fuel IH]; intros c docs datas ms calls w Ho Hds Hs Hf; [lia|].
  cbn [updateMany_loop]. apply Nat.ltb_ge in Hs. rewrite Hs. apply Nat.ltb_ge in Hs.
  destruct (Cursor.limit_reached c) eqn:Hl.
  - rewrite (within_limit_reached c _ Hl). reflexivity.
  - unfold mbind at 1. rewrite (next_spec c docs datas w Ho Hds), Hl.
    pose proof (seek_stream c datas) as Hseek.
    destruct (seek c datas) as [[n v]|].
    + destruct Hseek as [Hn Hst]. rewrite Hst.
      destruct (Value_eq_Null v) as [->|Hv].
      * cbn. rewrite within_limit_nil. reflexivity.
      * rewrite (handed_Yield c v Hv), (until_null_cons v _ Hv). cbn [fst snd].
        rewrite (within_limit_cons c v _ Hl). cbn [turns].
        unfold mbind at 1, lift. destruct (turn env update v) as [[call m|res call]|e];
          cbn [bind]; try reflexivity.
        rewrite <- stream_advanced.
        apply (IH (advanced c) (skipn (S n) docs) (skipn (S n) datas)).
        -- apply (set_cell_lookup _ _ _ _ Ho).
        -- apply mapM_skipn. exact Hds.
        -- cbn. lia.
        -- rewrite length_skipn. lia.
    + rewrite Hseek. cbn. rewrite within_limit_nil. reflexivity.
Qed.

(** [updateMany] on a predicate and options without skip. *)
Lemma updateMany_turns (fuel : nat) (env : UpdateEnv) (update : Value -> Value)
    (coll : MongoCollection) (p : Value -> bool) (opts : option nat)
    (datas : list Value) (w : World) :
  default 0 (read_options opts w ≫= o_skip) = 0 ->
  default [] (read_options opts w ≫= o_populate) = [] ->
  mapM decode (store_find coll (Obj []) (no_paging <$> read_options opts w))
  = Return datas ->
  length datas < fuel ->
  returned (updateMany fuel env None update coll (Predicate p) opts w)
  = outcome_of
      (turns env update
         (limited (read_options opts w ≫= o_limit)
            (until_null (List.filter p (List.map (model coll) datas))))
         [] []).
Proof.
  intros Hskip Hpop Hds Hf. unfold updateMany, find.
  destruct (new_open coll (Predicate p) opts None (Obj []) w eq_refl)
    as (c & w' & E & Ho & Hcoll & Hs & Htr & _ & Hlim & Hsk & Hpo & Hsd & Hy & _).
  unfold mbind. rewrite E.
  rewrite (updateMany_loop_turns env update fuel c _ datas [] [] w' Ho Hds ltac:(lia) Hf).
  rewrite (within_limit_fresh c _ Hy), Hlim.
  unfold stream. rewrite Hcoll, Hs, Htr, Hpo, Hpop, stream_of_plain. reflexivity.
Qed.

(** X23: [updateMany] with an updater function on a predicate, called
    without options: when no streamed document passes the predicate, it
    writes nothing and reports that no model was updated. *)
Theorem updateMany_none_matching (fuel : nat) (env : UpdateEnv)
    (update : Value -> Value) (coll : MongoCollection) (p : Value -> bool)
    (datas : list Value) (w : World) :
  mapM decode (store_find coll (Obj []) None) = Return datas ->
  List.filter p (List.map (model coll) datas) = [] ->
  length datas < fuel ->
  returned (updateMany fuel env None update coll (Predicate p) None w)
  = Finished (failed (general ("No " +:+ model_name env +:+ " Updated")), []).
Proof.
  intros Hds Hnone Hf.
  rewrite (updateMany_turns fuel env update coll p None datas w eq_refl eq_refl Hds Hf).
  rewrite Hnone. reflexivity.
Qed.

Lemma updateMany_none_matching_witness :
  returned (updateMany 11 env_accepting None (fun m => m) sample_collection
              (Predicate (fun _ => false)) None empty_world)
  = Finished (failed (general ("No " +:+ model_name env_accepting +:+ " Updated")), []).
Proof.
  apply (updateMany_none_matching 11 env_accepting (fun m => m) sample_collection
           (fun _ => false) ten_documents empty_world);
    [reflexivity | reflexivity | cbn; lia].
Defined.

Lemma turn_cases (env : UpdateEnv) (update : Value -> Value) (before : Value) (t : Turn) :
  turn env update before = Return t ->
  match t with
  | Written call _ => write_for before call
  | Ended res call =>
      many_acknowledged res = false
      /\ match call with Some call => write_for before call | None => True end
  end.
Proof.
  unfold turn. destruct (safeParse env _) as [issues|]; [intros [= <-]; split; auto|].
  destruct (changes "" _ _) as [d|e]; [|discriminate]. cbn [bind].
  destruct (Nat.eqb (length (parse d)) 0) eqn:El; [intros [= <-]; split; auto|].
  assert (Hw : write_for before (Obj [("_id", member "_id" before)], parse d)).
  { split; [reflexivity|]. split.
    - cbn [snd]. intros E. rewrite E in El. discriminate El.
    - intros oper m. apply parse_no_id. }
  intros [= <-]. destruct (findOneAndUpdate env _ _); try exact Hw; split; auto.
Qed.

Lemma turns_acknowledged (env : UpdateEnv) (update : Value -> Value) :
  forall (befores ms : list Value) (calls : list StoreCall) (r : UpdateManyResult)
         (calls' : list StoreCall),
    turns env update befores ms calls = Return (r, calls') ->
    many_acknowledged r = true ->
    models r <> []
    /\ exists written, calls' = calls ++ written /\ Forall2 write_for befores written.
Proof.
  induction befores as [|before rest IH]; intros ms calls r calls' H Hack.
  - cbn [turns] in H. injection H as <- <-. unfold concluded in *.
    destruct ms; [discriminate Hack|]. split; [discriminate|].
    exists []. rewrite app_nil_r. split; [reflexivity | constructor].
  - cbn [turns] in H. apply bind_Return in H as (t & Ht & H).
    pose proof (turn_cases env update before t Ht) as Hc.
    destruct t as [call m|res call].
    + destruct (IH _ _ _ _ H Hack) as (Hm & written & -> & Hall).
      split; [exact Hm|]. exists (call :: written).
      rewrite <- app_assoc. split; [reflexivity|]. constructor; assumption.
    + injection H as <- <-. destruct Hc as [Hc _]. rewrite Hc in Hack. discriminate Hack.
Qed.

(** X24: when [updateMany] acknowledges, it has written once for each
    model the cursor yielded, in order: each write is addressed by the
    [_id] of its model, has an operator and does not name the path [_id];
    and it returns at least one model. *)
Theorem updateMany_acknowledged (fuel : nat) (env : UpdateEnv)
    (update : Value -> Value) (coll : MongoCollection) (p : Value -> bool)
    (opts : option nat) (datas : list Value) (w : World)
    (r : UpdateManyResult) (calls : list StoreCall) :
  default 0 (read_options opts w ≫= o_skip) = 0 ->
  default [] (read_options opts w ≫= o_populate) = [] ->
  mapM decode (store_find coll (Obj []) (no_paging <$> read_options opts w))
  = Return datas ->
  length datas < fuel ->
  returned (updateMany fuel env None update coll (Predicate p) opts w)
  = Finished (r, calls) ->
  many_acknowledged r = true ->
  models r <> []
  /\ Forall2 write_for
       (limited (read_options opts w ≫= o_limit)
          (until_null (List.filter p (List.map (model coll) datas))))
       calls.
Proof.
  intros Hskip Hpop Hds Hf H Hack.
  rewrite (updateMany_turns fuel env update coll p opts datas w Hskip Hpop Hds Hf) in H.
  destruct (turns env update _ [] []) as [[r' calls']|e] eqn:E; [|discriminate H].
  injection H as -> ->.
  destruct (turns_acknowledged env update _ _ _ _ _ E Hack) as (Hm & written & -> & Hall).
  split; [exact Hm | exact Hall].
Qed.

Lemma updateMany_acknowledged_witness :
  exists r calls,
    returned (updateMany 11 env_accepting None renumber sample_collection
                (Predicate six_match) None empty_world)
    = Finished (r, calls)
    /\ models r <> []
    /\ Forall2 write_for
         (limited (read_options None empty_world ≫= o_limit)
            (until_null (List.filter six_match
                           (List.map (model sample_collection) ten_documents))))
         calls.
Proof.
  destruct (returned (updateMany 11 env_accepting None renumber sample_collection
                        (Predicate six_match) None empty_world))
    as [[r calls]|e|] eqn:E; try (vm_compute in E; discriminate E).
  exists r, calls. split; [reflexivity|].
  apply (updateMany_acknowledged 11 env_accepting renumber sample_collection six_match
           None ten_documents empty_world r calls);
    [reflexivity | reflexivity | reflexivity | cbn; lia | exact E |].
  vm_compute in E. injection E as <- _. reflexivity.
Defined.

Lemma turns_stop (env : UpdateEnv) (update : Value -> Value) :
  forall (pre : list Value) (written : list StoreCall) (b : Value) (post ms : list Value)
         (calls : list StoreCall) (res : UpdateManyResult) (call : option StoreCall),
    Forall2 (fun x c => exists m, turn env update x = Return (Written c m)) pre written ->
    turn env update b = Return (Ended res call) ->
    turns env update (pre ++ b :: post) ms calls
    = Return (res, calls ++ written ++ pushed call).
Proof.
  intros pre written b post ms calls res call Hpre Hb. revert ms calls.
  induction Hpre as [|x c pre written [m Hx] Hpre IH]; intros ms calls.
  - cbn [app turns]. rewrite Hb. reflexivity.
  - cbn [app turns]. rewrite Hx. cbn [bind]. rewrite IH, <- app_assoc. reflexivity.
Qed.

(** X25: [updateMany] with an updater function on a predicate, called
    without options, is not atomic.  It ends at the first model whose turn
    fails (a failed validation, nothing to change, a duplicate key, a store
    error) and reports that failure, unacknowledged; the writes made for
    the models before it have been made and stay, and the models after it
    are not looked at. *)
Theorem updateMany_stops_at_failure (fuel : nat) (env : UpdateEnv)
    (update : Value -> Value) (coll : MongoCollection) (p : Value -> bool)
    (datas : list Value) (w : World)
    (pre post : list Value) (b : Value) (written : list StoreCall)
    (res : UpdateManyResult) (call : option StoreCall) :
  mapM decode (store_find coll (Obj []) None) = Return datas ->
  length datas < fuel ->
  until_null (List.filter p (List.map (model coll) datas)) = pre ++ b :: post ->
  Forall2 (fun x c => exists m, turn env update x = Return (Written c m)) pre written ->
  turn env update b = Return (Ended res call) ->
  returned (updateMany fuel env None update coll (Predicate p) None w)
  = Finished (res, written ++ pushed call)
  /\ many_acknowledged res = false.
Proof.
  intros Hds Hf Hsplit Hpre Hb.
  rewrite (updateMany_turns fuel env update coll p None datas w eq_refl eq_refl Hds Hf).
  rewrite Hsplit.
  replace (limited (None ≫= o_limit) (pre ++ b :: post)) with (pre ++ b :: post)
    by reflexivity.
  rewrite (turns_stop env update pre written b post [] [] res call Hpre Hb).
  split; [reflexivity|]. apply (turn_cases env update b _ Hb).
Qed.

Lemma updateMany_stops_at_failure_witness :
  exists written,
    returned (updateMany 11 env_refusing_five None archive sample_collection
                (Predicate six_match) None empty_world)
    = Finished (failed (schemaFailure [(Some "n", "Too Big")]), written ++ pushed None)
    /\ many_acknowledged (failed (schemaFailure [(Some "n", "Too Big")])) = false.
Proof.
  eexists.
  apply (updateMany_stops_at_failure 11 env_refusing_five archive sample_collection
           six_match ten_documents empty_world
           [numbered 1; numbered 3] [numbered 7; numbered 9; numbered 10] (numbered 5)).
  - reflexivity.
  - cbn; lia.
  - reflexivity.
  - constructor; [eexists; vm_compute; reflexivity|].
    constructor; [eexists; vm_compute; reflexivity|]. constructor.
  - reflexivity.
Defined.

(** ** The rendered change set *)

(** X26: the rendered change set has no operator exactly when the change
    set has no path under any operator: [parse] drops the operators that
    are empty before it deletes [_id], so an operator that held [_id] alone
    is rendered, empty. *)
Theorem parse_empty_iff (d : UpdateFilter) :
  parse d = [] <-> op_push d = ∅ /\ op_set d = ∅ /\ op_unset d = ∅.
Proof.
  unfold parse, operators. cbn [List.filter snd].
  split.
  - intros H.
    destruct (Nat.eqb (size (op_push d)) 0) eqn:E1; [|discriminate H].
    destruct (Nat.eqb (size (op_set d)) 0) eqn:E2; [|discriminate H].
    destruct (Nat.eqb (size (op_unset d)) 0) eqn:E3; [|discriminate H].
    apply Nat.eqb_eq in E1, E2, E3.
    apply map_size_empty_iff in E1, E2, E3. auto.
  - intros (-> & -> & ->). reflexivity.
Qed.

(** ** Plain objects inside plain objects *)

(** X27: for two plain objects that hold no [undefined] and no reserved
    tag key, whose keys at any depth of object nesting are not empty and
    hold no dot, and which, when compared at the root, carry the same
    [_id] or none: a field that holds a plain object before and after is
    not replaced as a whole, the change set returned has no operation at
    the path of the field itself, only below it. *)
Theorem changes_walks_into_objects (p : string) (la lb : Props) (c : UpdateFilter)
    (k : string) (la' lb' : Props) :
  good (Obj la) -> good (Obj lb) ->
  (p = "" -> get "_id" la = get "_id" lb) ->
  changes p (Obj la) (Obj lb) = Return c ->
  In (k, Obj la') la -> In (k, Obj lb') lb ->
  ~ touches c (path p k).
Proof.
  intros Hga Hgb Hid Hc Hina Hinb Ht.
  rewrite changes_Obj in Hc by reflexivity. cbn [own] in Hc.
  destruct (walk_spec p la lb c Hga Hgb Hid Hc) as (E1 & _ & _).
  destruct (E1 k (Obj lb') Hinb) as (ck & Hck & Hsame).
  destruct (good_Obj la Hga) as [Hnda Ha]. destruct (Ha k _ Hina) as (Hga' & _).
  destruct (good_Obj lb Hgb) as [_ Hb]. destruct (Hb k _ Hinb) as (Hgb' & Hk & _).
  rewrite (member_NoDup k _ la Hnda Hina) in Hck.
  rewrite changes_Obj in Hck by reflexivity. cbn [own] in Hck.
  assert (Hpk : path p k <> "") by (apply path_not_empty, (plain_key_spec k Hk)).
  assert (Hidv : path p k = "" -> get "_id" la' = get "_id" lb') by (intros E; contradiction).
  apply (same_at_touches c ck _ (Hsame _ (below_refl _))) in Ht.
  destruct (walk_inside (path p k) la' lb' ck Hga' Hgb' Hidv Hck _ Ht) as (k' & _ & Hbel).
  exact (below_not_self (path p k) k' _ Hpk Hbel eq_refl).
Qed.

Lemma changes_walks_into_objects_witness :
  exists c, changes "" profile_before profile_after = Return c
            /\ ~ touches c (path "" "address").
Proof.
  eexists. split; [vm_compute; reflexivity|].
  apply (changes_walks_into_objects "" (own profile_before) (own profile_after) _
           "address" [("city", Str "Oslo"); ("zip", Str "0150")] [("city", Str "Bergen")]);
    [split; reflexivity | split; reflexivity | reflexivity | vm_compute; reflexivity
     | do 3 right; left; reflexivity | do 3 right; left; reflexivity].
Defined.

(** ** The modifiers of a cursor *)

Lemma frames_receiver (c : FindCursor) (h : nat) (w w' : World) :
  cursor c < length (heap_cursors w) ->
  h = length (heap_cursors w) ->
  frames h w w' ->
  heap_cursors w' !! cursor c = heap_cursors w !! cursor c.
Proof. intros Hc -> [_ H]. apply H; [lia | exact Hc]. Qed.

Lemma alloc_then_new (o : FindOptions) (coll : MongoCollection) (s : Search)
    (tr : option (Value -> Value)) (w w' : World) (c' : FindCursor) :
  (let* r := alloc_options o in Cursor.new coll s (Some r) tr) w = Finished (c', w') ->
  cursor c' = length (heap_cursors w) /\ frames (cursor c') w w'.
Proof.
  intros H. apply mbind_Finished in H as (r & w1 & H1 & H).
  unfold alloc_options in H1. injection H1 as <- <-.
  apply new_spec in H as (H1 & H2 & _). cbn in *. auto.
Qed.

(** X28: the modifiers build a new cursor and leave the receiver alone:
    after [clone], [limit], [skip], [hint], [sort] or [map], the new cursor
    has a driver cursor of its own, and the driver cursor of the receiver
    is what it was. *)
Theorem modifiers_leave_receiver (c c' : FindCursor) (w w' : World)
    (n : nat) (v : Value) (tr : Value -> Value) :
  cursor c < length (heap_cursors w) ->
  Cursor.clone c w = Finished (c', w')
  \/ Cursor.limit n c w = Finished (c', w')
  \/ Cursor.skip n c w = Finished (c', w')
  \/ Cursor.hint v c w = Finished (c', w')
  \/ Cursor.sort v c w = Finished (c', w')
  \/ Cursor.map tr c w = Finished (c', w') ->
  cursor c' <> cursor c
  /\ heap_cursors w' !! cursor c = heap_cursors w !! cursor c.
Proof.
  intros Hc H.
  assert (Hnew : cursor c' = length (heap_cursors w) /\ frames (cursor c') w w').
  { destruct H as [H|[H|[H|[H|[H|H]]]]].
    - apply new_spec in H as (H1 & H2 & _). auto.
    - exact (alloc_then_new _ _ _ _ _ _ _ H).
    - exact (alloc_then_new _ _ _ _ _ _ _ H).
    - exact (alloc_then_new _ _ _ _ _ _ _ H).
    - exact (alloc_then_new _ _ _ _ _ _ _ H).
    - apply new_spec in H as (H1 & H2 & _). auto. }
  destruct Hnew as [H1 H2]. split; [lia|].
  exact (frames_receiver c (cursor c') w w' Hc H1 H2).
Qed.

Lemma modifiers_leave_receiver_witness :
  exists c' w',
    Cursor.limit 3 sample_cursor sample_world = Finished (c', w')
    /\ cursor c' <> cursor sample_cursor
    /\ heap_cursors w' !! cursor sample_cursor
       = heap_cursors sample_world !! cursor sample_cursor.
Proof.
  eexists _, _. split; [vm_compute; reflexivity|].
  eapply (modifiers_leave_receiver sample_cursor _ sample_world _ 3 Null (fun m => m));
    [cbn; lia|].
  right. left. vm_compute. reflexivity.
Defined.

(** X29: [exists] on a predicate, without options, answers whether some
    streamed document passes the predicate (the model of the first that
    does not being [null]); the probe asks the store with an options
    object that holds no paging. *)
Theorem exists_matching (coll : MongoCollection) (p : Value -> bool)
    (datas : list Value) (w : World) :
  mapM decode (store_find coll (Obj []) (Some (no_paging (Cursor.spread None w))))
  = Return datas ->
  returned (Collection.exists_ coll (Predicate p) None w)
  = Finished
      (match List.filter p (List.map (model coll) datas) with
       | value :: _ => negb (is_null value)
       | [] => false
       end).
Proof.
  intros Hds. unfold Collection.exists_, find, mbind at 1.
  destruct (new_open coll (Predicate p) None None (Obj []) w eq_refl)
    as (c & w0 & -> & _ & Hcoll0 & Hs0 & Htr0 & Hopt0 & _).
  unfold Cursor.hasNext, Cursor.clone, mbind at 1. rewrite Hcoll0, Hs0, Htr0, Hopt0.
  destruct (new_open coll (Predicate p) None None (Obj []) w0 eq_refl)
    as (cl & w1 & -> & _ & Hcoll & Hs & Htr & Hopt & _).
  unfold mbind at 1.
  assert (Hq' : query_of (search cl) = Return (Obj [])) by (rewrite Hs; reflexivity).
  destruct (skip_open (yielded c) cl (Obj []) w1 Hq')
    as (probe & w2 & -> & Ho & Hcoll' & Hs' & Htr' & Hlim & Hsk & Hpo & Hsd & Hy).
  rewrite Hopt, Hcoll in *.
  change (Cursor.spread None w1) with (Cursor.spread None w) in *.
  cbn [Cursor.spread read_options o_limit o_populate default] in Hlim, Hpo.
  unfold mbind. rewrite (next_spec probe _ datas w2 Ho Hds).
  unfold Cursor.limit_reached. rewrite Hlim.
  pose proof (seek_stream probe datas) as Hseek. unfold stream in Hseek.
  rewrite Hcoll', Hs', Htr', Hpo, Hs, Htr, stream_of_plain in Hseek.
  change (fun value : Value => p value) with p in Hseek.
  destruct (seek probe datas) as [[n v]|].
  - destruct Hseek as [_ ->]. cbn. destruct v; reflexivity.
  - rewrite Hseek. reflexivity.
Qed.

Lemma exists_matching_witness :
  returned (Collection.exists_ sample_collection (Predicate six_match) None empty_world)
  = Finished
      (match List.filter six_match (List.map (model sample_collection) ten_documents) with
       | value :: _ => negb (is_null value)
       | [] => false
       end).
Proof.
  apply (exists_matching sample_collection six_match ten_documents empty_world).
  reflexivity.
Defined.
